(** * Mandelbrot viewer: the View coordinate model, the escape-time evaluator
    and the pixel renderer

  Shallow embedding of View.cpp / View.hpp and of the rendering part of
  MandelbrotRenderer.cpp.

  The source is written against [typedef double Real] (or the GMP wrapper
  when [UseArbitraryPrecision] is defined).  The embedding keeps that
  genericity: every function of the source is written once, over a class
  [RealOps] of the operations the source applies to [Real], and the class
  has two instances:

  - [R_Real]: the real numbers, i.e. the source read with exact
    arithmetic (no rounding, no overflow);
  - [b64_Real]: IEEE-754 binary64 as specified by the standard library's
    executable [SpecFloat] model, i.e. [double].

  [int] is a 32-bit two's complement integer, held in [Z], with the
  wrap-around written out in [wrap_int]. *)

From Stdlib Require Import ZArith Reals Lra Lia Bool List SpecFloat.
From stdpp Require Import base list.

Open Scope Z_scope.

(* ------------------------------------------------------------------ *)
(** ** 32-bit signed integers *)

Module Int.

Definition INT_MIN : Z := - 2 ^ 31.
Definition INT_MAX : Z := 2 ^ 31 - 1.

(** The values an [int] can hold. *)
Definition fits (z : Z) : Prop := INT_MIN <= z <= INT_MAX.

Definition fitsb (z : Z) : bool := (INT_MIN <=? z) && (z <=? INT_MAX).

(** Two's complement reduction of a mathematical integer to an [int]. *)
Definition wrap_int (z : Z) : Z := (z + 2 ^ 31) mod 2 ^ 32 - 2 ^ 31.

Definition add (a b : Z) : Z := wrap_int (a + b).
Definition sub (a b : Z) : Z := wrap_int (a - b).
Definition mul (a b : Z) : Z := wrap_int (a * b).
(** C++ integer division truncates toward zero. *)
Definition div (a b : Z) : Z := wrap_int (Z.quot a b).
(** [abs] on [int]. *)
Definition abs (a : Z) : Z := wrap_int (Z.abs a).

End Int.

(* ------------------------------------------------------------------ *)
(** ** The [Real] interface *)

(** What the source does with a [Real] (and with the [float] and [double]
  temporaries it mixes with it). *)
Class RealOps (T : Type) : Type := {
  radd : T -> T -> T;
  rsub : T -> T -> T;
  rmul : T -> T -> T;
  rdiv : T -> T -> T;
  rneg : T -> T;
  rabs : T -> T;
  (* [rltb a b] is the C++ test [a < b]; [a > b] is [rltb b a] *)
  rltb : T -> T -> bool;
  (* [signbit] *)
  rsignbit : T -> bool;
  (* [static_cast<Real>(i)] for an [int] [i] *)
  of_int : Z -> T;
  (* [static_cast<int>(r)]: truncation toward zero *)
  to_int : T -> Z
}.

(** The [<cmath>] functions the source calls. *)
Class RealMath (T : Type) `{RealOps T} : Type := {
  rpow : T -> T -> T;
  rlog2 : T -> T;
  rfmod : T -> T -> T
}.

Declare Scope real_scope.
Delimit Scope real_scope with re.
Infix "+" := radd : real_scope.
Infix "-" := rsub : real_scope.
Infix "*" := rmul : real_scope.
Infix "/" := rdiv : real_scope.
Notation "- x" := (rneg x) : real_scope.
Infix "<?" := rltb : real_scope.

(** A literal [p/q] of the source, e.g. [0.5]: the quotient of two exactly
  representable integers is the correctly rounded value of the literal. *)
Definition literal {T} `{RealOps T} (p q : Z) : T := (of_int p / of_int q)%re.

(* ------------------------------------------------------------------ *)
(** ** Instance: exact real arithmetic *)

Module ExactReal.

(** Truncation toward zero of a real number. *)
Definition truncR (r : R) : Z :=
  if Rle_dec 0 r then Int_part r else (- Int_part (- r))%Z.

(** [static_cast<int>]: the truncated value when an [int] can hold it.
    Otherwise the conversion is undefined in C++; the model returns
    [INT_MIN], the "integer indefinite" value of the x86 conversion. *)
Definition R_to_int (r : R) : Z :=
  let t := truncR r in if Int.fitsb t then t else Int.INT_MIN.

Definition R_ltb (a b : R) : bool := if Rlt_dec a b then true else false.

(** [fmod a b = a - b * trunc (a / b)]. *)
Definition R_fmod (a b : R) : R := (a - b * IZR (truncR (a / b)))%R.

Definition R_log2 (a : R) : R := (ln a / ln 2)%R.

End ExactReal.

#[export] Instance R_Real : RealOps R := {
  radd := Rplus;
  rsub := Rminus;
  rmul := Rmult;
  rdiv := Rdiv;
  rneg := Ropp;
  rabs := Rabs;
  rltb := ExactReal.R_ltb;
  rsignbit := fun r => ExactReal.R_ltb r 0;
  of_int := IZR;
  to_int := ExactReal.R_to_int
}.

(** [Rpower a b = exp (b * ln a)] is [pow a b] for a positive base; the
  source only ever raises 2. *)
#[export] Instance R_Math : RealMath R := {
  rpow := Rpower;
  rlog2 := ExactReal.R_log2;
  rfmod := ExactReal.R_fmod
}.

(* ------------------------------------------------------------------ *)
(** ** Instance: IEEE-754 binary64 ([double]) *)

Module Binary64.

Definition prec : Z := 53.
Definition emax : Z := 1024.

Definition double : Type := spec_float.

(** Conversion of an [int]: every 32-bit integer is representable. *)
Definition b64_of_int (z : Z) : double := binary_normalize prec emax z 0 false.

(** [static_cast<int>]: truncation toward zero; NaN, infinities and values
    no [int] can hold give [INT_MIN], as the x86 conversion does. *)
Definition b64_to_int (f : double) : Z :=
  match f with
  | S754_zero _ => 0
  | S754_finite s m e =>
      let mag := if 0 <=? e then Z.pos m * 2 ^ e else Z.pos m / 2 ^ (- e) in
      let t := if s then - mag else mag in
      if Int.fitsb t then t else Int.INT_MIN
  | S754_infinity _ | S754_nan => Int.INT_MIN
  end.

Definition b64_signbit (f : double) : bool :=
  match f with
  | S754_zero s | S754_infinity s | S754_finite s _ _ => s
  | S754_nan => false
  end.

End Binary64.

#[export] Instance b64_Real : RealOps Binary64.double := {
  radd := SFadd Binary64.prec Binary64.emax;
  rsub := SFsub Binary64.prec Binary64.emax;
  rmul := SFmul Binary64.prec Binary64.emax;
  rdiv := SFdiv Binary64.prec Binary64.emax;
  rneg := SFopp;
  rabs := SFabs;
  rltb := SFltb;
  rsignbit := Binary64.b64_signbit;
  of_int := Binary64.b64_of_int;
  to_int := Binary64.b64_to_int
}.


(* ------------------------------------------------------------------ *)
(** ** Rounded arithmetic *)

(** [result] is [exact] rounded: off by at most [u] times the magnitude of
    [exact], or [u] times [tiny] where [exact] is smaller than [tiny]. *)
Definition rounds_to (u tiny exact result : R) : Prop :=
  (Rabs (result - exact) <= u * Rmax (Rabs exact) tiny)%R.

(** What the statements about rounding ask of a [Real]: which values are
    finite numbers, the real number each of them stands for, and how far the
    result of an operation may be from the exact one.  This is the usual
    model of binary floating-point arithmetic with rounding to nearest.  For
    [double], [unit_roundoff] is [2^-53], [tiny] is the smallest positive
    normal number [2^-1022] (below it the error is absolute, at most
    [2^-1075]) and [huge] the largest finite number; an operation whose exact
    result is above [huge] may overflow and is promised nothing.  Exact
    arithmetic is the case without error. *)
Class RoundedReal (T : Type) `{RealOps T} : Type := {
  finite : T -> Prop;
  val : T -> R;
  unit_roundoff : R;
  tiny : R;
  huge : R;
  unit_roundoff_range : (0 <= unit_roundoff <= 1 / 2)%R;
  tiny_nonneg : (0 <= tiny)%R;
  add_rounded : forall a b : T, finite a -> finite b ->
    (Rabs (val a + val b) <= huge)%R ->
    finite (a + b)%re
    /\ rounds_to unit_roundoff tiny (val a + val b) (val (a + b)%re);
  sub_rounded : forall a b : T, finite a -> finite b ->
    (Rabs (val a - val b) <= huge)%R ->
    finite (a - b)%re
    /\ rounds_to unit_roundoff tiny (val a - val b) (val (a - b)%re);
  mul_rounded : forall a b : T, finite a -> finite b ->
    (Rabs (val a * val b) <= huge)%R ->
    finite (a * b)%re
    /\ rounds_to unit_roundoff tiny (val a * val b) (val (a * b)%re);
  div_rounded : forall a b : T, finite a -> finite b -> val b <> 0%R ->
    (Rabs (val a / val b) <= huge)%R ->
    finite (a / b)%re
    /\ rounds_to unit_roundoff tiny (val a / val b) (val (a / b)%re);
  (* every [int] converts exactly *)
  of_int_exact : forall n : Z, Int.fits n ->
    finite (of_int n) /\ val (of_int n) = IZR n;
  (* [static_cast<int>] truncates toward zero, and always yields an [int] *)
  to_int_is_int : forall a : T, Int.fits (to_int a);
  to_int_trunc : forall a : T, finite a ->
    Int.fits (ExactReal.truncR (val a)) -> to_int a = ExactReal.truncR (val a);
  ltb_val : forall a b : T, finite a -> finite b ->
    ((a <? b)%re = true <-> (val a < val b)%R)
}.

(** The same for [pow] with base 2, the only call of the source: the
    library's result is off by at most [pow_error] times the exact power, as
    long as the exact power is a normal number. *)
Class RoundedMath (T : Type) `{RM : RealMath T} `{RR : !RoundedReal T} : Type := {
  pow_error : R;
  pow_error_range : (0 <= pow_error <= 1 / 2)%R;
  pow2_rounded : forall z : T, finite z ->
    (tiny <= Rpower 2 (val z) <= huge)%R ->
    finite (rpow (of_int 2) z)
    /\ (Rabs (val (rpow (of_int 2) z) - Rpower 2 (val z))
        <= pow_error * Rpower 2 (val z))%R
}.

(** A finite value above zero. *)
Definition is_positive {T : Type} `{RoundedReal T} (a : T) : Prop :=
  finite a /\ (0 < val a)%R.

(* ------------------------------------------------------------------ *)
(** ** Vectors and rectangles ([sf::Vector2<T>], [sf::Rect<T>]) *)

Record Vector2 (A : Type) : Type := mkVector2 { vx : A; vy : A }.
Arguments mkVector2 {A} _ _.
Arguments vx {A} _.
Arguments vy {A} _.

Record Rect (A : Type) : Type :=
  mkRect { rect_left : A; rect_top : A; rect_width : A; rect_height : A }.
Arguments mkRect {A} _ _ _ _.
Arguments rect_left {A} _.
Arguments rect_top {A} _.
Arguments rect_width {A} _.
Arguments rect_height {A} _.

(** [typedef sf::Vector2<int> Pixel]. *)
Definition Pixel : Type := Vector2 Z.

(** [sf::Rect<T>(position, size)]: the second vector is the SIZE of the
    rectangle, not its opposite corner. *)
Definition Rect_of_position_size {A} (position size : Vector2 A) : Rect A :=
  mkRect (vx position) (vy position) (vx size) (vy size).

(* ------------------------------------------------------------------ *)
(** ** View *)

Section ViewModel.

Context {T : Type} `{RM : RealMath T}.

Local Open Scope real_scope.

(** [typedef sf::Vector2<Real> Complex], [typedef sf::Rect<Real> ComplexRect]. *)
Definition Complex : Type := Vector2 T.
Definition ComplexRect : Type := Rect T.

(** The part of [sf::RectangleShape] the View sets. *)
Record RectangleShape : Type :=
  mkShape { shape_position : Vector2 T; shape_size : Vector2 T }.

Record View : Type := mkView {
  m_dirty : bool;
  m_scale : T;
  m_zoom : T;
  m_centre : Complex;
  m_rect : ComplexRect;
  m_screenSize : Pixel;
  m_aspectRatio : T;
  m_zoomBoxIsShown : bool;
  m_zoomBoxStartCorner : Pixel;
  m_zoomBoxEndCorner : Pixel;
  m_zoomBoxShape : RectangleShape
}.

Definition HALF : T := literal 1 2.
Definition TWO : T := of_int 2.
Definition ONE : T := of_int 1.
Definition ZERO : T := of_int 0.

(** Field updates, one per member the source assigns. *)
Definition set_dirty (v : View) (d : bool) : View :=
  mkView d (m_scale v) (m_zoom v) (m_centre v) (m_rect v) (m_screenSize v)
    (m_aspectRatio v) (m_zoomBoxIsShown v) (m_zoomBoxStartCorner v)
    (m_zoomBoxEndCorner v) (m_zoomBoxShape v).
Definition set_scale (v : View) (s : T) : View :=
  mkView (m_dirty v) s (m_zoom v) (m_centre v) (m_rect v) (m_screenSize v)
    (m_aspectRatio v) (m_zoomBoxIsShown v) (m_zoomBoxStartCorner v)
    (m_zoomBoxEndCorner v) (m_zoomBoxShape v).
Definition set_zoom (v : View) (z : T) : View :=
  mkView (m_dirty v) (m_scale v) z (m_centre v) (m_rect v) (m_screenSize v)
    (m_aspectRatio v) (m_zoomBoxIsShown v) (m_zoomBoxStartCorner v)
    (m_zoomBoxEndCorner v) (m_zoomBoxShape v).
Definition set_centre (v : View) (c : Complex) : View :=
  mkView (m_dirty v) (m_scale v) (m_zoom v) c (m_rect v) (m_screenSize v)
    (m_aspectRatio v) (m_zoomBoxIsShown v) (m_zoomBoxStartCorner v)
    (m_zoomBoxEndCorner v) (m_zoomBoxShape v).
Definition set_rect (v : View) (r : ComplexRect) : View :=
  mkView (m_dirty v) (m_scale v) (m_zoom v) (m_centre v) r (m_screenSize v)
    (m_aspectRatio v) (m_zoomBoxIsShown v) (m_zoomBoxStartCorner v)
    (m_zoomBoxEndCorner v) (m_zoomBoxShape v).
Definition set_screenSize (v : View) (p : Pixel) : View :=
  mkView (m_dirty v) (m_scale v) (m_zoom v) (m_centre v) (m_rect v) p
    (m_aspectRatio v) (m_zoomBoxIsShown v) (m_zoomBoxStartCorner v)
    (m_zoomBoxEndCorner v) (m_zoomBoxShape v).
Definition set_aspectRatio (v : View) (a : T) : View :=
  mkView (m_dirty v) (m_scale v) (m_zoom v) (m_centre v) (m_rect v)
    (m_screenSize v) a (m_zoomBoxIsShown v) (m_zoomBoxStartCorner v)
    (m_zoomBoxEndCorner v) (m_zoomBoxShape v).
Definition set_zoomBoxIsShown (v : View) (b : bool) : View :=
  mkView (m_dirty v) (m_scale v) (m_zoom v) (m_centre v) (m_rect v)
    (m_screenSize v) (m_aspectRatio v) b (m_zoomBoxStartCorner v)
    (m_zoomBoxEndCorner v) (m_zoomBoxShape v).
Definition set_zoomBoxStartCorner (v : View) (p : Pixel) : View :=
  mkView (m_dirty v) (m_scale v) (m_zoom v) (m_centre v) (m_rect v)
    (m_screenSize v) (m_aspectRatio v) (m_zoomBoxIsShown v) p
    (m_zoomBoxEndCorner v) (m_zoomBoxShape v).
Definition set_zoomBoxEndCorner (v : View) (p : Pixel) : View :=
  mkView (m_dirty v) (m_scale v) (m_zoom v) (m_centre v) (m_rect v)
    (m_screenSize v) (m_aspectRatio v) (m_zoomBoxIsShown v)
    (m_zoomBoxStartCorner v) p (m_zoomBoxShape v).
Definition set_zoomBoxShape (v : View) (s : RectangleShape) : View :=
  mkView (m_dirty v) (m_scale v) (m_zoom v) (m_centre v) (m_rect v)
    (m_screenSize v) (m_aspectRatio v) (m_zoomBoxIsShown v)
    (m_zoomBoxStartCorner v) (m_zoomBoxEndCorner v) s.

(** *** Read accessors *)

Definition isDirty (v : View) : bool := m_dirty v.
Definition getScale (v : View) : T := m_scale v.
Definition getZoom (v : View) : T := m_zoom v.
Definition getCentre (v : View) : Complex := m_centre v.
Definition getViewport (v : View) : ComplexRect := m_rect v.
Definition getViewportPosition (v : View) : Complex :=
  mkVector2 (rect_left (m_rect v)) (rect_top (m_rect v)).
Definition getViewportSize (v : View) : Complex :=
  mkVector2 (rect_width (m_rect v)) (rect_height (m_rect v)).
Definition getZoomBoxIsShown (v : View) : bool := m_zoomBoxIsShown v.
Definition getZoomBoxShape (v : View) : RectangleShape := m_zoomBoxShape v.

(** *** Viewport *)

(** [Complex scaleVector(m_scale * m_aspectRatio, m_scale);
     m_rect = ComplexRect(m_centre - scaleVector, scaleVector);] *)
Definition updateViewport (v : View) : View :=
  let scaleVector : Complex := mkVector2 (m_scale v * m_aspectRatio v) (m_scale v) in
  set_rect v
    (Rect_of_position_size
       (mkVector2 (vx (m_centre v) - vx scaleVector)
                  (vy (m_centre v) - vy scaleVector))
       scaleVector).

(** [setViewport(r)]; it does not call [updateViewport]. *)
Definition setViewport (v : View) (r : ComplexRect) : View :=
  let v1 := set_rect v r in
  let v2 := set_scale v1 (HALF * rect_height r) in
  let v3 := set_zoom v2 (rlog2 (m_scale v2)) in
  let v4 := set_centre v3
              (mkVector2 (rect_left r + HALF * rect_width r)
                         (rect_top r + HALF * rect_height r)) in
  set_dirty v4 true.

(** *** Scale and zoom *)

Definition setScale (v : View) (s : T) : View :=
  let v1 := set_scale v s in
  let v2 := set_zoom v1 (rlog2 s) in
  updateViewport (set_dirty v2 true).

Definition zoomTo (v : View) (z : T) : View :=
  let v1 := set_zoom v z in
  let v2 := set_scale v1 (rpow (of_int 2) (m_zoom v1)) in
  updateViewport (set_dirty v2 true).

(** [m_zoom += dz; m_scale = 1 / pow(TWO, static_cast<long>(-m_zoom));]
    [long] is the 32-bit type of the platform the project is built for; the
    integer exponent is converted back for [pow]. *)
Definition zoomBy (v : View) (dz : T) : View :=
  let v1 := set_zoom v (m_zoom v + dz) in
  let v2 := set_scale v1 (of_int 1 / rpow TWO (of_int (to_int (- m_zoom v1)))) in
  updateViewport (set_dirty v2 true).

(** [m_scale *= static_cast<double>(screenHeight) / m_screenSize.y; ...] *)
Definition resizeScreen (v : View) (screenWidth screenHeight : Z) : View :=
  let v1 := set_scale v
              (m_scale v * (of_int screenHeight / of_int (vy (m_screenSize v)))) in
  let v2 := set_screenSize v1 (mkVector2 screenWidth screenHeight) in
  let v3 := set_aspectRatio v2 (of_int screenWidth / of_int screenHeight) in
  updateViewport (set_dirty v3 true).

(** *** Centre *)

(** [moveBy(Complex displacement)] *)
Definition moveBy_z (v : View) (displacement : Complex) : View :=
  let v1 := set_centre v
              (mkVector2 (vx (m_centre v) + vx displacement * m_scale v)
                         (vy (m_centre v) + vy displacement * m_scale v)) in
  updateViewport (set_dirty v1 true).

(** [moveBy(Real dx, Real dy)] *)
Definition moveBy (v : View) (dx dy : T) : View :=
  let v1 := set_centre v (mkVector2 (vx (m_centre v) + dx * m_scale v)
                                    (vy (m_centre v))) in
  let v2 := set_centre v1 (mkVector2 (vx (m_centre v1))
                                     (vy (m_centre v1) + dy * m_scale v1)) in
  updateViewport (set_dirty v2 true).

(** [moveTo(Complex position)] *)
Definition moveTo_z (v : View) (position : Complex) : View :=
  updateViewport (set_dirty (set_centre v position) true).

(** [moveTo(Real x, Real y)] *)
Definition moveTo (v : View) (x y : T) : View :=
  updateViewport (set_dirty (set_centre v (mkVector2 x y)) true).

(** *** Pixel <-> plane *)

(** [complexAtPixel(Pixel p)]:
    [m_centre + m_scale * Complex(2 * p - m_screenSize) / static_cast<Real>(m_screenSize.y)] *)
Definition complexAtPixel_p (v : View) (p : Pixel) : Complex :=
  let dx := Int.sub (Int.mul 2 (vx p)) (vx (m_screenSize v)) in
  let dy := Int.sub (Int.mul 2 (vy p)) (vy (m_screenSize v)) in
  mkVector2
    (vx (m_centre v) + (m_scale v * of_int dx) / of_int (vy (m_screenSize v)))
    (vy (m_centre v) + (m_scale v * of_int dy) / of_int (vy (m_screenSize v))).

(** [complexAtPixel(int x, int y)] *)
Definition complexAtPixel (v : View) (x y : Z) : Complex :=
  mkVector2
    (vx (m_centre v)
     + (m_scale v / of_int (vy (m_screenSize v)))
       * of_int (Int.sub (Int.mul 2 x) (vx (m_screenSize v))))
    (vy (m_centre v)
     + (m_scale v / of_int (vy (m_screenSize v)))
       * of_int (Int.sub (Int.mul 2 y) (vy (m_screenSize v)))).

(** [pixelAtComplex(Real x, Real y)] *)
Definition pixelAtComplex (v : View) (x y : T) : Pixel :=
  mkVector2
    (to_int (HALF * ((x - vx (m_centre v))
                     * (of_int (vy (m_screenSize v)) / m_scale v)
                     + of_int (vx (m_screenSize v)))))
    (to_int (HALF * ((y - vy (m_centre v))
                     * (of_int (vy (m_screenSize v)) / m_scale v)
                     + of_int (vy (m_screenSize v))))).

(** [pixelAtComplex(Complex z)]: the same arithmetic, on vectors. *)
Definition pixelAtComplex_z (v : View) (z : Complex) : Pixel :=
  pixelAtComplex v (vx z) (vy z).

(** *** Zoom box *)

Definition zoomBoxBegin (v : View) (x y : Z) : View :=
  set_zoomBoxStartCorner (set_zoomBoxIsShown v true) (mkVector2 x y).

(** The aspect-locked extent [(w, h)] that [zoomBoxContinue] computes from
    the drag to [(x, y)]. *)
Definition zoomBoxExtent (v : View) (x y : Z) : T * T :=
  let w := of_int (Int.sub x (vx (m_zoomBoxStartCorner v))) in
  let h := of_int (Int.sub y (vy (m_zoomBoxStartCorner v))) in
  if rabs w <? m_aspectRatio v * rabs h
  then (rabs h * m_aspectRatio v * (if rsignbit w then of_int (-1) else of_int 1), h)
  else (w, rabs w / m_aspectRatio v * (if rsignbit h then of_int (-1) else of_int 1)).

Definition zoomBoxContinue (v : View) (x y : Z) : View :=
  if m_zoomBoxIsShown v then
    let '(w, h) := zoomBoxExtent v x y in
    let v1 := set_zoomBoxEndCorner v
                (mkVector2 (Int.add (vx (m_zoomBoxStartCorner v)) (to_int w))
                           (Int.add (vy (m_zoomBoxStartCorner v)) (to_int h))) in
    set_zoomBoxShape v1
      (mkShape
         (mkVector2
            (of_int (Z.min (vx (m_zoomBoxStartCorner v1)) (vx (m_zoomBoxEndCorner v1))))
            (of_int (Z.min (vy (m_zoomBoxStartCorner v1)) (vy (m_zoomBoxEndCorner v1)))))
         (mkVector2 (rabs w) (rabs h)))
  else v.

Definition zoomBoxEnd (v : View) (x y : Z) : View :=
  let v1 := zoomBoxContinue v x y in
  let h := of_int (Int.abs (Int.sub (vy (m_zoomBoxEndCorner v1))
                                    (vy (m_zoomBoxStartCorner v1)))) in
  let v2 :=
    if ZERO <? h then
      let mid : Pixel :=
        mkVector2
          (Int.div (Int.add (vx (m_zoomBoxStartCorner v1)) (vx (m_zoomBoxEndCorner v1))) 2)
          (Int.div (Int.add (vy (m_zoomBoxStartCorner v1)) (vy (m_zoomBoxEndCorner v1))) 2) in
      let v' := moveTo_z v1 (complexAtPixel_p v1 mid) in
      setScale v' (m_scale v' * h / of_int (vy (m_screenSize v')))
    else v1 in
  set_zoomBoxShape (set_zoomBoxIsShown v2 false)
    (mkShape (shape_position (m_zoomBoxShape v2)) (mkVector2 ZERO ZERO)).

Definition zoomBoxCancel (v : View) : View := set_zoomBoxIsShown v false.

(** *** Constructor *)

(** The member initialisers of View.hpp, then the constructor body. *)
Definition View_new (x y zoom : T) (screenWidth screenHeight : Z) : View :=
  let v0 :=
    mkView true (of_int 2) (of_int 1) (mkVector2 ZERO ZERO)
      (mkRect ZERO ZERO ZERO ZERO)
      (mkVector2 screenWidth screenHeight)
      (of_int screenWidth / of_int screenHeight)
      false (mkVector2 0%Z 0%Z) (mkVector2 0%Z 0%Z)
      (mkShape (mkVector2 ZERO ZERO) (mkVector2 ZERO ZERO)) in
  zoomTo (moveTo v0 x y) zoom.

End ViewModel.

(* ------------------------------------------------------------------ *)
(** ** Renderer: hue ramp, escape-time evaluator, pixel loop *)

(** [sf::Color]: four [sf::Uint8] channels. *)
Record Color : Type := mkColor { col_r : Z; col_g : Z; col_b : Z; col_a : Z }.

(** [sf::Color()]: opaque black. *)
Definition Color_default : Color := mkColor 0 0 0 255.

(** [sf::Color(r, g, b)]: alpha defaults to 255. *)
Definition Color_rgb (r g b : Z) : Color := mkColor r g b 255.

Inductive RenderingState : Type := Rendering | Completed | Displayed.

(** [p[i] = b] on an array of [sf::Uint8].  A store outside the array is
    undefined in C++; here it leaves the array as it is. *)
Definition store (buf : list Z) (i : Z) (b : Z) : list Z :=
  if i <? 0 then buf else <[Z.to_nat i := b]> buf.

(** [p[i]] read back. *)
Definition load (buf : list Z) (i : Z) : option Z :=
  if i <? 0 then None else buf !! Z.to_nat i.

Section RendererModel.

Context {T : Type} `{RM : RealMath T}.

Local Open Scope real_scope.

(** [static_cast<sf::Uint8>(d)] *)
Definition to_uint8 (d : T) : Z := (to_int d mod 256)%Z.

(** [hueToRGB(double h)], the [switch] version of MandelbrotRenderer.cpp. *)
Definition hueToRGB (h : T) : Color :=
  let x := to_uint8 (of_int 255
                     * (of_int 1 - rabs (rfmod (h / of_int 60) (of_int 2) - of_int 1))) in
  match Int.div (to_int h) 60 with
  | 0%Z => Color_rgb 255 x 0
  | 1%Z => Color_rgb x 255 0
  | 2%Z => Color_rgb 0 255 x
  | 3%Z => Color_rgb 0 x 255
  | 4%Z => Color_rgb x 0 255
  | 5%Z => Color_rgb 255 0 x
  | _ => Color_default
  end.

Definition THRESHOLD : T := of_int 16.

(** [const int MAX_ITERATIONS = 120 - (10 * static_cast<int>(m_renderingView.getZoom()));] *)
Definition MAX_ITERATIONS (v : View) : Z :=
  Int.sub 120 (Int.mul 10 (to_int (getZoom v))).

(** One pass of the loop body: [z = z^2 + z0]. *)
Definition mandelbrot_step (z0 z : Complex) : Complex :=
  mkVector2 (vx z * vx z - vy z * vy z + vx z0)
            (TWO * vx z * vy z + vy z0).

(** [z.x * z.x + z.y * z.y > THRESHOLD] *)
Definition escaped (z : Complex) : bool :=
  THRESHOLD <? vx z * vx z + vy z * vy z.

(** [for (int n = 0; n < MAX_ITERATIONS; n++) { ... }  return 1.0;]
    with [remaining] the number of passes left, [MAX_ITERATIONS - n]. *)
Fixpoint mandelbrot_loop (remaining : nat) (n MAX : Z) (z0 z : Complex) : T :=
  match remaining with
  | O => ONE
  | S remaining' =>
      let z' := mandelbrot_step z0 z in
      if escaped z' then of_int n / of_int MAX
      else mandelbrot_loop remaining' (Int.add n 1) MAX z0 z'
  end.

Definition mandelbrot (v : View) (z0 : Complex) : T :=
  let MAX := MAX_ITERATIONS v in
  mandelbrot_loop (Z.to_nat MAX) 0 MAX z0 z0.

(** The orbit of [z0]: its value after [k] passes of the loop body. *)
Fixpoint orbit (z0 : Complex) (k : nat) : Complex :=
  match k with
  | O => z0
  | S k' => mandelbrot_step z0 (orbit z0 k')
  end.

Record MandelbrotRenderer : Type := mkRenderer {
  m_width : Z;
  m_height : Z;
  m_renderingPixels : list Z;
  m_renderingView : @View T;
  m_renderingState : RenderingState
}.

(** The colour [render] computes for pixel [(x, y)]. *)
Definition pixelColour (v : View) (x y : Z) : Color :=
  let z := complexAtPixel v x y in
  let m := mandelbrot v z in
  if m <? of_int 1 then hueToRGB (of_int 360 * m) else Color_default.

(** Body of the inner loop: colour one pixel in the buffer. *)
Definition render_pixel (v : View) (width : Z) (y : Z) (buf : list Z) (x : Z)
  : list Z :=
  let c := pixelColour v x y in
  let currentPixel := Int.mul 4 (Int.add (Int.mul y width) x) in
  let buf0 := store buf currentPixel (col_r c) in
  let buf1 := store buf0 (currentPixel + 1) (col_g c) in
  let buf2 := store buf1 (currentPixel + 2) (col_b c) in
  store buf2 (currentPixel + 3) 255.

(** [for (int x = 0; x < m_width; ++x)] *)
Definition render_row (v : View) (width : Z) (buf : list Z) (y : Z) : list Z :=
  fold_left (render_pixel v width y) (seqZ 0 width) buf.

(** The rows of [#pragma omp parallel for], taken in the order [rows] in
    which the threads get to them; [cancelling y] is the value of
    [m_cancelling] read when row [y] starts.  [seqZ 0 m_height] is the
    sequential order. *)
Fixpoint render_rows (v : View) (width : Z) (cancelling : Z -> bool)
  (rows : list Z) (buf : list Z) : list Z :=
  match rows with
  | [] => buf
  | y :: rest =>
      if cancelling y then buf
      else render_rows v width cancelling rest (render_row v width buf y)
  end.

Definition render (rd : MandelbrotRenderer) (cancelling : Z -> bool)
  (rows : list Z) : MandelbrotRenderer :=
  mkRenderer (m_width rd) (m_height rd)
    (render_rows (m_renderingView rd) (m_width rd) cancelling rows
                 (m_renderingPixels rd))
    (m_renderingView rd) Completed.

End RendererModel.

(* ------------------------------------------------------------------ *)
(** ** Properties the specification talks about *)

(** A pixel within one pixel of [(x, y)] on both axes. *)
Definition within_one_pixel (p : Pixel) (x y : Z) : Prop :=
  Z.abs (vx p - x) <= 1 /\ Z.abs (vy p - y) <= 1.

(** Pixel -> plane -> pixel. *)
Definition round_trip {T : Type} `{RealOps T} (v : @View T) (x y : Z) : Pixel :=
  pixelAtComplex_z v (complexAtPixel v x y).

(** The arithmetic resolves the pixels of one axis of the screen, [size]
    pixels long and centred on the plane coordinate [c] of the view.  With
    [pitch = scale / screenHeight], the plane size of half a pixel: [pitch]
    and [1 / pitch] are normal numbers; nothing computed on the way is above
    [huge]; and the rounding error of a coordinate near [c], counted in
    pixels, together with that of a pixel number, stays below 1/32 of a
    pixel.  For [double] the last condition reads
    [|c| / pitch + size <= 2^48]. *)
Definition axis_resolved {T : Type} `{RoundedReal T} (v : @View T) (c : T)
  (size : Z) : Prop :=
  let s := val (m_scale v) in
  let Hh := IZR (vy (m_screenSize v)) in
  finite c
  /\ (tiny <= s / Hh)%R /\ (tiny <= Hh / s)%R
  /\ (Rabs (val c) + 4 * (s / Hh) * IZR size <= huge)%R
  /\ (Hh / s <= huge)%R /\ (3 * IZR size <= huge)%R
  /\ (32 * unit_roundoff * (Rabs (val c) * (Hh / s) + IZR size) <= 1)%R.

(** The state [View(-0.5, 0, -60, 800, 600)] of a [double] view: centre
    [-0.5 + 0i], zoom [-60], scale [2^-60], as [zoomTo(-60)] leaves it. *)
Definition deep_view : @View Binary64.double :=
  updateViewport
    (mkView true
       (SFldexp Binary64.prec Binary64.emax (of_int 1) (-60))
       (of_int (-60))
       (mkVector2 (literal (-1) 2) (of_int 0))
       (mkRect ZERO ZERO ZERO ZERO)
       (mkVector2 800 600)
       (of_int 800 / of_int 600)%re
       false (mkVector2 0 0) (mkVector2 0 0)
       (mkShape (mkVector2 ZERO ZERO) (mkVector2 ZERO ZERO))).

(** The initial state of the program's [double] view,
    [View(-0.5, 0.0, 1.0, 800, 600)], whose scale is [2^1]. *)
Definition initial_view_b64 : @View Binary64.double :=
  updateViewport
    (mkView true (of_int 2) (of_int 1)
       (mkVector2 (literal (-1) 2) (of_int 0))
       (mkRect ZERO ZERO ZERO ZERO)
       (mkVector2 800 600)
       (of_int 800 / of_int 600)%re
       false (mkVector2 0 0) (mkVector2 0 0)
       (mkShape (mkVector2 ZERO ZERO) (mkVector2 ZERO ZERO))).

(** The viewport the specification (and the comment [= centre +- scale] on
    [m_rect], and [setViewport], which reads [scale = 0.5 * height]) calls
    consistent with centre, scale and aspect ratio. *)
Definition consistent_viewport (v : @View R) : Prop :=
  m_rect v
  = mkRect (vx (m_centre v) - m_scale v * m_aspectRatio v)%R
           (vy (m_centre v) - m_scale v)%R
           (2 * m_scale v * m_aspectRatio v)%R
           (2 * m_scale v)%R.

(** The relation the header states between [m_scale] ([= 2^zoom]) and
    [m_zoom] ([= log2(scale)]). *)
Definition scale_is_pow2_zoom (v : @View R) : Prop :=
  m_scale v = Rpower 2 (m_zoom v).

(** Byte offset of pixel [(x, y)] in a buffer [width] pixels wide. *)
Definition pixel_offset (width x y : Z) : Z := 4 * (y * width + x).

(** The four bytes of pixel [(x, y)] hold the channels of [c], with alpha
    [0xFF]. *)
Definition pixel_stored (buf : list Z) (width : Z) (c : Color) (x y : Z) : Prop :=
  load buf (pixel_offset width x y) = Some (col_r c)
  /\ load buf (pixel_offset width x y + 1) = Some (col_g c)
  /\ load buf (pixel_offset width x y + 2) = Some (col_b c)
  /\ load buf (pixel_offset width x y + 3) = Some 255.

(** Pixel [(x, y)] of a buffer [width] pixels wide holds the colour [render]
    computes for it in view [v]. *)
Definition pixel_rendered {T : Type} `{RealMath T} (v : @View T) (width : Z)
  (buf : list Z) (x y : Z) : Prop :=
  pixel_stored buf width (pixelColour v x y) x y.

(** The buffer has the [4 * width * height] bytes of [m_bufferSizeBytes]. *)
Definition buffer_allocated (width height : Z) (buf : list Z) : Prop :=
  Z.of_nat (length buf) = 4 * width * height.

(* ------------------------------------------------------------------ *)
(** ** The other hue ramp, event handlers, the drawing loop *)

(** 32-bit unsigned arithmetic, for the [unsigned int] screen constants of
    Main.cpp. *)
Module UInt.

Definition wrap_uint (z : Z) : Z := z mod 2 ^ 32.
Definition add (a b : Z) : Z := wrap_uint (a + b).
Definition sub (a b : Z) : Z := wrap_uint (a - b).
Definition mul (a b : Z) : Z := wrap_uint (a * b).
Definition div (a b : Z) : Z := wrap_uint (a / b).

End UInt.

(** [const unsigned int SCREEN_W = 800u; const unsigned int SCREEN_H = 600u;] *)
Definition SCREEN_W : Z := 800.
Definition SCREEN_H : Z := 600.

(** [currentPixel[0] = c.r; ... currentPixel[3] = 0xFFu;] *)
Definition write_pixel (buf : list Z) (currentPixel : Z) (c : Color) : list Z :=
  store (store (store (store buf currentPixel (col_r c))
                      (currentPixel + 1) (col_g c))
               (currentPixel + 2) (col_b c))
        (currentPixel + 3) 255.

(** The byte stores of [renderPixels], in program order.  One pass of the
    inner loop makes four:
    [currentPixel[0] = c.r; currentPixel[1] = c.g; currentPixel[2] = c.b;
     currentPixel[3] = 0xFFu;]. *)
Definition pixel_stores (currentPixel : Z) (c : Color) : list (Z * Z) :=
  [(currentPixel, col_r c); (currentPixel + 1, col_g c);
   (currentPixel + 2, col_b c); (currentPixel + 3, 255)].

(** A sequence of stores carried out on the pixel array. *)
Definition apply_stores (ws : list (Z * Z)) (buf : list Z) : list Z :=
  fold_left (fun b w => store b (fst w) (snd w)) ws buf.

(** What the drawing thread asks of the texture, the sprite and the window. *)
Inductive DrawAction (T : Type) : Type :=
| UpdateTexture (pixels : list Z)
| SetSpritePosition (x y : T)
| SetSpriteScale (sx sy : T)
| ClearWindow
| DrawSprite
| DrawShape (position size : Vector2 T)
| Display
| CancelRendering
| LaunchRendering.
Arguments UpdateTexture {T} _.
Arguments SetSpritePosition {T} _ _.
Arguments SetSpriteScale {T} _ _.
Arguments ClearWindow {T}.
Arguments DrawSprite {T}.
Arguments DrawShape {T} _ _.
Arguments Display {T}.
Arguments CancelRendering {T}.
Arguments LaunchRendering {T}.

(** The keys [handleKeys] tells apart, and the mouse buttons. *)
Inductive Key : Type :=
| Key_Left | Key_A | Key_Right | Key_D | Key_Up | Key_W | Key_Down | Key_S
| Key_R | Key_other.

Inductive Button : Type := Mouse_Left | Mouse_Right | Mouse_other.

Section FurtherModel.

Context {T : Type} `{RM : RealMath T}.

Local Open Scope real_scope.

(** *** The [if]-chain version of [hueToRGB] (Main.cpp and the first
    MandelbrotRenderer.cpp) *)
Definition hueToRGB_chain (h : T) : Color :=
  let x := to_uint8 (of_int 255
                     * (of_int 1 - rabs (rfmod (h / of_int 60) (of_int 2) - of_int 1))) in
  if h <? of_int 60 then Color_rgb 255 x 0
  else if h <? of_int 120 then Color_rgb x 255 0
  else if h <? of_int 180 then Color_rgb 0 255 x
  else if h <? of_int 240 then Color_rgb 0 x 255
  else if h <? of_int 300 then Color_rgb x 0 255
  else if h <? of_int 360 then Color_rgb 255 0 x
  else Color_default.

(** *** [renderPixels] of Main.cpp: one tile, walked with a moving pointer *)

(** The colour Main.cpp computes for a pixel: the same evaluator, the
    [if]-chain hue ramp. *)
Definition pixelColour_chain (v : @View T) (x y : Z) : Color :=
  let z := complexAtPixel v x y in
  let m := mandelbrot v z in
  if m <? of_int 1 then hueToRGB_chain (of_int 360 * m) else Color_default.

(** [for (int x = rect.left; x < rect.left + rect.width; x++, currentPixel += toNextCol)],
    with [n] passes left; returns the pointer where the row ends. *)
Fixpoint renderPixels_row (v : @View T) (y : Z) (n : nat) (x : Z)
  (currentPixel : Z) (buf : list Z) : Z * list Z :=
  match n with
  | O => (currentPixel, buf)
  | S n' =>
      renderPixels_row v y n' (Int.add x 1) (currentPixel + 4)
        (write_pixel buf currentPixel (pixelColour_chain v x y))
  end.

(** [for (int y = rect.top; y < rect.top + rect.height; y++, currentPixel += toNextRow)] *)
Fixpoint renderPixels_rows (v : @View T) (rect : Rect Z) (toNextRow : Z)
  (n : nat) (y : Z) (currentPixel : Z) (buf : list Z) : list Z :=
  match n with
  | O => buf
  | S n' =>
      let '(p, buf') :=
        renderPixels_row v y (Z.to_nat (rect_width rect)) (rect_left rect)
          currentPixel buf in
      renderPixels_rows v rect toNextRow n' (Int.add y 1) (p + toNextRow) buf'
  end.

(** [renderPixels(pixels, rect, completedPtr)]; pointers into [pixels] are
    byte offsets, and [completedPtr] is the counter it points to, if any. *)
Definition renderPixels (v : @View T) (buf : list Z) (rect : Rect Z)
  (completedPtr : option Z) : list Z * option Z :=
  let toNextCol := 4 in
  let toNextRow :=
    Int.wrap_int (UInt.mul toNextCol (UInt.sub SCREEN_W (UInt.wrap_uint (rect_width rect)))) in
  let currentPixel :=
    UInt.mul toNextCol
      (UInt.add (UInt.mul (UInt.wrap_uint (rect_top rect)) SCREEN_W)
                (UInt.wrap_uint (rect_left rect))) in
  (renderPixels_rows v rect toNextRow (Z.to_nat (rect_height rect))
     (rect_top rect) currentPixel buf,
   match completedPtr with
   | Some c => Some (Int.add c 1)
   | None => None
   end).

(** The sixteen tiles [draw] of Main.cpp hands to its rendering threads, in
    the order of [renderingThreads], for a window of size [SCREEN_SIZE]. *)
Definition PIXEL_DIVISION : Z := 4.

Definition tile_rect (SCREEN_SIZE : Vector2 Z) (i j : Z) : Rect Z :=
  let SUB_RENDER_W := Int.wrap_int (UInt.div (vx SCREEN_SIZE) PIXEL_DIVISION) in
  let SUB_RENDER_H := Int.wrap_int (UInt.div (vy SCREEN_SIZE) PIXEL_DIVISION) in
  mkRect (Int.mul SUB_RENDER_W i) (Int.mul SUB_RENDER_H j) SUB_RENDER_W SUB_RENDER_H.

Definition tile_rects (SCREEN_SIZE : Vector2 Z) : list (Rect Z) :=
  i ← seqZ 0 PIXEL_DIVISION;
  j ← seqZ 0 PIXEL_DIVISION;
  [tile_rect SCREEN_SIZE i j].

(** The threads of Main.cpp, each run to its end, finishing in the order
    [rects]; [completedThreads] counts them. *)
Definition run_tiles (v : @View T) (rects : list (Rect Z))
  (st : list Z * option Z) : list Z * option Z :=
  fold_left (fun s rect => renderPixels v (fst s) rect (snd s)) rects st.

(** The stores of the inner loop of [renderPixels] and the pointer where the
    row ends. *)
Fixpoint renderPixels_row_stores (v : @View T) (y : Z) (n : nat) (x : Z)
  (currentPixel : Z) : Z * list (Z * Z) :=
  match n with
  | O => (currentPixel, [])
  | S n' =>
      let '(p, ws) :=
        renderPixels_row_stores v y n' (Int.add x 1) (currentPixel + 4) in
      (p, pixel_stores currentPixel (pixelColour_chain v x y) ++ ws)
  end.

(** The stores of the outer loop of [renderPixels]. *)
Fixpoint renderPixels_rows_stores (v : @View T) (rect : Rect Z) (toNextRow : Z)
  (n : nat) (y : Z) (currentPixel : Z) : list (Z * Z) :=
  match n with
  | O => []
  | S n' =>
      let '(p, ws) :=
        renderPixels_row_stores v y (Z.to_nat (rect_width rect)) (rect_left rect)
          currentPixel in
      ws ++ renderPixels_rows_stores v rect toNextRow n' (Int.add y 1) (p + toNextRow)
  end.

(** All the stores one call [renderPixels(pixels, rect, ...)] makes into
    [pixels]. *)
Definition renderPixels_stores (v : @View T) (rect : Rect Z) : list (Z * Z) :=
  let toNextCol := 4 in
  let toNextRow :=
    Int.wrap_int (UInt.mul toNextCol (UInt.sub SCREEN_W (UInt.wrap_uint (rect_width rect)))) in
  let currentPixel :=
    UInt.mul toNextCol
      (UInt.add (UInt.mul (UInt.wrap_uint (rect_top rect)) SCREEN_W)
                (UInt.wrap_uint (rect_left rect))) in
  renderPixels_rows_stores v rect toNextRow (Z.to_nat (rect_height rect))
    (rect_top rect) currentPixel.

(** *** Event handlers of MandelbrotRenderer.cpp *)

Definition MOVEMENT_AMOUNT : T := literal 1 4.

Definition handleKeys (v : @View T) (code : Key) : @View T :=
  match code with
  | Key_Left | Key_A => moveBy v (- MOVEMENT_AMOUNT) (of_int 0)
  | Key_Right | Key_D => moveBy v MOVEMENT_AMOUNT (of_int 0)
  | Key_Up | Key_W => moveBy v (of_int 0) (- MOVEMENT_AMOUNT)
  | Key_Down | Key_S => moveBy v (of_int 0) MOVEMENT_AMOUNT
  | Key_R => zoomTo (moveTo v (- literal 1 2) (of_int 0)) (of_int 1)
  | Key_other => v
  end.

Definition handleMousePressed (v : @View T) (button : Button) (x y : Z) : @View T :=
  match button with
  | Mouse_Left => zoomBoxBegin v x y
  | Mouse_Right => zoomBoxCancel v
  | Mouse_other => v
  end.

Definition handleMouseMoved (v : @View T) (x y : Z) : @View T :=
  zoomBoxContinue v x y.

Definition handleMouseReleased (v : @View T) (button : Button) (x y : Z) : @View T :=
  match button with
  | Mouse_Left => zoomBoxEnd v x y
  | _ => v
  end.

(** [static const double ZOOM_AMOUNT = -1;
     m_renderingView.zoomBy(event.mouseWheelScroll.delta * ZOOM_AMOUNT);] *)
Definition handleMouseWheel (v : @View T) (delta : T) : @View T :=
  zoomBy v (delta * of_int (-1)).

(** *** The drawing thread of MandelbrotRenderer.cpp *)

(** The members [draw] uses beside those of the rendering thread. *)
Record DrawState : Type := mkDrawState {
  ds_renderer : @MandelbrotRenderer T;
  m_bufferSizeBytes : Z;
  m_completedPixels : list Z;
  m_completedView : @View T
}.

(** [detailedDraw()] *)
Definition detailedDraw (s : DrawState) : list (DrawAction T) :=
  [UpdateTexture (m_renderingPixels (ds_renderer s));
   SetSpritePosition (of_int 0) (of_int 0);
   SetSpriteScale (of_int 1) (of_int 1);
   DrawSprite].

(** Where and how large [roughDraw] puts the last completed image. *)
Definition roughPosition (s : DrawState) : Pixel :=
  pixelAtComplex (m_renderingView (ds_renderer s))
    (rect_left (getViewport (m_completedView s)))
    (rect_top (getViewport (m_completedView s))).

Definition roughScale (s : DrawState) : T :=
  getScale (m_completedView s) / getScale (m_renderingView (ds_renderer s)).

(** [roughDraw()] *)
Definition roughDraw (s : DrawState) : list (DrawAction T) :=
  [UpdateTexture (m_completedPixels s);
   SetSpritePosition (of_int (vx (roughPosition s))) (of_int (vy (roughPosition s)));
   SetSpriteScale (roughScale s) (roughScale s);
   ClearWindow;
   DrawSprite].

(** [for (int i = 0; i < m_bufferSizeBytes; ++i) m_renderingPixels[i] = 0;] *)
Definition clear_pixels (n : Z) (buf : list Z) : list Z :=
  fold_left (fun b i => store b i 0) (seqZ 0 n) buf.

(** [for (int i = 0; i < m_bufferSizeBytes; ++i)
       m_completedPixels[i] = m_renderingPixels[i];] *)
Definition copy_pixels (n : Z) (src dst : list Z) : list Z :=
  fold_left (fun d i => match load src i with
                        | Some b => store d i b
                        | None => d
                        end) (seqZ 0 n) dst.

Definition set_renderingView (rd : @MandelbrotRenderer T) (v : @View T)
  : @MandelbrotRenderer T :=
  mkRenderer (m_width rd) (m_height rd) (m_renderingPixels rd) v
    (m_renderingState rd).

Definition set_renderingState (rd : @MandelbrotRenderer T) (st : RenderingState)
  : @MandelbrotRenderer T :=
  mkRenderer (m_width rd) (m_height rd) (m_renderingPixels rd)
    (m_renderingView rd) st.

Definition set_renderingPixels (rd : @MandelbrotRenderer T) (buf : list Z)
  : @MandelbrotRenderer T :=
  mkRenderer (m_width rd) (m_height rd) buf (m_renderingView rd)
    (m_renderingState rd).

Definition RenderingState_eqb (a b : RenderingState) : bool :=
  match a, b with
  | Rendering, Rendering | Completed, Completed | Displayed, Displayed => true
  | _, _ => false
  end.

(** The [if (m_renderingView.isDirty()) { ... }] block of the drawing loop:
    the rendering thread is cancelled and waited for, the rough image is
    shown, the rendering buffer is made transparent and the thread is
    launched again. *)
Definition draw_restart (s : DrawState) : DrawState * list (DrawAction T) :=
  if isDirty (m_renderingView (ds_renderer s)) then
    let rd1 := set_renderingView (ds_renderer s)
                 (set_dirty (m_renderingView (ds_renderer s)) false) in
    let s1 := mkDrawState rd1 (m_bufferSizeBytes s) (m_completedPixels s)
                (m_completedView s) in
    let rd2 := set_renderingPixels rd1
                 (clear_pixels (m_bufferSizeBytes s1) (m_renderingPixels rd1)) in
    let rd3 := set_renderingState rd2 Rendering in
    (mkDrawState rd3 (m_bufferSizeBytes s1) (m_completedPixels s1) (m_completedView s1),
     [CancelRendering] ++ roughDraw s1 ++ [Display; ClearWindow; DrawSprite; Display]
     ++ [LaunchRendering])
  else (s, []).

(** The rest of one pass of the drawing loop. *)
Definition draw_present (s : DrawState) : DrawState * list (DrawAction T) :=
  let state := m_renderingState (ds_renderer s) in
  let boxShown := getZoomBoxIsShown (m_renderingView (ds_renderer s)) in
  let a1 := if RenderingState_eqb state Rendering || boxShown
            then roughDraw s else [] in
  let a2 := if negb (RenderingState_eqb state Displayed)
            then detailedDraw s else [] in
  let s' :=
    if RenderingState_eqb state Completed then
      mkDrawState (set_renderingState (ds_renderer s) Displayed)
        (m_bufferSizeBytes s)
        (copy_pixels (m_bufferSizeBytes s) (m_renderingPixels (ds_renderer s))
                     (m_completedPixels s))
        (m_renderingView (ds_renderer s))
    else s in
  let a3 := if boxShown
            then [DrawShape
                    (shape_position (getZoomBoxShape (m_renderingView (ds_renderer s))))
                    (shape_size (getZoomBoxShape (m_renderingView (ds_renderer s))))]
            else [] in
  let shouldDisplay :=
    (RenderingState_eqb state Rendering || boxShown)
    || negb (RenderingState_eqb state Displayed)
    || boxShown in
  (s', a1 ++ a2 ++ a3 ++ (if shouldDisplay then [Display] else [])).

(** One pass of the body of [while (m_window.isOpen() && !m_resizing)],
    taken as one step: what the rendering thread writes falls between two
    passes. *)
Definition draw_pass (s : DrawState) : DrawState * list (DrawAction T) :=
  let '(s1, a1) := draw_restart s in
  let '(s2, a2) := draw_present s1 in
  (s2, a1 ++ a2).

(** The rendering thread launched by a pass runs [render] to its end. *)
Definition render_thread (s : DrawState) (cancelling : Z -> bool) (rows : list Z)
  : DrawState :=
  mkDrawState (render (ds_renderer s) cancelling rows) (m_bufferSizeBytes s)
    (m_completedPixels s) (m_completedView s).

(** *** The first MandelbrotRenderer.cpp: a counter [m_completedThreads]
    where the later one has [m_renderingState] *)

Record Renderer0 : Type := mkRenderer0 {
  m_width0 : Z;
  m_height0 : Z;
  m_bufferSizeBytes0 : Z;
  m_renderingPixels0 : list Z;
  m_completedPixels0 : list Z;
  m_renderingView0 : @View T;
  m_completedView0 : @View T;
  m_completedThreads : Z
}.

Definition RENDER_CONTINUOUSLY : bool := true.
Definition ALREADY_DISPLAYED : Z := -1.

(** Body of the inner loop of the first [render]: the [if]-chain hue ramp. *)
Definition render_pixel0 (v : @View T) (width : Z) (y : Z) (buf : list Z) (x : Z)
  : list Z :=
  let c := pixelColour_chain v x y in
  let currentPixel := Int.mul 4 (Int.add (Int.mul y width) x) in
  let buf0 := store buf currentPixel (col_r c) in
  let buf1 := store buf0 (currentPixel + 1) (col_g c) in
  let buf2 := store buf1 (currentPixel + 2) (col_b c) in
  store buf2 (currentPixel + 3) 255.

Definition render_row0 (v : @View T) (width : Z) (buf : list Z) (y : Z) : list Z :=
  fold_left (render_pixel0 v width y) (seqZ 0 width) buf.

Fixpoint render_rows0 (v : @View T) (width : Z) (cancelling : Z -> bool)
  (rows : list Z) (buf : list Z) : list Z :=
  match rows with
  | [] => buf
  | y :: rest =>
      if cancelling y then buf
      else render_rows0 v width cancelling rest (render_row0 v width buf y)
  end.

(** The first [render()]: it ends with [++m_completedThreads;]. *)
Definition render0 (o : Renderer0) (cancelling : Z -> bool) (rows : list Z)
  : Renderer0 :=
  mkRenderer0 (m_width0 o) (m_height0 o) (m_bufferSizeBytes0 o)
    (render_rows0 (m_renderingView0 o) (m_width0 o) cancelling rows
                  (m_renderingPixels0 o))
    (m_completedPixels0 o) (m_renderingView0 o) (m_completedView0 o)
    (Int.add (m_completedThreads o) 1).

Definition detailedDraw0 (o : Renderer0) : list (DrawAction T) :=
  [UpdateTexture (m_renderingPixels0 o);
   SetSpritePosition (of_int 0) (of_int 0);
   SetSpriteScale (of_int 1) (of_int 1);
   DrawSprite].

Definition roughDraw0 (o : Renderer0) : list (DrawAction T) :=
  let roughPosition :=
    pixelAtComplex (m_renderingView0 o)
      (rect_left (getViewport (m_completedView0 o)))
      (rect_top (getViewport (m_completedView0 o))) in
  let roughScale := getScale (m_completedView0 o) / getScale (m_renderingView0 o) in
  [UpdateTexture (m_completedPixels0 o);
   SetSpritePosition (of_int (vx roughPosition)) (of_int (vy roughPosition));
   SetSpriteScale roughScale roughScale;
   ClearWindow;
   DrawSprite].

(** The [if (m_renderingView.isDirty()) { ... }] block of the first drawing
    loop. *)
Definition draw_restart0 (o : Renderer0) : Renderer0 * list (DrawAction T) :=
  if isDirty (m_renderingView0 o) then
    let o1 := mkRenderer0 (m_width0 o) (m_height0 o) (m_bufferSizeBytes0 o)
                (m_renderingPixels0 o) (m_completedPixels0 o)
                (set_dirty (m_renderingView0 o) false) (m_completedView0 o)
                0 in
    let pixels :=
      if RENDER_CONTINUOUSLY
      then clear_pixels (m_bufferSizeBytes0 o1) (m_renderingPixels0 o1)
      else m_renderingPixels0 o1 in
    (mkRenderer0 (m_width0 o1) (m_height0 o1) (m_bufferSizeBytes0 o1)
       pixels (m_completedPixels0 o1) (m_renderingView0 o1) (m_completedView0 o1)
       (m_completedThreads o1),
     [CancelRendering] ++ roughDraw0 o1 ++ [Display; ClearWindow; DrawSprite; Display]
     ++ [LaunchRendering])
  else (o, []).

(** The rest of one pass of the first drawing loop: the rough image and the
    frame are drawn on every pass. *)
Definition draw_present0 (o : Renderer0) : Renderer0 * list (DrawAction T) :=
  let a1 := roughDraw0 o in
  let '(o', a2) :=
    if m_completedThreads o =? 1 then
      (mkRenderer0 (m_width0 o) (m_height0 o) (m_bufferSizeBytes0 o)
         (m_renderingPixels0 o)
         (copy_pixels (m_bufferSizeBytes0 o) (m_renderingPixels0 o)
                      (m_completedPixels0 o))
         (m_renderingView0 o) (m_renderingView0 o)
         ALREADY_DISPLAYED,
       detailedDraw0 o)
    else if RENDER_CONTINUOUSLY && negb (m_completedThreads o =? ALREADY_DISPLAYED)
    then (o, detailedDraw0 o)
    else (o, []) in
  let a3 := if getZoomBoxIsShown (m_renderingView0 o)
            then [DrawShape
                    (shape_position (getZoomBoxShape (m_renderingView0 o)))
                    (shape_size (getZoomBoxShape (m_renderingView0 o)))]
            else [] in
  (o', a1 ++ a2 ++ a3 ++ [Display]).

(** One pass of the body of the first [while (m_window.isOpen())], taken as
    one step like [draw_pass]. *)
Definition draw_pass0 (o : Renderer0) : Renderer0 * list (DrawAction T) :=
  let '(o1, a1) := draw_restart0 o in
  let '(o2, a2) := draw_present0 o1 in
  (o2, a1 ++ a2).

(** The counter of the first version read as the state of the later one. *)
Definition counter_state (c : Z) (st : RenderingState) : Prop :=
  match st with
  | Rendering => c = 0
  | Completed => c = 1
  | Displayed => c = ALREADY_DISPLAYED
  end.

(** The two versions hold the same buffers and views, and the counter of the
    first stands for the state of the later. *)
Definition same_frame (o : Renderer0) (s : DrawState) : Prop :=
  m_width0 o = m_width (ds_renderer s)
  /\ m_height0 o = m_height (ds_renderer s)
  /\ m_bufferSizeBytes0 o = m_bufferSizeBytes s
  /\ m_renderingPixels0 o = m_renderingPixels (ds_renderer s)
  /\ m_completedPixels0 o = m_completedPixels s
  /\ m_renderingView0 o = m_renderingView (ds_renderer s)
  /\ m_completedView0 o = m_completedView s
  /\ counter_state (m_completedThreads o) (m_renderingState (ds_renderer s)).

End FurtherModel.

(** A view as the constructor and the mutators other than [setViewport]
    leave it: a real screen, the aspect ratio of that screen, and the
    viewport [updateViewport] stores for the current centre and scale. *)
Definition view_wf (v : @View R) : Prop :=
  0 < vx (m_screenSize v) <= Int.INT_MAX
  /\ 0 < vy (m_screenSize v) <= Int.INT_MAX
  /\ m_aspectRatio v = (IZR (vx (m_screenSize v)) / IZR (vy (m_screenSize v)))%R
  /\ m_rect v = m_rect (updateViewport v).

(** A tile that lies on the 800x600 pixel array of Main.cpp, and the pixels
    of a tile. *)
Definition rect_on_screen (rect : Rect Z) : Prop :=
  0 <= rect_left rect /\ 0 <= rect_top rect
  /\ 0 <= rect_width rect /\ 0 <= rect_height rect
  /\ rect_left rect + rect_width rect <= SCREEN_W
  /\ rect_top rect + rect_height rect <= SCREEN_H.

Definition in_rect (rect : Rect Z) (x y : Z) : Prop :=
  rect_left rect <= x < rect_left rect + rect_width rect
  /\ rect_top rect <= y < rect_top rect + rect_height rect.

(** Pixel [(x, y)] of the pixel array of Main.cpp holds the colour
    [renderPixels] computes for it. *)
Definition chain_rendered {T : Type} `{RealMath T} (v : @View T)
  (buf : list Z) (x y : Z) : Prop :=
  pixel_stored buf SCREEN_W (pixelColour_chain v x y) x y.

(** Byte [k] of a pixel of colour [c] in the pixel array: red, green, blue,
    then the opaque alpha. *)
Definition channel (c : Color) (k : Z) : Z :=
  if k =? 0 then col_r c
  else if k =? 1 then col_g c
  else if k =? 2 then col_b c
  else 255.

(** A store that puts into a byte of a pixel of the 800x600 array the value
    [renderPixels] computes for it. *)
Definition tile_store {T : Type} `{RealMath T} (v : @View T) (w : Z * Z) : Prop :=
  exists x y k,
    (0 <= x < SCREEN_W /\ 0 <= y < SCREEN_H) /\ 0 <= k < 4
    /\ fst w = pixel_offset SCREEN_W x y + k
    /\ snd w = channel (pixelColour_chain v x y) k.

(* ================================================================== *)
(** * Proofs *)

(** ** Evaluation on the program's initial [double] view *)

Example MAX_ITERATIONS_initial : MAX_ITERATIONS initial_view_b64 = 110.
Proof. vm_compute. reflexivity. Qed.

(** The screen centre maps to the view centre, and back. *)
Example complexAtPixel_initial_centre :
  complexAtPixel initial_view_b64 400 300 = m_centre initial_view_b64.
Proof. vm_compute. reflexivity. Qed.

Example pixelAtComplex_initial_centre :
  pixelAtComplex_z initial_view_b64 (m_centre initial_view_b64) = mkVector2 400 300.
Proof. vm_compute. reflexivity. Qed.

(** The origin never escapes; [2 + 2i] escapes on the first pass. *)
Example mandelbrot_initial_origin :
  mandelbrot initial_view_b64 (mkVector2 (of_int 0) (of_int 0)) = of_int 1.
Proof. vm_compute. reflexivity. Qed.

Example mandelbrot_initial_escape :
  mandelbrot initial_view_b64 (mkVector2 (of_int 2) (of_int 2)) = of_int 0.
Proof. vm_compute. reflexivity. Qed.

(** [-1 + 0i] is in the set; [1 + 0i] is past the threshold on the second
    pass, [n = 1]. *)
Example mandelbrot_initial_inside :
  mandelbrot initial_view_b64 (mkVector2 (of_int (-1)) (of_int 0)) = of_int 1.
Proof. vm_compute. reflexivity. Qed.

Example mandelbrot_initial_outside :
  mandelbrot initial_view_b64 (mkVector2 (of_int 1) (of_int 0)) = literal 1 110.
Proof. vm_compute. reflexivity. Qed.

(** ** Integer layer *)

Lemma wrap_int_fits (z : Z) : Int.fits z -> Int.wrap_int z = z.
Proof.
  unfold Int.fits, Int.wrap_int, Int.INT_MIN, Int.INT_MAX.
  intros Hz. rewrite Z.mod_small; lia.
Qed.

Lemma wrap_int_is_int (z : Z) : Int.fits (Int.wrap_int z).
Proof.
  unfold Int.fits, Int.wrap_int, Int.INT_MIN, Int.INT_MAX.
  pose proof (Z.mod_pos_bound (z + 2 ^ 31) (2 ^ 32) ltac:(lia)). lia.
Qed.

Lemma wrap_int_sub_l (a b : Z) :
  Int.wrap_int (Int.wrap_int a - b) = Int.wrap_int (a - b).
Proof.
  unfold Int.wrap_int. f_equal.
  replace (((a + 2 ^ 31) mod 2 ^ 32 - 2 ^ 31 - b) + 2 ^ 31)
    with ((a + 2 ^ 31) mod 2 ^ 32 - b) by ring.
  rewrite Zminus_mod_idemp_l. f_equal. ring.
Qed.

Lemma fitsb_fits (z : Z) : Int.fitsb z = true <-> Int.fits z.
Proof. unfold Int.fitsb, Int.fits. lia. Qed.

(** Twice a screen coordinate minus the screen size, in [int] arithmetic. *)
Lemma int_twice_minus (x W : Z) :
  0 <= x < W -> W <= Int.INT_MAX ->
  Int.sub (Int.mul 2 x) W = 2 * x - W.
Proof.
  intros Hx HW. unfold Int.sub, Int.mul.
  rewrite wrap_int_sub_l. apply wrap_int_fits.
  unfold Int.fits, Int.INT_MIN, Int.INT_MAX in *. lia.
Qed.

(** ** Exact reals: conversions *)

Lemma truncR_IZR (z : Z) : ExactReal.truncR (IZR z) = z.
Proof.
  unfold ExactReal.truncR. destruct (Rle_dec 0 (IZR z)) as [Hz | Hz].
  - symmetry. apply Int_part_spec. lra.
  - rewrite <- opp_IZR.
    rewrite <- (Int_part_spec (IZR (- z)) (- z)); [lia | lra].
Qed.

Lemma R_to_int_IZR (z : Z) : Int.fits z -> ExactReal.R_to_int (IZR z) = z.
Proof.
  intros Hz. unfold ExactReal.R_to_int. rewrite truncR_IZR.
  apply fitsb_fits in Hz. now rewrite Hz.
Qed.

(** Truncation of a real lying between two consecutive integers. *)
Lemma truncR_nonneg (r : R) (z : Z) :
  (0 <= r)%R -> (IZR z <= r < IZR z + 1)%R -> ExactReal.truncR r = z.
Proof.
  intros H0 Hr. unfold ExactReal.truncR.
  destruct (Rle_dec 0 r) as [_ | Hn]; [| contradiction].
  symmetry. apply Int_part_spec. lra.
Qed.

Lemma truncR_nonpos (r : R) (z : Z) :
  (r <= 0)%R -> (IZR z - 1 < r <= IZR z)%R -> ExactReal.truncR r = z.
Proof.
  intros H0 Hr. unfold ExactReal.truncR.
  destruct (Rle_dec 0 r) as [Hp | Hn].
  - symmetry. apply Int_part_spec.
    assert (Hz : (0 <= z < 1)%Z).
    { split; [apply le_IZR | apply lt_IZR]; lra. }
    assert (z = 0) as -> by lia. lra.
  - rewrite <- (Int_part_spec (- r) (- z)); [lia |].
    rewrite opp_IZR. lra.
Qed.

(** ** Pixel -> plane -> pixel *)

(** One axis of the round trip, in exact arithmetic: the plane coordinate of
    pixel coordinate [x] maps back to [x]. *)
Lemma axis_round_trip (c s : R) (x W H : Z) :
  (s <> 0)%R -> H <> 0 -> Int.fits x ->
  ExactReal.R_to_int
    (1 / 2 * ((c + s / IZR H * IZR (2 * x - W) - c) * (IZR H / s) + IZR W))
  = x.
Proof.
  intros Hs HH Hx.
  assert (HH' : IZR H <> 0%R) by (apply not_0_IZR; exact HH).
  replace (1 / 2 * ((c + s / IZR H * IZR (2 * x - W) - c) * (IZR H / s) + IZR W))%R
    with (IZR x).
  - apply R_to_int_IZR; exact Hx.
  - rewrite minus_IZR, mult_IZR. field. split; assumption.
Qed.

(** In exact arithmetic [pixelAtComplex] undoes [complexAtPixel] exactly, for
    every view with positive screen dimensions and positive scale and every
    pixel inside the screen. *)
Lemma round_trip_exact (v : @View R) (x y : Z) :
  0 < vx (m_screenSize v) <= Int.INT_MAX ->
  0 < vy (m_screenSize v) <= Int.INT_MAX ->
  (0 < m_scale v)%R ->
  0 <= x < vx (m_screenSize v) ->
  0 <= y < vy (m_screenSize v) ->
  round_trip v x y = mkVector2 x y
  /\ within_one_pixel (round_trip v x y) x y.
Proof.
  intros HW HH Hs Hx Hy.
  assert (E : round_trip v x y = mkVector2 x y).
  { unfold round_trip, pixelAtComplex_z, pixelAtComplex, complexAtPixel.
    cbn [vx vy]. unfold HALF, literal. cbn [radd rsub rmul rdiv of_int to_int R_Real].
    rewrite !int_twice_minus by lia.
    f_equal; apply axis_round_trip;
      try lra; try lia; unfold Int.fits, Int.INT_MIN, Int.INT_MAX in *; lia. }
  split; [exact E |].
  rewrite E. unfold within_one_pixel. cbn [vx vy]. lia.
Qed.

(** C1 (as stated) fails for [double]: at zoom [-60] around [-0.5] the
    pixel pitch [scale / 600] is below the spacing of doubles near [-0.5], so
    [complexAtPixel(0, 0)] rounds to the centre's real part and the trip
    comes back to column 400 instead of column 0. *)
Lemma round_trip_b64_deep_zoom :
  0 < vx (m_screenSize deep_view) /\ 0 < vy (m_screenSize deep_view)
  /\ (ZERO <? m_scale deep_view)%re = true
  /\ vx (complexAtPixel deep_view 0 0) = vx (m_centre deep_view)
  /\ round_trip deep_view 0 0 = mkVector2 400 0
  /\ ~ within_one_pixel (round_trip deep_view 0 0) 0 0.
Proof.
  assert (E : round_trip deep_view 0 0 = mkVector2 400 0) by (vm_compute; reflexivity).
  repeat split; try (vm_compute; reflexivity); try exact E.
  rewrite E. unfold within_one_pixel. cbn [vx vy]. lia.
Qed.

(** The two axes of the round trip are independent. *)
Lemma round_trip_axes {T : Type} `{RealOps T} (v : @View T) (x y : Z) :
  vx (round_trip v x y) = vx (round_trip v x 0)
  /\ vy (round_trip v x y) = vy (round_trip v 0 y).
Proof. split; reflexivity. Qed.

(** For comparison, on the program's initial [double] view every pixel of
    the 800x600 screen comes back within one pixel, and column 3 is one of
    those that come back one pixel short. *)
Lemma round_trip_b64_initial_view :
  (forall x y, 0 <= x < 800 -> 0 <= y < 600 ->
               within_one_pixel (round_trip initial_view_b64 x y) x y)
  /\ round_trip initial_view_b64 3 0 = mkVector2 2 0.
Proof.
  assert (Hcols : forallb (fun x => Z.abs (vx (round_trip initial_view_b64 x 0) - x) <=? 1)
                    (seqZ 0 800) = true) by (vm_compute; reflexivity).
  assert (Hrows : forallb (fun y => Z.abs (vy (round_trip initial_view_b64 0 y) - y) <=? 1)
                    (seqZ 0 600) = true) by (vm_compute; reflexivity).
  rewrite forallb_forall in Hcols, Hrows.
  split; [| vm_compute; reflexivity].
  intros x y Hx Hy. unfold within_one_pixel.
  destruct (round_trip_axes initial_view_b64 x y) as [-> ->].
  split; apply Z.leb_le.
  - apply Hcols. apply list_elem_of_In, elem_of_seqZ. lia.
  - apply Hrows. apply list_elem_of_In, elem_of_seqZ. lia.
Qed.

(** ** Mutators: what they leave in the view *)

Section MutatorFacts.

Context {T : Type} `{RM : RealMath T}.

Local Open Scope real_scope.

(** [updateViewport] only writes [m_rect], and writes the rectangle whose
    position is [centre - (scale * aspect, scale)] and whose SIZE is
    [(scale * aspect, scale)]. *)
Lemma updateViewport_rect (v : @View T) :
  m_rect (updateViewport v)
  = mkRect (vx (m_centre v) - m_scale v * m_aspectRatio v)
           (vy (m_centre v) - m_scale v)
           (m_scale v * m_aspectRatio v)
           (m_scale v).
Proof. reflexivity. Qed.

Lemma zoomBoxContinue_navigation (v : @View T) (x y : Z) :
  let v' := zoomBoxContinue v x y in
  m_dirty v' = m_dirty v /\ m_scale v' = m_scale v /\ m_zoom v' = m_zoom v
  /\ m_centre v' = m_centre v /\ m_rect v' = m_rect v
  /\ m_screenSize v' = m_screenSize v /\ m_aspectRatio v' = m_aspectRatio v
  /\ m_zoomBoxStartCorner v' = m_zoomBoxStartCorner v.
Proof.
  unfold zoomBoxContinue. destruct (m_zoomBoxIsShown v); [| now repeat split].
  destruct (zoomBoxExtent v x y) as [w h]. cbn. now repeat split.
Qed.

(** Every mutator that goes through [updateViewport] returns with the dirty
    flag set. *)
Lemma mutators_set_dirty (v : @View T) :
  (forall x y, m_dirty (moveTo v x y) = true)
  /\ (forall p, m_dirty (moveTo_z v p) = true)
  /\ (forall dx dy, m_dirty (moveBy v dx dy) = true)
  /\ (forall d, m_dirty (moveBy_z v d) = true)
  /\ (forall z, m_dirty (zoomTo v z) = true)
  /\ (forall dz, m_dirty (zoomBy v dz) = true)
  /\ (forall s, m_dirty (setScale v s) = true)
  /\ (forall r, m_dirty (setViewport v r) = true)
  /\ (forall w h, m_dirty (resizeScreen v w h) = true).
Proof. repeat split. Qed.

(** What each of them leaves in [m_rect]: position
    [centre - (scale * aspect, scale)], size [(scale * aspect, scale)], for
    the new centre, scale and aspect ratio; [setViewport] stores its
    argument. *)
Lemma mutators_viewport (v : @View T) :
  (forall x y, m_rect (moveTo v x y) = m_rect (updateViewport (moveTo v x y)))
  /\ (forall dx dy, m_rect (moveBy v dx dy) = m_rect (updateViewport (moveBy v dx dy)))
  /\ (forall z, m_rect (zoomTo v z) = m_rect (updateViewport (zoomTo v z)))
  /\ (forall dz, m_rect (zoomBy v dz) = m_rect (updateViewport (zoomBy v dz)))
  /\ (forall s, m_rect (setScale v s) = m_rect (updateViewport (setScale v s)))
  /\ (forall w h, m_rect (resizeScreen v w h)
                  = m_rect (updateViewport (resizeScreen v w h)))
  /\ (forall r, m_rect (setViewport v r) = r).
Proof. repeat split. Qed.

End MutatorFacts.

(** ** Comparisons in exact arithmetic *)

Lemma R_ltb_true (a b : R) : ExactReal.R_ltb a b = true <-> (a < b)%R.
Proof.
  unfold ExactReal.R_ltb. destruct (Rlt_dec a b); split; intros; try easy.
Qed.

Lemma R_ltb_false (a b : R) : ExactReal.R_ltb a b = false <-> (b <= a)%R.
Proof.
  unfold ExactReal.R_ltb. destruct (Rlt_dec a b); split; intros; try easy; lra.
Qed.

(** ** Rounded arithmetic *)

Local Open Scope R_scope.

Lemma rounds_to_bound (u tau ex res B : R) :
  0 <= u -> Rabs ex <= B -> tau <= B -> rounds_to u tau ex res ->
  Rabs (res - ex) <= u * B.
Proof.
  intros Hu Hex Ht Hr. unfold rounds_to in Hr.
  eapply Rle_trans; [exact Hr |].
  apply Rmult_le_compat_l; [exact Hu |]. now apply Rmax_lub.
Qed.

Lemma Rabs_bound_inv (a b : R) : Rabs a <= b -> - b <= a <= b.
Proof. unfold Rabs. destruct (Rcase_abs a); lra. Qed.

Ltac absb H := apply Rabs_bound_inv in H.
Ltac abss := apply Rabs_le; split.

Lemma mul_bound (x y X Y : R) :
  - X <= x <= X -> - Y <= y <= Y -> - (X * Y) <= x * y <= X * Y.
Proof.
  intros Hx Hy.
  assert (0 <= X) by lra. assert (0 <= Y) by lra.
  split; nra.
Qed.

Lemma mul_bound_le (x y X Y Z : R) :
  - X <= x <= X -> - Y <= y <= Y -> X * Y <= Z -> - Z <= x * y <= Z.
Proof. intros Hx Hy HZ. pose proof (mul_bound x y X Y Hx Hy). lra. Qed.

(** The way back, counted in pixels: [m] is the exact product of the rounded
    offset and the rounded inverse pitch, [P] and [Q] the relative errors
    they carry; each later operation is off by at most [u] times a bound on
    its exact result, which the lemma provides before it is asked for. *)
Lemma round_trip_budget (u G W d x P Q m bh eh hh rh : R) :
  0 <= u -> 0 <= G -> 1 <= W -> 32 * u * (G + W) <= 1 ->
  Rabs d <= W -> d + W = 2 * x ->
  Rabs P <= u * (2 * G + 9 * W) -> Rabs Q <= u ->
  m = d + P + P * Q + d * Q ->
  Rabs m <= 2 * W
  /\ (Rabs (bh - m) <= u * (2 * W) ->
      Rabs (bh + W) <= 3 * W
      /\ (Rabs (eh - (bh + W)) <= u * (3 * W) ->
          Rabs (hh - 1 / 2) <= u ->
          Rabs (hh * eh) <= 3 * W
          /\ (Rabs (rh - hh * eh) <= u * (3 * W) ->
              Rabs (rh - x) <= 1 / 2))).
Proof.
  intros Hu HG HW HD Hd Hx HP HQ Em.
  assert (HuG : 0 <= u * G) by (apply Rmult_le_pos; assumption).
  assert (HuW : 0 <= u * W) by (apply Rmult_le_pos; lra).
  assert (HuGW : u * G + u * W <= 1 / 32) by lra.
  assert (Hu' : u <= 1 / 32).
  { assert (u * 1 <= u * W) by (apply Rmult_le_compat_l; lra). lra. }
  replace (u * (2 * G + 9 * W)) with (2 * (u * G) + 9 * (u * W)) in HP by ring.
  replace (u * (2 * W)) with (2 * (u * W)) by ring.
  replace (u * (3 * W)) with (3 * (u * W)) by ring.
  set (a := u * G) in *. set (b := u * W) in *.
  absb HP. absb HQ. absb Hd.
  assert (HPQ : - ((2 * a + 9 * b) / 32) <= P * Q <= (2 * a + 9 * b) / 32).
  { apply (mul_bound_le P Q (2 * a + 9 * b) u); [lra | lra |].
    assert ((2 * a + 9 * b) * u <= (2 * a + 9 * b) * (1 / 32))
      by (apply Rmult_le_compat_l; lra). lra. }
  assert (HdQ : - b <= d * Q <= b).
  { apply (mul_bound_le d Q W u); [lra | lra |]. unfold b. lra. }
  assert (Bm : Rabs m <= 2 * W) by (subst m; abss; lra).
  split; [exact Bm |]. intros H6. absb H6. absb Bm.
  assert (B7 : Rabs (bh + W) <= 3 * W) by (subst m; abss; lra).
  split; [exact B7 |]. intros H7 H8. absb H7. absb B7. absb H8.
  assert (Ee : - (3 * a + 16 * b) <= eh - 2 * x <= 3 * a + 16 * b) by (subst m; lra).
  assert (Be : -(3 * W) <= eh <= 3 * W) by lra.
  assert (B9 : Rabs (hh * eh) <= 3 * W).
  { abss; apply (mul_bound_le hh eh 1 (3 * W)); lra. }
  split; [exact B9 |]. intros H9. absb H9.
  assert (Hhe : - (3 * b) <= (hh - 1 / 2) * eh <= 3 * b).
  { apply (mul_bound_le (hh - 1 / 2) eh u (3 * W)); [lra | lra |]. unfold b. lra. }
  replace (rh - x) with ((rh - hh * eh) + (hh - 1 / 2) * eh + (eh - 2 * x) / 2) by field.
  abss; lra.
Qed.

Local Close Scope R_scope.

Lemma truncR_near (r : R) (x : Z) :
  0 <= x -> (Rabs (r - IZR x) <= 1 / 2)%R ->
  x - 1 <= ExactReal.truncR r <= x.
Proof.
  intros Hx Hr. apply Rabs_bound_inv in Hr.
  destruct (Rle_dec (IZR x) r) as [Hge | Hlt].
  - assert (0 <= IZR x)%R by (apply IZR_le; lia).
    rewrite (truncR_nonneg r x); [lia | lra | lra].
  - destruct (Z.eq_dec x 0) as [-> | Hne].
    + rewrite (truncR_nonpos r 0); [lia | lra | lra].
    + assert (1 <= IZR x)%R by (apply IZR_le; lia).
      rewrite (truncR_nonneg r (x - 1)); [lia | lra |].
      rewrite minus_IZR. lra.
Qed.

(** *** Exact arithmetic as a rounded arithmetic *)

Lemma R_rounds_exact (x : R) :
  rounds_to (/ IZR (2 ^ 53)) (/ IZR (2 ^ 1022)) x x.
Proof.
  unfold rounds_to. replace (x - x)%R with 0%R by ring. rewrite Rabs_R0.
  apply Rmult_le_pos; [lra |].
  eapply Rle_trans; [apply Rabs_pos | apply Rmax_l].
Qed.

Lemma R_to_int_is_int (a : R) : Int.fits (ExactReal.R_to_int a).
Proof.
  unfold ExactReal.R_to_int.
  destruct (Int.fitsb (ExactReal.truncR a)) eqn:E.
  - now apply fitsb_fits.
  - unfold Int.fits, Int.INT_MIN, Int.INT_MAX. lia.
Qed.

Lemma R_to_int_trunc (a : R) :
  Int.fits (ExactReal.truncR a) -> ExactReal.R_to_int a = ExactReal.truncR a.
Proof.
  intros Hf. unfold ExactReal.R_to_int. apply fitsb_fits in Hf. now rewrite Hf.
Qed.

Lemma R_pow2_exact (z : R) :
  (Rabs (Rpower 2 z - Rpower 2 z) <= 0 * Rpower 2 z)%R.
Proof. replace (Rpower 2 z - Rpower 2 z)%R with 0%R by ring. rewrite Rabs_R0. lra. Qed.

(** Exact arithmetic makes no error, so it meets the error bounds of any
    rounded arithmetic; it is given the constants of binary64. *)
#[export] Instance R_Rounded : RoundedReal R := {|
  finite := fun _ => True;
  val := fun r => r;
  unit_roundoff := (/ IZR (2 ^ 53))%R;
  tiny := (/ IZR (2 ^ 1022))%R;
  huge := IZR (2 ^ 1023);
  unit_roundoff_range := ltac:(lra);
  tiny_nonneg := ltac:(lra);
  add_rounded := fun a b _ _ _ => conj I (R_rounds_exact (a + b));
  sub_rounded := fun a b _ _ _ => conj I (R_rounds_exact (a - b));
  mul_rounded := fun a b _ _ _ => conj I (R_rounds_exact (a * b));
  div_rounded := fun a b _ _ _ _ => conj I (R_rounds_exact (a / b));
  of_int_exact := fun n _ => conj I eq_refl;
  to_int_is_int := R_to_int_is_int;
  to_int_trunc := fun a _ => R_to_int_trunc a;
  ltb_val := fun a b _ _ => R_ltb_true a b
|}.

#[export] Instance R_RoundedMath : RoundedMath R := {|
  pow_error := 0%R;
  pow_error_range := ltac:(lra);
  pow2_rounded := fun z _ _ => conj I (R_pow2_exact z)
|}.

(** *** Pixel -> plane -> pixel with rounding *)

Section RoundedAxis.

Context {T : Type} `{RR : RoundedReal T}.

Local Open Scope real_scope.

Local Abbreviation u := unit_roundoff.
Local Abbreviation tau := tiny.

(** One axis of the trip pixel -> plane -> pixel in a rounded arithmetic. *)
Lemma axis_round_trip_rounded (c s : T) (x Wd Ht : Z) :
  finite c -> finite s -> (0 < val s)%R ->
  0 < Ht <= Int.INT_MAX -> 0 < Wd <= Int.INT_MAX -> 0 <= x < Wd ->
  (tiny <= val s / IZR Ht)%R -> (tiny <= IZR Ht / val s)%R ->
  (Rabs (val c) + 4 * (val s / IZR Ht) * IZR Wd <= huge)%R ->
  (IZR Ht / val s <= huge)%R -> (3 * IZR Wd <= huge)%R ->
  (32 * unit_roundoff * (Rabs (val c) * (IZR Ht / val s) + IZR Wd) <= 1)%R ->
  let z := c + (s / of_int Ht) * of_int (2 * x - Wd) in
  x - 1 <= to_int (literal 1 2 * ((z - c) * (of_int Ht / s) + of_int Wd)) <= x.
Proof.
  intros Fc Fs Hs HH HW Hx Htq Htt Hov1 Hov2 Hov3 HD z.
  pose proof (proj1 unit_roundoff_range) as Hu0. pose proof tiny_nonneg as Ht0.
  assert (HHr : (1 <= IZR Ht)%R) by (apply IZR_le; lia).
  assert (HWr : (1 <= IZR Wd)%R) by (apply IZR_le; lia).
  assert (Hxr : (0 <= IZR x <= IZR Wd)%R) by (split; apply IZR_le; lia).
  set (Hh := IZR Ht) in *. set (Ww := IZR Wd) in *.
  set (q := (val s / Hh)%R) in *. set (t := (Hh / val s)%R) in *.
  assert (Hq : (0 < q)%R) by (unfold q; apply Rdiv_lt_0_compat; lra).
  assert (Htp : (0 < t)%R) by (unfold t; apply Rdiv_lt_0_compat; lra).
  assert (Hqt : (q * t = 1)%R) by (unfold q, t; field; lra).
  assert (Htau1 : (tau <= 1)%R).
  { destruct (Rle_dec tau 1) as [? | Hn]; [assumption |].
    assert (1 < tau)%R by lra. nra. }
  assert (HqW : (q <= q * Ww)%R) by nra.
  set (C := Rabs (val c)) in *.
  assert (HC : (0 <= C)%R) by apply Rabs_pos.
  assert (Hu32 : (u <= 1 / 32)%R).
  { assert (0 <= u * (C * t))%R by (apply Rmult_le_pos; [lra | apply Rmult_le_pos; lra]).
    assert (u * 1 <= u * Ww)%R by (apply Rmult_le_compat_l; lra). lra. }
  (* the integers converted *)
  destruct (of_int_exact Ht) as [FH EH];
    [unfold Int.fits, Int.INT_MIN, Int.INT_MAX in *; lia |].
  destruct (of_int_exact Wd) as [FW EW];
    [unfold Int.fits, Int.INT_MIN, Int.INT_MAX in *; lia |].
  destruct (of_int_exact (2 * x - Wd)) as [Fd Ed];
    [unfold Int.fits, Int.INT_MIN, Int.INT_MAX in *; lia |].
  destruct (of_int_exact 1) as [F1 E1];
    [unfold Int.fits, Int.INT_MIN, Int.INT_MAX; lia |].
  destruct (of_int_exact 2) as [F2 E2];
    [unfold Int.fits, Int.INT_MIN, Int.INT_MAX; lia |].
  fold Hh in EH. fold Ww in EW.
  set (d := IZR (2 * x - Wd)) in *.
  assert (Hd : (Rabs d <= Ww)%R).
  { unfold d, Ww. apply Rabs_le. split; [rewrite <- opp_IZR |]; apply IZR_le; lia. }
  assert (Hdx : (d + Ww = 2 * IZR x)%R).
  { unfold d, Ww. rewrite minus_IZR, mult_IZR. ring. }
  (* forward *)
  destruct (div_rounded s (of_int Ht) Fs FH) as [Fq Rq].
  { rewrite EH. lra. }
  { rewrite EH. fold q. rewrite Rabs_right by lra. lra. }
  rewrite EH in Rq. fold q in Rq.
  set (qh := val (s / of_int Ht)) in *.
  assert (Eq1 : (Rabs (qh - q) <= u * q)%R).
  { apply (rounds_to_bound u tau q qh q); try lra; try exact Rq.
    rewrite Rabs_right; lra. }
  assert (Bq : (Rabs (qh * d) <= 2 * q * Ww)%R).
  { apply Rabs_bound_inv in Eq1. apply Rabs_bound_inv in Hd.
    apply Rabs_le. apply (mul_bound_le qh d (2 * q) Ww); [nra | lra | lra]. }
  destruct (mul_rounded (s / of_int Ht) (of_int (2 * x - Wd)) Fq Fd) as [Fp Rp].
  { rewrite Ed. fold qh d. lra. }
  rewrite Ed in Rp. fold qh d in Rp.
  set (ph := val ((s / of_int Ht) * of_int (2 * x - Wd))) in *.
  assert (Ep : (Rabs (ph - qh * d) <= u * (2 * q * Ww))%R).
  { apply (rounds_to_bound u tau (qh * d) ph); try lra; try assumption. }
  assert (Ep' : (Rabs (ph - q * d) <= 3 * u * (q * Ww))%R).
  { apply Rabs_bound_inv in Eq1. apply Rabs_bound_inv in Hd. apply Rabs_bound_inv in Ep.
    assert (- (u * q * Ww) <= (qh - q) * d <= u * q * Ww)%R
      by (apply (mul_bound_le (qh - q) d (u * q) Ww); lra).
    apply Rabs_le. lra. }
  assert (Bz : (Rabs (val c + ph) <= C + 2 * q * Ww)%R).
  { replace (val c + ph)%R with (val c + ((ph - q * d) + q * d))%R by ring.
    eapply Rle_trans; [apply Rabs_triang |]. fold C.
    eapply Rle_trans; [apply Rplus_le_compat_l, Rabs_triang |].
    assert (Rabs (q * d) <= q * Ww)%R.
    { rewrite Rabs_mult, (Rabs_right q) by lra.
      apply Rmult_le_compat_l; lra. }
    assert (3 * u * (q * Ww) <= q * Ww)%R by nra.
    lra. }
  destruct (add_rounded c ((s / of_int Ht) * of_int (2 * x - Wd)) Fc Fp) as [Fz Rz].
  { fold ph. lra. }
  fold ph in Rz. fold z in Fz, Rz.
  set (zh := val z) in *.
  assert (Ez : (Rabs (zh - (val c + ph)) <= u * (C + 2 * q * Ww))%R).
  { apply (rounds_to_bound u tau (val c + ph) zh); try lra; try assumption. }
  assert (Ba : (Rabs (zh - val c) <= C + 4 * q * Ww)%R).
  { replace (zh - val c)%R with ((zh - (val c + ph)) + ((ph - q * d) + q * d))%R by ring.
    eapply Rle_trans; [apply Rabs_triang |].
    eapply Rle_trans; [apply Rplus_le_compat_l, Rabs_triang |].
    assert (Rabs (q * d) <= q * Ww)%R.
    { rewrite Rabs_mult, (Rabs_right q) by lra.
      apply Rmult_le_compat_l; lra. }
    assert (3 * u * (q * Ww) <= q * Ww)%R by nra.
    assert (u * (C + 2 * q * Ww) <= C + 2 * q * Ww)%R by nra.
    lra. }
  destruct (sub_rounded z c Fz Fc) as [Fa Ra].
  { fold zh. lra. }
  fold zh in Ra.
  set (ah := val (z - c)) in *.
  assert (Ea : (Rabs (ah - (zh - val c)) <= u * (C + 4 * q * Ww))%R).
  { apply (rounds_to_bound u tau (zh - val c) ah); try lra; try assumption. }
  assert (Eaq : (Rabs (ah - q * d) <= u * (2 * C + 9 * (q * Ww)))%R).
  { apply Rabs_bound_inv in Ea. apply Rabs_bound_inv in Ez. apply Rabs_bound_inv in Ep'.
    apply Rabs_le. lra. }
  (* backward *)
  destruct (div_rounded (of_int Ht) s FH Fs) as [Ft Rt].
  { lra. }
  { rewrite EH. fold t. rewrite Rabs_right by lra. lra. }
  rewrite EH in Rt. fold t in Rt.
  set (th := val (of_int Ht / s)) in *.
  assert (Et : (Rabs (th - t) <= u * t)%R).
  { apply (rounds_to_bound u tau t th t); try lra; try assumption. rewrite Rabs_right; lra. }
  set (G := (C * t)%R) in *.
  assert (HG : (0 <= G)%R) by (apply Rmult_le_pos; lra).
  set (P := ((ah - q * d) * t)%R).
  set (Q := ((th - t) * q)%R).
  assert (HP : (Rabs P <= u * (2 * G + 9 * Ww))%R).
  { unfold P. rewrite Rabs_mult, (Rabs_right t) by lra.
    replace (u * (2 * G + 9 * Ww))%R with (u * (2 * C + 9 * (q * Ww)) * t)%R.
    - apply Rmult_le_compat_r; lra.
    - unfold G. replace (u * (2 * C + 9 * (q * Ww)) * t)%R
        with (u * (2 * (C * t) + 9 * ((q * t) * Ww)))%R by ring.
      rewrite Hqt. ring. }
  assert (HQ : (Rabs Q <= u)%R).
  { unfold Q. rewrite Rabs_mult, (Rabs_right q) by lra.
    replace u with (u * t * q)%R by (rewrite Rmult_assoc, (Rmult_comm t q), Hqt; ring).
    apply Rmult_le_compat_r; lra. }
  assert (Em : (ah * th = d + P + P * Q + d * Q)%R).
  { assert (Etq : t = (/ q)%R).
    { apply Rmult_eq_reg_l with q; [| lra]. rewrite Hqt. field. lra. }
    unfold P, Q. rewrite Etq. field. lra. }
  destruct (round_trip_budget u G Ww d (IZR x) P Q (ah * th)%R
              (val ((z - c) * (of_int Ht / s)))
              (val ((z - c) * (of_int Ht / s) + of_int Wd))
              (val (literal 1 2 : T))
              (val (literal 1 2 * ((z - c) * (of_int Ht / s) + of_int Wd)))
              Hu0 HG HWr HD Hd Hdx HP HQ Em) as [Bm Hb].
  destruct (mul_rounded (z - c) (of_int Ht / s) Fa Ft) as [Fb Rb].
  { fold ah th. lra. }
  fold ah th in Rb.
  set (bh := val ((z - c) * (of_int Ht / s))) in *.
  destruct Hb as [B7 Hb].
  { apply (rounds_to_bound u tau (ah * th) bh); try lra; try assumption. }
  destruct (add_rounded ((z - c) * (of_int Ht / s)) (of_int Wd) Fb FW) as [Fe Re].
  { rewrite EW. fold bh. lra. }
  rewrite EW in Re. fold bh in Re.
  set (eh := val ((z - c) * (of_int Ht / s) + of_int Wd)) in *.
  (* the literal 0.5 *)
  destruct (div_rounded (of_int 1) (of_int 2) F1 F2) as [Fh Rh].
  { rewrite E2. lra. }
  { rewrite E1, E2. rewrite Rabs_right by lra. lra. }
  rewrite E1, E2 in Rh. change (of_int 1 / of_int 2) with (literal 1 2 : T) in Fh, Rh.
  set (hh := val (literal 1 2 : T)) in *.
  assert (Eh : (Rabs (hh - 1 / 2) <= u)%R).
  { assert (Rabs (hh - 1 / 2) <= u * 1)%R.
    { apply (rounds_to_bound u tau (1 / 2) hh 1); try lra; try assumption.
      rewrite Rabs_right; lra. }
    lra. }
  destruct Hb as [B9 Hb].
  { apply (rounds_to_bound u tau (bh + Ww) eh); try lra; try assumption. }
  { exact Eh. }
  destruct (mul_rounded (literal 1 2) ((z - c) * (of_int Ht / s) + of_int Wd) Fh Fe)
    as [Fr Rr].
  { fold hh eh. lra. }
  fold hh eh in Rr.
  set (rh := val (literal 1 2 * ((z - c) * (of_int Ht / s) + of_int Wd))) in *.
  assert (Er : (Rabs (rh - IZR x) <= 1 / 2)%R).
  { apply Hb. apply (rounds_to_bound u tau (hh * eh) rh); try lra; try assumption. }
  pose proof (truncR_near rh x ltac:(lia) Er) as Htr.
  rewrite to_int_trunc; [exact Htr | exact Fr |].
  fold rh. unfold Int.fits, Int.INT_MIN, Int.INT_MAX in *. lia.
Qed.


(** C1 (as amended): in an arithmetic that rounds, for a view with positive
    screen dimensions and positive scale whose pixels the arithmetic
    resolves on both axes, the trip pixel -> plane -> pixel brings every
    pixel of the screen back within one pixel: to itself or to its left or
    upper neighbour, never beyond. *)
Theorem round_trip_rounded (v : @View T) (x y : Z) :
  0 < vx (m_screenSize v) <= Int.INT_MAX ->
  0 < vy (m_screenSize v) <= Int.INT_MAX ->
  is_positive (m_scale v) ->
  axis_resolved v (vx (m_centre v)) (vx (m_screenSize v)) ->
  axis_resolved v (vy (m_centre v)) (vy (m_screenSize v)) ->
  0 <= x < vx (m_screenSize v) ->
  0 <= y < vy (m_screenSize v) ->
  within_one_pixel (round_trip v x y) x y
  /\ x - 1 <= vx (round_trip v x y) <= x
  /\ y - 1 <= vy (round_trip v x y) <= y.
Proof.
  intros HW HH [Fs Hs] (Fx & X1 & X2 & X3 & X4 & X5 & X6)
    (Fy & Y1 & Y2 & Y3 & Y4 & Y5 & Y6) Hx Hy.
  assert (Ex : x - 1 <= vx (round_trip v x y) <= x).
  { unfold round_trip, pixelAtComplex_z, pixelAtComplex, complexAtPixel.
    cbn [vx vy]. rewrite int_twice_minus by lia. unfold HALF.
    apply axis_round_trip_rounded; assumption. }
  assert (Ey : y - 1 <= vy (round_trip v x y) <= y).
  { unfold round_trip, pixelAtComplex_z, pixelAtComplex, complexAtPixel.
    cbn [vx vy]. rewrite (int_twice_minus y) by lia. unfold HALF.
    apply axis_round_trip_rounded; assumption. }
  repeat apply conj; try apply Ex; try apply Ey.
  - lia.
  - lia.
Qed.

End RoundedAxis.

Lemma round_trip_rounded_witness :
  within_one_pixel (round_trip (View_new (-1 / 2)%R 0%R 1%R 800 600) 123 457) 123 457.
Proof.
  assert (Es : m_scale (View_new (-1 / 2)%R 0%R 1%R 800 600) = 2%R)
    by (cbn; apply Rpower_1; lra).
  assert (Ea : Rabs (-1 / 2) = (1 / 2)%R)
    by (unfold Rabs; destruct (Rcase_abs (-1 / 2)); lra).
  destruct (round_trip_rounded (View_new (-1 / 2)%R 0%R 1%R 800 600) 123 457)
    as (Hw & _).
  - cbn. unfold Int.INT_MAX. lia.
  - cbn. unfold Int.INT_MAX. lia.
  - split; [exact I |]. cbn [val R_Rounded]. rewrite Es. lra.
  - unfold axis_resolved. rewrite Es.
    cbn [val finite tiny huge unit_roundoff R_Rounded m_screenSize m_centre
         View_new zoomTo moveTo updateViewport set_rect set_dirty set_scale
         set_zoom set_centre vx vy].
    rewrite Ea. repeat apply conj; try exact I; lra.
  - unfold axis_resolved. rewrite Es.
    cbn [val finite tiny huge unit_roundoff R_Rounded m_screenSize m_centre
         View_new zoomTo moveTo updateViewport set_rect set_dirty set_scale
         set_zoom set_centre vx vy].
    rewrite Rabs_R0. repeat apply conj; try exact I; lra.
  - cbn. lia.
  - cbn. lia.
  - exact Hw.
Defined.

(** ** Positivity of the scale *)

Lemma zoomBoxEnd_scale_positive (v : @View R) (x y : Z) :
  (0 < m_scale v)%R -> 0 < vy (m_screenSize v) ->
  (0 < m_scale (zoomBoxEnd v x y))%R.
Proof.
  intros Hs HH. unfold zoomBoxEnd.
  destruct (zoomBoxContinue_navigation v x y) as (_ & Es & _ & _ & _ & Esz & _).
  set (v1 := zoomBoxContinue v x y) in *.
  set (h := of_int (Int.abs _)).
  destruct (ZERO <? h)%re eqn:Eh; cbn.
  - apply R_ltb_true in Eh. unfold ZERO in Eh. cbn in Eh.
    rewrite Es, Esz.
    assert (0 < IZR (vy (m_screenSize v)))%R by (apply IZR_lt; lia).
    apply Rdiv_lt_0_compat; [apply Rmult_lt_0_compat |]; assumption.
  - rewrite Es. exact Hs.
Qed.

(** C2 (as stated) fails: [setScale], [setViewport] and [resizeScreen]
    store what they are given. *)
Lemma scale_positive_broken :
  let v := View_new (-1 / 2)%R 0%R 1%R 800 600 in
  (0 < m_scale v)%R
  /\ ~ (0 < m_scale (setScale v (-1)%R))%R
  /\ ~ (0 < m_scale (setViewport v (mkRect 0 0 1 0)%R))%R
  /\ ~ (0 < m_scale (resizeScreen v 800 0))%R.
Proof.
  cbn. unfold HALF, literal. cbn. repeat split.
  - apply exp_pos.
  - lra.
  - lra.
  - unfold Rdiv. rewrite Rmult_0_l, Rmult_0_r. lra.
Qed.

(** In exact arithmetic, where [pow] neither underflows nor overflows: from a
    view with positive scale, [moveTo], [moveBy], [zoomTo] and [zoomBy]
    return a view with positive scale for every argument, and so does
    [zoomBoxEnd] on a screen of positive height. *)
Lemma scale_positive_exact (v : @View R) :
  (0 < m_scale v)%R ->
  (forall x y, 0 < m_scale (moveTo v x y))%R
  /\ (forall p, 0 < m_scale (moveTo_z v p))%R
  /\ (forall dx dy, 0 < m_scale (moveBy v dx dy))%R
  /\ (forall d, 0 < m_scale (moveBy_z v d))%R
  /\ (forall z, 0 < m_scale (zoomTo v z))%R
  /\ (forall dz, 0 < m_scale (zoomBy v dz))%R
  /\ (forall x y, 0 < vy (m_screenSize v) -> (0 < m_scale (zoomBoxEnd v x y))%R)
  /\ (forall s, m_scale (setScale v s) = s)
  /\ (forall r, m_scale (setViewport v r) = (rect_height r / 2)%R)
  /\ (forall w h, m_scale (resizeScreen v w h)
                  = (m_scale v * (IZR h / IZR (vy (m_screenSize v))))%R).
Proof.
  intros Hs. repeat apply conj; intros.
  - exact Hs.
  - exact Hs.
  - exact Hs.
  - exact Hs.
  - cbn. apply exp_pos.
  - cbn. apply Rdiv_lt_0_compat; [lra | apply exp_pos].
  - now apply zoomBoxEnd_scale_positive.
  - reflexivity.
  - cbn. unfold HALF, literal. cbn. lra.
  - reflexivity.
Qed.

Section ScalePositive.

Context {T : Type} `{RMa : RoundedMath T}.

Local Open Scope real_scope.

Lemma rounded_positive (exact result : R) :
  (tiny <= exact)%R -> rounds_to unit_roundoff tiny exact result ->
  (exact / 2 <= result <= 2 * exact)%R.
Proof.
  intros He Hr. pose proof unit_roundoff_range as Hu. pose proof tiny_nonneg as Ht.
  assert (Hb : (Rabs (result - exact) <= unit_roundoff * exact)%R).
  { apply (rounds_to_bound unit_roundoff tiny exact result exact); try lra; try assumption.
    rewrite Rabs_right; lra. }
  apply Rabs_bound_inv in Hb.
  assert (unit_roundoff * exact <= 1 / 2 * exact)%R by (apply Rmult_le_compat_r; lra).
  lra.
Qed.

Lemma zoomTo_positive (v : @View T) (z : T) :
  finite z -> (tiny <= Rpower 2 (val z) <= huge)%R ->
  is_positive (m_scale (zoomTo v z)).
Proof.
  intros Fz Hz. destruct (pow2_rounded z Fz Hz) as [Fp Ep].
  split; [exact Fp |].
  change (m_scale (zoomTo v z)) with (rpow (of_int 2) z).
  apply Rabs_bound_inv in Ep.
  assert (0 < Rpower 2 (val z))%R by apply exp_pos.
  pose proof pow_error_range as He.
  assert (pow_error * Rpower 2 (val z) <= 1 / 2 * Rpower 2 (val z))%R
    by (apply Rmult_le_compat_r; lra).
  lra.
Qed.

Lemma zoomBy_positive (v : @View T) (dz : T) :
  let k := IZR (to_int (- (m_zoom v + dz))) in
  (tiny <= Rpower 2 k <= huge)%R ->
  (2 * tiny <= Rpower 2 (- k))%R -> (2 * Rpower 2 (- k) <= huge)%R ->
  is_positive (m_scale (zoomBy v dz)).
Proof.
  intros k Hk Hlo Hhi. subst k.
  set (n := to_int (- (m_zoom v + dz))) in *.
  change (m_scale (zoomBy v dz)) with (of_int 1 / rpow (of_int 2) (of_int n)).
  destruct (of_int_exact n (to_int_is_int _)) as [Fn En].
  destruct (of_int_exact 1) as [F1 E1];
    [unfold Int.fits, Int.INT_MIN, Int.INT_MAX; lia |].
  destruct (pow2_rounded (of_int n) Fn) as [Fp Ep]; [rewrite En; exact Hk |].
  rewrite En in Ep.
  set (p := Rpower 2 (IZR n)) in *.
  set (ph := val (rpow (of_int 2) (of_int n))) in *.
  assert (Hp : (0 < p)%R) by apply exp_pos.
  assert (Hinv : (Rpower 2 (- IZR n) = / p)%R) by (unfold p; apply Rpower_Ropp).
  rewrite Hinv in Hlo, Hhi.
  pose proof pow_error_range as He. pose proof tiny_nonneg as Ht.
  apply Rabs_bound_inv in Ep.
  assert (pow_error * p <= 1 / 2 * p)%R by (apply Rmult_le_compat_r; lra).
  assert (Hph : (p / 2 <= ph <= 3 / 2 * p)%R) by lra.
  assert (Hinvp : (0 < / p)%R) by (apply Rinv_0_lt_compat; exact Hp).
  assert (Hq : (2 / 3 * / p <= 1 / ph <= 2 * / p)%R).
  { assert (0 < ph)%R by lra.
    split.
    - apply Rmult_le_reg_r with ph; [lra |].
      replace (1 / ph * ph)%R with 1%R by (field; lra).
      replace (2 / 3 * / p * ph)%R with (2 / 3 * (ph / p))%R by (field; lra).
      assert (ph / p <= 3 / 2)%R.
      { apply Rmult_le_reg_r with p; [lra |].
        replace (ph / p * p)%R with ph by (field; lra). lra. }
      lra.
    - apply Rmult_le_reg_r with ph; [lra |].
      replace (1 / ph * ph)%R with 1%R by (field; lra).
      replace (2 * / p * ph)%R with (2 * (ph / p))%R by (field; lra).
      assert (1 / 2 <= ph / p)%R.
      { apply Rmult_le_reg_r with p; [lra |].
        replace (ph / p * p)%R with ph by (field; lra). lra. }
      lra. }
  destruct (div_rounded (of_int 1) (rpow (of_int 2) (of_int n)) F1 Fp) as [Fr Rr].
  { fold ph. lra. }
  { rewrite E1. fold ph. rewrite Rabs_right by lra. lra. }
  rewrite E1 in Rr. fold ph in Rr.
  split; [exact Fr |].
  destruct (rounded_positive (1 / ph) _ ltac:(lra) Rr) as [Hlow _].
  lra.
Qed.

Lemma zoomBoxEnd_positive (v : @View T) (x y : Z) :
  is_positive (m_scale v) ->
  0 < vy (m_screenSize v) <= Int.INT_MAX ->
  (2 * tiny <= val (m_scale v) / IZR (vy (m_screenSize v)))%R ->
  (IZR (2 ^ 32) * val (m_scale v) <= huge)%R ->
  is_positive (m_scale (zoomBoxEnd v x y)).
Proof.
  intros [Fs Hs] HH Hlo Hhi. unfold zoomBoxEnd.
  destruct (zoomBoxContinue_navigation v x y) as (_ & Es & _ & _ & _ & Esz & _).
  set (v1 := zoomBoxContinue v x y) in *.
  set (hpx := Int.abs _).
  assert (Hfit : Int.fits hpx) by apply wrap_int_is_int.
  destruct (of_int_exact hpx Hfit) as [Fh Eh].
  destruct (of_int_exact 0) as [F0 E0];
    [unfold Int.fits, Int.INT_MIN, Int.INT_MAX; lia |].
  destruct (of_int_exact (vy (m_screenSize v))) as [FH EH];
    [unfold Int.fits, Int.INT_MIN, Int.INT_MAX in *; lia |].
  pose proof unit_roundoff_range as Hu. pose proof tiny_nonneg as Ht.
  assert (HHr : (1 <= IZR (vy (m_screenSize v)))%R) by (apply IZR_le; lia).
  set (Hh := IZR (vy (m_screenSize v))) in *.
  set (s := val (m_scale v)) in *.
  assert (Hts : (2 * tiny <= s)%R).
  { assert (s / Hh <= s)%R.
    { apply Rmult_le_reg_r with Hh; [lra |].
      replace (s / Hh * Hh)%R with s by (field; lra). nra. }
    lra. }
  destruct (ZERO <? of_int hpx) eqn:Eh0.
  - apply (ltb_val ZERO (of_int hpx) F0 Fh) in Eh0.
    unfold ZERO in Eh0. rewrite E0, Eh in Eh0.
    assert (Hh1 : (1 <= IZR hpx)%R) by (apply IZR_le; apply lt_IZR in Eh0; lia).
    assert (Hh2 : (IZR hpx <= IZR (2 ^ 31))%R)
      by (apply IZR_le; unfold Int.fits, Int.INT_MAX in Hfit; lia).
    cbn [m_scale set_zoomBoxShape set_zoomBoxIsShown setScale moveTo_z updateViewport
         set_rect set_dirty set_zoom set_scale set_centre m_screenSize].
    rewrite Es, Esz.
    assert (Hsh : (s <= s * IZR hpx <= IZR (2 ^ 31) * s)%R) by nra.
    destruct (mul_rounded (m_scale v) (of_int hpx) Fs Fh) as [Fm Rm].
    { rewrite Eh. fold s. rewrite Rabs_right by lra.
      replace (IZR (2 ^ 32)) with (2 * IZR (2 ^ 31))%R in Hhi
        by (rewrite <- mult_IZR; reflexivity).
      lra. }
    rewrite Eh in Rm. fold s in Rm.
    destruct (rounded_positive (s * IZR hpx) _ ltac:(lra) Rm) as [Hm1 Hm2].
    set (mh := val (m_scale v * of_int hpx)) in *.
    assert (Hmq : (s / Hh / 2 <= mh / Hh <= IZR (2 ^ 32) * s)%R).
    { replace (IZR (2 ^ 32)) with (2 * IZR (2 ^ 31))%R
        by (rewrite <- mult_IZR; reflexivity).
      split.
      - apply Rmult_le_reg_r with Hh; [lra |].
        replace (s / Hh / 2 * Hh)%R with (s / 2)%R by (field; lra).
        replace (mh / Hh * Hh)%R with mh by (field; lra). lra.
      - apply Rmult_le_reg_r with Hh; [lra |].
        replace (mh / Hh * Hh)%R with mh by (field; lra). nra. }
    destruct (div_rounded (m_scale v * of_int hpx) (of_int (vy (m_screenSize v))) Fm FH)
      as [Fr Rr].
    { rewrite EH. fold Hh. lra. }
    { rewrite EH. fold Hh mh. rewrite Rabs_right by lra. lra. }
    rewrite EH in Rr. fold Hh mh in Rr.
    split; [exact Fr |].
    destruct (rounded_positive (mh / Hh) _ ltac:(lra) Rr) as [Hlow _].
    assert (0 < s / Hh)%R by (apply Rdiv_lt_0_compat; lra).
    lra.
  - cbn [m_scale set_zoomBoxShape set_zoomBoxIsShown]. rewrite Es. split; assumption.
Qed.

(** C2 (as amended): in an arithmetic that rounds, from a view whose scale
    is a finite number above zero.  [moveTo] and [moveBy] do not touch the
    scale.  [zoomTo(z)] stores [pow(2, z)] and [zoomBy(dz)] stores
    [1 / pow(2, k)], [k] the integer [(long)(-(zoom + dz))]: the scale they
    leave is positive as long as the powers [2^z], resp. [2^k] and [2^-k],
    stay inside the range of normal numbers.  [zoomBoxEnd] stores
    [scale * h / screenHeight] for a box [h > 0] pixels high, positive as
    long as the pixel pitch is a normal number and [2^32 * scale] does not
    overflow, and leaves the scale alone for [h = 0].  [setScale(s)],
    [setViewport(r)] and [resizeScreen(w, h)] store [s], [0.5 * r.height]
    and [scale * (h / previousHeight)] unchecked, so the scale they leave is
    positive exactly when that value is. *)
Theorem scale_positive_preserved (v : @View T) :
  is_positive (m_scale v) ->
  (forall x y, is_positive (m_scale (moveTo v x y)))
  /\ (forall p, is_positive (m_scale (moveTo_z v p)))
  /\ (forall dx dy, is_positive (m_scale (moveBy v dx dy)))
  /\ (forall d, is_positive (m_scale (moveBy_z v d)))
  /\ (forall z, finite z -> (tiny <= Rpower 2 (val z) <= huge)%R ->
                is_positive (m_scale (zoomTo v z)))
  /\ (forall dz,
        let k := IZR (to_int (- (m_zoom v + dz))) in
        (tiny <= Rpower 2 k <= huge)%R ->
        (2 * tiny <= Rpower 2 (- k))%R -> (2 * Rpower 2 (- k) <= huge)%R ->
        is_positive (m_scale (zoomBy v dz)))
  /\ (forall x y,
        0 < vy (m_screenSize v) <= Int.INT_MAX ->
        (2 * tiny <= val (m_scale v) / IZR (vy (m_screenSize v)))%R ->
        (IZR (2 ^ 32) * val (m_scale v) <= huge)%R ->
        is_positive (m_scale (zoomBoxEnd v x y)))
  /\ (forall s, m_scale (setScale v s) = s)
  /\ (forall r, m_scale (setViewport v r) = HALF * rect_height r)
  /\ (forall w h, m_scale (resizeScreen v w h)
                  = m_scale v * (of_int h / of_int (vy (m_screenSize v)))).
Proof.
  intros Hs. repeat apply conj; intros; try exact Hs; try reflexivity.
  - now apply zoomTo_positive.
  - now apply zoomBy_positive.
  - now apply zoomBoxEnd_positive.
Qed.

End ScalePositive.

Lemma scale_positive_preserved_witness :
  let v := View_new (-1 / 2)%R 0%R 1%R 800 600 in
  is_positive (m_scale (zoomTo v 1%R))
  /\ (forall s, m_scale (setScale v s) = s).
Proof.
  intros v.
  assert (Es : Rpower 2 1 = 2%R) by (apply Rpower_1; lra).
  destruct (scale_positive_preserved v) as (_ & _ & _ & _ & Hz & _ & _ & Hset & _).
  - split; [exact I |]. cbn. apply exp_pos.
  - split; [| exact Hset]. apply Hz; [exact I |].
    cbn [val tiny huge R_Rounded]. rewrite Es. lra.
Defined.

(** ** Viewport consistency *)

Lemma Rpower_2_1 : Rpower 2 1 = 2%R.
Proof. apply Rpower_1. lra. Qed.

(** C3 at [View(-0.5, 0, 1, 800, 600)] followed by [moveTo(0, 0)]: the view
    is dirty, its scale is 2 and its aspect ratio 800/600, but the stored
    viewport is the rectangle at [(-8/3, -2)] of size [8/3 x 2], half the
    size [16/3 x 4] of the consistent one. *)
Theorem viewport_half_size_after_moveTo :
  let v := moveTo (View_new (-1 / 2)%R 0%R 1%R 800 600) 0%R 0%R in
  m_dirty v = true
  /\ m_scale v = 2%R
  /\ m_rect v = mkRect (- (8 / 3))%R (- 2)%R (8 / 3)%R 2%R
  /\ ~ consistent_viewport v.
Proof.
  cbn -[Rpower]. rewrite Rpower_2_1. repeat apply conj.
  - reflexivity.
  - reflexivity.
  - unfold Rect_of_position_size. cbn [vx vy]. f_equal; lra.
  - unfold consistent_viewport. cbn -[Rpower]. rewrite Rpower_2_1.
    unfold Rect_of_position_size. cbn [vx vy].
    intros E. injection E as _ E. lra.
Qed.

(** The same for every view of positive scale and each mutator that ends in
    [updateViewport]: the stored height is [scale], not [2 * scale]. *)
Lemma viewport_never_consistent (v : @View R) :
  (0 < m_scale v)%R -> ~ consistent_viewport (updateViewport v).
Proof.
  intros Hs. unfold consistent_viewport. rewrite updateViewport_rect. cbn.
  intros E. injection E as _ E. lra.
Qed.

(** [setViewport] leaves a viewport that agrees with the centre and scale it
    derives, and with the aspect ratio only when the rectangle has it. *)
Lemma setViewport_consistent (v : @View R) (r : Rect R) :
  consistent_viewport (setViewport v r)
  <-> rect_width r = (rect_height r * m_aspectRatio v)%R.
Proof.
  unfold consistent_viewport. cbn. unfold HALF, literal. cbn.
  destruct r as [l t w h]. cbn. split.
  - intros E. injection E as E1 E2 E3 E4. lra.
  - intros E. f_equal; lra.
Qed.

(** ** The relation scale = 2^zoom *)

Lemma Rpower_2_gt_1 (x : R) : (0 < x)%R -> (1 < Rpower 2 x)%R.
Proof.
  intros Hx. unfold Rpower. rewrite <- exp_0. apply exp_increasing.
  apply Rmult_lt_0_compat; [exact Hx |].
  rewrite <- ln_1. apply ln_increasing; lra.
Qed.

(** C4 at [View(-0.5, 0, 1, 800, 600)], where [scale = 2 = 2^1]:
    [zoomBy(-0.25)] brings zoom to [0.75] and scale to [1 / 2^0 = 1], not
    [2^0.75]; [resizeScreen(800, 300)] brings scale to [1] and leaves zoom
    at [1]. *)
Theorem scale_pow2_zoom_broken :
  let v := View_new (-1 / 2)%R 0%R 1%R 800 600 in
  scale_is_pow2_zoom v
  /\ m_zoom (zoomBy v (-1 / 4)%R) = (1 + -1 / 4)%R
  /\ m_scale (zoomBy v (-1 / 4)%R) = 1%R
  /\ ~ scale_is_pow2_zoom (zoomBy v (-1 / 4)%R)
  /\ m_zoom (resizeScreen v 800 300) = 1%R
  /\ m_scale (resizeScreen v 800 300) = 1%R
  /\ ~ scale_is_pow2_zoom (resizeScreen v 800 300).
Proof.
  assert (Et : ExactReal.R_to_int (- (1 + -1 / 4))%R = 0).
  { unfold ExactReal.R_to_int.
    rewrite (truncR_nonpos _ 0) by lra. reflexivity. }
  assert (Ez : m_scale (zoomBy (View_new (-1 / 2)%R 0%R 1%R 800 600) (-1 / 4)%R) = 1%R).
  { cbn -[Rpower ExactReal.R_to_int]. rewrite Et.
    rewrite Rpower_O by lra. lra. }
  assert (Er : m_scale (resizeScreen (View_new (-1 / 2)%R 0%R 1%R 800 600) 800 300) = 1%R).
  { cbn -[Rpower]. rewrite Rpower_2_1. lra. }
  cbv zeta. repeat apply conj.
  - reflexivity.
  - reflexivity.
  - exact Ez.
  - unfold scale_is_pow2_zoom. rewrite Ez.
    change (m_zoom (zoomBy _ _)) with (1 + -1 / 4)%R.
    pose proof (Rpower_2_gt_1 (1 + -1 / 4)%R ltac:(lra)). lra.
  - reflexivity.
  - exact Er.
  - unfold scale_is_pow2_zoom. rewrite Er.
    change (m_zoom (resizeScreen _ _ _)) with 1%R.
    rewrite Rpower_2_1. lra.
Qed.

(** The mutators that do keep or establish the relation. *)
Lemma scale_pow2_zoom_kept (v : @View R) :
  (forall z, scale_is_pow2_zoom (zoomTo v z))
  /\ (forall s, (0 < s)%R -> scale_is_pow2_zoom (setScale v s))
  /\ (forall r, (0 < rect_height r)%R -> scale_is_pow2_zoom (setViewport v r))
  /\ (scale_is_pow2_zoom v ->
      (forall x y, scale_is_pow2_zoom (moveTo v x y))
      /\ (forall dx dy, scale_is_pow2_zoom (moveBy v dx dy))).
Proof.
  assert (L : forall s, (0 < s)%R -> s = Rpower 2 (ExactReal.R_log2 s)).
  { intros s Hs. unfold Rpower, ExactReal.R_log2.
    replace (ln s / ln 2 * ln 2)%R with (ln s).
    - symmetry. apply exp_ln. exact Hs.
    - field. apply ln_neq_0; lra. }
  repeat apply conj; intros.
  - reflexivity.
  - unfold scale_is_pow2_zoom. cbn -[Rpower ExactReal.R_log2]. now apply L.
  - unfold scale_is_pow2_zoom. cbn -[Rpower ExactReal.R_log2].
    apply L. unfold HALF, literal. cbn. lra.
  - split; intros; assumption.
Qed.

(** ** Iteration budget *)

Section Budget.

Context {T : Type} `{RO : RealOps T}.

(** On the range of [(int)zoom] where neither [10 * (int)zoom] nor the
    subtraction overflows an [int], the budget is [120 - 10 * (int)zoom]. *)
Lemma MAX_ITERATIONS_value (v : @View T) :
  -214748352 <= to_int (m_zoom v) <= 214748364 ->
  MAX_ITERATIONS v = 120 - 10 * to_int (m_zoom v).
Proof.
  intros Hz. unfold MAX_ITERATIONS, getZoom, Int.sub, Int.mul.
  rewrite (wrap_int_fits (10 * _)), wrap_int_fits;
    unfold Int.fits, Int.INT_MIN, Int.INT_MAX; lia.
Qed.

(** With no budget the loop body is never entered. *)
Lemma mandelbrot_no_budget (v : @View T) (z0 : Complex) :
  MAX_ITERATIONS v <= 0 -> mandelbrot v z0 = ONE.
Proof.
  intros HM. unfold mandelbrot.
  replace (Z.to_nat (MAX_ITERATIONS v)) with 0%nat by lia. reflexivity.
Qed.

(** C5 (as amended): the budget is [120 - 10 * (int)zoom], with the
    conversion to [int] truncating toward zero, and it is not clamped: it is
    positive exactly when [(int)zoom <= 11]. *)
Theorem MAX_ITERATIONS_unclamped (v : @View T) :
  -214748352 <= to_int (m_zoom v) <= 214748364 ->
  MAX_ITERATIONS v = 120 - 10 * to_int (m_zoom v)
  /\ (0 < MAX_ITERATIONS v <-> to_int (m_zoom v) <= 11).
Proof.
  intros Hz. rewrite (MAX_ITERATIONS_value v Hz). lia.
Qed.

End Budget.

Lemma MAX_ITERATIONS_unclamped_witness :
  MAX_ITERATIONS (View_new (-1 / 2)%R 0%R 1%R 800 600)
  = 120 - 10 * to_int (m_zoom (View_new (-1 / 2)%R 0%R 1%R 800 600))
  /\ (0 < MAX_ITERATIONS (View_new (-1 / 2)%R 0%R 1%R 800 600)
      <-> to_int (m_zoom (View_new (-1 / 2)%R 0%R 1%R 800 600)) <= 11).
Proof.
  apply MAX_ITERATIONS_unclamped.
  change (m_zoom (View_new (-1 / 2)%R 0%R 1%R 800 600)) with (IZR 1).
  change (to_int (IZR 1)) with (ExactReal.R_to_int (IZR 1)).
  rewrite R_to_int_IZR; [lia |].
  unfold Int.fits, Int.INT_MIN, Int.INT_MAX. lia.
Defined.

(** C5 (as stated) fails: at zoom [12] the budget is [0], and at zoom [-0.5]
    it is [120] where [120 - 10 * floor(-0.5)] is [130]. *)
Lemma MAX_ITERATIONS_not_positive :
  let v12 := View_new (-1 / 2)%R 0%R 12%R 800 600 in
  let vneg := View_new (-1 / 2)%R 0%R (-1 / 2)%R 800 600 in
  m_zoom v12 = 12%R
  /\ MAX_ITERATIONS v12 = 0
  /\ ~ 0 < MAX_ITERATIONS v12
  /\ m_zoom vneg = (-1 / 2)%R
  /\ Int_part (-1 / 2) = -1
  /\ MAX_ITERATIONS vneg = 120
  /\ MAX_ITERATIONS vneg <> 120 - 10 * Int_part (-1 / 2).
Proof.
  assert (E12 : MAX_ITERATIONS (View_new (-1 / 2)%R 0%R 12%R 800 600) = 0).
  { unfold MAX_ITERATIONS, getZoom.
    change (m_zoom (View_new (-1 / 2)%R 0%R 12%R 800 600)) with (IZR 12).
    change (to_int (IZR 12)) with (ExactReal.R_to_int (IZR 12)).
    rewrite R_to_int_IZR; [reflexivity |].
    unfold Int.fits, Int.INT_MIN, Int.INT_MAX. lia. }
  assert (Eneg : MAX_ITERATIONS (View_new (-1 / 2)%R 0%R (-1 / 2)%R 800 600) = 120).
  { unfold MAX_ITERATIONS, getZoom.
    change (m_zoom (View_new (-1 / 2)%R 0%R (-1 / 2)%R 800 600)) with (-1 / 2)%R.
    change (to_int (-1 / 2)%R) with (ExactReal.R_to_int (-1 / 2)%R).
    unfold ExactReal.R_to_int. rewrite (truncR_nonpos _ 0) by lra. reflexivity. }
  assert (Efl : Int_part (-1 / 2) = -1).
  { symmetry. apply Int_part_spec. lra. }
  cbv zeta. repeat apply conj; try reflexivity; try assumption.
  - rewrite E12. lia.
  - rewrite Eneg, Efl. lia.
Qed.

(** ** Escape-time evaluator (exact arithmetic) *)

Lemma int_add_1 (n MAX : Z) : 0 <= n < MAX -> Int.fits MAX -> Int.add n 1 = n + 1.
Proof.
  intros Hn HM. unfold Int.add. apply wrap_int_fits.
  unfold Int.fits, Int.INT_MIN, Int.INT_MAX in *. lia.
Qed.

(** Loop invariant: with [n] passes done and [remaining] to go, the loop
    returns a ratio in [[0, 1]]. *)
Lemma mandelbrot_loop_range (remaining : nat) :
  forall (n MAX : Z) (z0 z : @Complex R),
    0 <= n -> n + Z.of_nat remaining = MAX -> Int.fits MAX ->
    (0 <= mandelbrot_loop remaining n MAX z0 z <= 1)%R.
Proof.
  induction remaining as [| r IH]; intros n MAX z0 z Hn Hsum HM.
  - cbn. lra.
  - cbn [mandelbrot_loop]. destruct (escaped (mandelbrot_step z0 z)).
    + cbn [of_int rdiv R_Real].
      assert (HnM : (0 <= IZR n < IZR MAX)%R).
      { split; [apply IZR_le | apply IZR_lt]; lia. }
      split.
      * apply Rmult_le_pos; [lra |]. left. apply Rinv_0_lt_compat. lra.
      * apply Rmult_le_reg_r with (IZR MAX); [lra |].
        unfold Rdiv. rewrite Rmult_assoc, Rinv_l by lra. lra.
    + rewrite (int_add_1 n MAX) by (assumption || lia).
      apply IH; [lia | lia | assumption].
Qed.

(** The loop returns [1.0] when no point of the orbit visited within the
    budget is past the threshold; [j] passes have been made so far. *)
Lemma mandelbrot_loop_bounded (remaining : nat) :
  forall (j : nat) (n MAX : Z) (z0 z : @Complex R),
    z = orbit z0 j ->
    (forall k, (j + 1 <= k <= j + remaining)%nat -> escaped (orbit z0 k) = false) ->
    mandelbrot_loop remaining n MAX z0 z = 1%R.
Proof.
  induction remaining as [| r IH]; intros j n MAX z0 z Hz Hb.
  - reflexivity.
  - cbn [mandelbrot_loop].
    assert (Hstep : mandelbrot_step z0 z = orbit z0 (S j)) by (cbn; now rewrite Hz).
    rewrite Hstep, (Hb (S j) ltac:(lia)).
    apply (IH (S j)); [reflexivity |].
    intros k Hk. apply Hb. lia.
Qed.

(** The orbit of the origin stays at the origin. *)
Lemma orbit_origin (k : nat) : orbit (mkVector2 0%R 0%R) k = mkVector2 0%R 0%R.
Proof.
  induction k as [| k IH]; [reflexivity |].
  cbn [orbit]. rewrite IH. unfold mandelbrot_step, TWO. cbn. f_equal; ring.
Qed.

Lemma origin_not_escaped : escaped (mkVector2 0%R 0%R) = false.
Proof.
  unfold escaped, THRESHOLD. cbn. apply R_ltb_false. lra.
Qed.

(** The evaluator returns a ratio in [[0, 1]]. *)
Lemma mandelbrot_unit_interval (v : @View R) (z0 : Complex) :
  (0 <= mandelbrot v z0 <= 1)%R.
Proof.
  unfold mandelbrot.
  destruct (Z_le_gt_dec (MAX_ITERATIONS v) 0) as [Hle | Hgt].
  - replace (Z.to_nat (MAX_ITERATIONS v)) with 0%nat by lia. cbn. lra.
  - apply mandelbrot_loop_range; [lia | lia |].
    unfold MAX_ITERATIONS, Int.sub. apply wrap_int_is_int.
Qed.

(** C7: the evaluator returns a value in [[0, 1]]; it returns exactly [1.0]
    when the orbit is never past the threshold [16.0] within the budget; for
    [z0 = 0] it returns [1.0] whatever the budget. *)
Theorem mandelbrot_ratio (v : @View R) (z0 : Complex) :
  (0 <= mandelbrot v z0 <= 1)%R
  /\ ((forall k, (1 <= k <= Z.to_nat (MAX_ITERATIONS v))%nat ->
                 escaped (orbit z0 k) = false) ->
      mandelbrot v z0 = 1%R)
  /\ mandelbrot v (mkVector2 0%R 0%R) = 1%R
  /\ (forall (budget : nat) (MAX : Z),
        mandelbrot_loop budget 0 MAX (mkVector2 0%R 0%R) (mkVector2 0%R 0%R) = 1%R).
Proof.
  assert (Horigin : forall (budget : nat) (n MAX : Z),
             mandelbrot_loop budget n MAX (mkVector2 0%R 0%R) (mkVector2 0%R 0%R) = 1%R).
  { intros budget n MAX. apply (mandelbrot_loop_bounded budget 0); [reflexivity |].
    intros k _. rewrite orbit_origin. apply origin_not_escaped. }
  split; [apply mandelbrot_unit_interval |].
  repeat apply conj.
  - intros Hb. unfold mandelbrot.
    apply (mandelbrot_loop_bounded _ 0); [reflexivity |].
    intros k Hk. apply Hb. lia.
  - unfold mandelbrot. apply Horigin.
  - intros budget MAX. apply Horigin.
Qed.

(** C10: when [(int)zoom >= 12] the budget [120 - 10 * (int)zoom] is not
    positive, the loop makes no pass, the evaluator returns [1.0] for every
    point and every pixel is coloured opaque black. *)
Theorem mandelbrot_deep_zoom_black (v : @View R) (z0 : Complex) (x y : Z) :
  12 <= to_int (m_zoom v) <= 214748364 ->
  MAX_ITERATIONS v = 120 - 10 * to_int (m_zoom v)
  /\ MAX_ITERATIONS v <= 0
  /\ Z.to_nat (MAX_ITERATIONS v) = 0%nat
  /\ mandelbrot v z0 = 1%R
  /\ pixelColour v x y = mkColor 0 0 0 255.
Proof.
  intros Hz.
  assert (EM : MAX_ITERATIONS v = 120 - 10 * to_int (m_zoom v))
    by (apply MAX_ITERATIONS_value; lia).
  assert (HM : MAX_ITERATIONS v <= 0) by lia.
  assert (Hm : forall z, mandelbrot v z = 1%R)
    by (intros z; exact (mandelbrot_no_budget v z HM)).
  repeat apply conj; try assumption; try lia.
  - apply Hm.
  - unfold pixelColour. rewrite Hm. cbn [rltb of_int R_Real].
    replace (ExactReal.R_ltb 1 1) with false; [reflexivity |].
    symmetry. apply R_ltb_false. lra.
Qed.

Lemma mandelbrot_deep_zoom_black_witness :
  MAX_ITERATIONS (View_new (-1 / 2)%R 0%R 12%R 800 600) <= 0
  /\ mandelbrot (View_new (-1 / 2)%R 0%R 12%R 800 600) (mkVector2 (1 / 4)%R 0%R) = 1%R.
Proof.
  destruct (mandelbrot_deep_zoom_black (View_new (-1 / 2)%R 0%R 12%R 800 600)
              (mkVector2 (1 / 4)%R 0%R) 0 0) as (_ & HM & _ & Hm & _).
  - change (m_zoom (View_new (-1 / 2)%R 0%R 12%R 800 600)) with (IZR 12).
    change (to_int (IZR 12)) with (ExactReal.R_to_int (IZR 12)).
    rewrite R_to_int_IZR; [lia |].
    unfold Int.fits, Int.INT_MIN, Int.INT_MAX. lia.
  - split; assumption.
Defined.

(** ** Zoom box (exact arithmetic) *)

Lemma int_sub_fits (a b : Z) : Int.fits (a - b) -> Int.sub a b = a - b.
Proof. intros Hf. unfold Int.sub. now apply wrap_int_fits. Qed.

(** When the zoom box is shown, [zoomBoxContinue] gives the shape the size
    [(|w|, |h|)] of the extent. *)
Lemma zoomBoxContinue_shape (v : @View R) (x y : Z) :
  m_zoomBoxIsShown v = true ->
  shape_size (m_zoomBoxShape (zoomBoxContinue v x y))
  = mkVector2 (Rabs (fst (zoomBoxExtent v x y))) (Rabs (snd (zoomBoxExtent v x y))).
Proof.
  intros Hshown. unfold zoomBoxContinue. rewrite Hshown.
  destruct (zoomBoxExtent v x y) as [w h]. reflexivity.
Qed.

(** C8: while the zoom box is shown, for an end point distinct from the
    start corner, the extent [(w, h)] that [zoomBoxContinue] computes, and
    whose absolute values it stores as the size of the box, has
    [|w| / |h|] equal to the aspect ratio (exactly, the arithmetic being
    exact), [w] has the sign of the horizontal drag and [h] that of the
    vertical drag. *)
Theorem zoomBox_aspect_locked (v : @View R) (x y : Z) :
  m_zoomBoxIsShown v = true ->
  (0 < m_aspectRatio v)%R ->
  Int.fits (x - vx (m_zoomBoxStartCorner v)) ->
  Int.fits (y - vy (m_zoomBoxStartCorner v)) ->
  mkVector2 x y <> m_zoomBoxStartCorner v ->
  let w := fst (zoomBoxExtent v x y) in
  let h := snd (zoomBoxExtent v x y) in
  shape_size (m_zoomBoxShape (zoomBoxContinue v x y)) = mkVector2 (Rabs w) (Rabs h)
  /\ Rabs h <> 0%R
  /\ (Rabs w / Rabs h)%R = m_aspectRatio v
  /\ (x < vx (m_zoomBoxStartCorner v) -> (w < 0)%R)
  /\ (vx (m_zoomBoxStartCorner v) < x -> (0 < w)%R)
  /\ (y < vy (m_zoomBoxStartCorner v) -> (h < 0)%R)
  /\ (vy (m_zoomBoxStartCorner v) < y -> (0 < h)%R).
Proof.
  intros Hshown Ha Hfx Hfy Hne w h.
  split; [now apply zoomBoxContinue_shape |].
  subst w h. unfold zoomBoxExtent.
  rewrite (int_sub_fits _ _ Hfx), (int_sub_fits _ _ Hfy).
  destruct (m_zoomBoxStartCorner v) as [sx sy]. cbn [vx vy] in *.
  cbn [rltb rabs rmul rdiv rsignbit of_int R_Real].
  set (a := m_aspectRatio v) in *.
  set (w0 := IZR (x - sx)). set (h0 := IZR (y - sy)).
  assert (Hw0 : (x < sx -> (w0 < 0)%R) /\ (sx < x -> (0 < w0)%R) /\ (x = sx -> w0 = 0%R)).
  { unfold w0; repeat split; intros.
    - apply IZR_lt; lia. - apply IZR_lt; lia. - now replace (x - sx) with 0 by lia. }
  assert (Hh0 : (y < sy -> (h0 < 0)%R) /\ (sy < y -> (0 < h0)%R) /\ (y = sy -> h0 = 0%R)).
  { unfold h0; repeat split; intros.
    - apply IZR_lt; lia. - apply IZR_lt; lia. - now replace (y - sy) with 0 by lia. }
  assert (Hdist : w0 <> 0%R \/ h0 <> 0%R).
  { destruct (Z.eq_dec x sx) as [-> | Hx].
    - right. destruct (Z.eq_dec y sy) as [-> | Hy]; [now elim Hne |].
      unfold h0. apply not_0_IZR. lia.
    - left. unfold w0. apply not_0_IZR. lia. }
  clearbody w0 h0.
  pose proof (Rabs_pos w0) as Pw. pose proof (Rabs_pos h0) as Ph.
  assert (Zw : Rabs w0 = 0%R -> w0 = 0%R).
  { intros E. destruct (Req_dec w0 0) as [? | N]; [assumption |].
    apply Rabs_no_R0 in N. contradiction. }
  assert (Zh : Rabs h0 = 0%R -> h0 = 0%R).
  { intros E. destruct (Req_dec h0 0) as [? | N]; [assumption |].
    apply Rabs_no_R0 in N. contradiction. }
  destruct (ExactReal.R_ltb (Rabs w0) (a * Rabs h0)) eqn:Ecmp; cbn [fst snd].
  - apply R_ltb_true in Ecmp.
    assert (Hpos : (0 < Rabs h0)%R) by nra.
    assert (Hprod : (0 < Rabs h0 * a)%R) by nra.
    destruct (ExactReal.R_ltb w0 0) eqn:Esgn.
    + apply R_ltb_true in Esgn.
      replace (Rabs h0 * a * -1)%R with (- (Rabs h0 * a))%R by ring.
      rewrite Rabs_Ropp, (Rabs_right (Rabs h0 * a)) by lra.
      repeat apply conj; intros; try lra; try tauto.
      * field. lra.
      * destruct Hw0 as (_ & Hw & _). specialize (Hw ltac:(assumption)). lra.
    + apply R_ltb_false in Esgn.
      replace (Rabs h0 * a * 1)%R with (Rabs h0 * a)%R by ring.
      rewrite (Rabs_right (Rabs h0 * a)) by lra.
      repeat apply conj; intros; try lra; try tauto.
      * field. lra.
      * destruct Hw0 as (Hw & _ & _). specialize (Hw ltac:(assumption)). lra.
  - apply R_ltb_false in Ecmp.
    assert (Hwpos : (0 < Rabs w0)%R).
    { destruct (Req_dec (Rabs w0) 0) as [E | N]; [| lra].
      exfalso. rewrite E in Ecmp.
      assert (Rabs h0 = 0%R) by nra.
      destruct Hdist as [D | D]; [apply D; now apply Zw | apply D; now apply Zh]. }
    assert (Hq : (0 < Rabs w0 / a)%R) by (apply Rdiv_lt_0_compat; assumption).
    destruct (ExactReal.R_ltb h0 0) eqn:Esgn.
    + apply R_ltb_true in Esgn.
      replace (Rabs w0 / a * -1)%R with (- (Rabs w0 / a))%R by ring.
      rewrite Rabs_Ropp, (Rabs_right (Rabs w0 / a)) by lra.
      repeat apply conj; intros; try lra; try tauto.
      * field. lra.
      * destruct Hh0 as (_ & Hh & _). specialize (Hh ltac:(assumption)). lra.
    + apply R_ltb_false in Esgn.
      replace (Rabs w0 / a * 1)%R with (Rabs w0 / a)%R by ring.
      rewrite (Rabs_right (Rabs w0 / a)) by lra.
      repeat apply conj; intros; try lra; try tauto.
      * field. lra.
      * destruct Hh0 as (Hh & _ & _). specialize (Hh ltac:(assumption)). lra.
Qed.

Lemma zoomBox_aspect_locked_witness :
  let v := zoomBoxBegin (View_new (-1 / 2)%R 0%R 1%R 800 600) 100 100 in
  (Rabs (fst (zoomBoxExtent v 200 120)) / Rabs (snd (zoomBoxExtent v 200 120)))%R
  = m_aspectRatio v
  /\ (0 < fst (zoomBoxExtent v 200 120))%R
  /\ (0 < snd (zoomBoxExtent v 200 120))%R.
Proof.
  intros v.
  destruct (zoomBox_aspect_locked v 200 120) as (_ & _ & Hr & _ & Hw & _ & Hh).
  - reflexivity.
  - cbn. lra.
  - cbn. unfold Int.fits, Int.INT_MIN, Int.INT_MAX. lia.
  - cbn. unfold Int.fits, Int.INT_MIN, Int.INT_MAX. lia.
  - cbn. discriminate.
  - repeat apply conj; [exact Hr | apply Hw; cbn; lia | apply Hh; cbn; lia].
Defined.

(** A zoom box dragged back onto its start corner has its end corner there. *)
Lemma zoomBoxContinue_at_start (v : @View R) (x y : Z) :
  m_zoomBoxIsShown v = true ->
  m_zoomBoxStartCorner v = mkVector2 x y ->
  Int.fits x -> Int.fits y ->
  (0 < m_aspectRatio v)%R ->
  m_zoomBoxEndCorner (zoomBoxContinue v x y) = mkVector2 x y.
Proof.
  intros Hshown Hstart Hx Hy Ha.
  unfold zoomBoxContinue, zoomBoxExtent. rewrite Hshown, Hstart. cbn [vx vy].
  unfold Int.sub. rewrite !Z.sub_diag.
  change (Int.wrap_int 0) with 0.
  cbn [rltb rabs rmul rdiv rsignbit of_int R_Real].
  rewrite Rabs_R0, Rmult_0_r.
  replace (ExactReal.R_ltb 0 0) with false by (symmetry; apply R_ltb_false; lra).
  cbn [m_zoomBoxEndCorner set_zoomBoxShape set_zoomBoxEndCorner to_int R_Real].
  replace (0 / m_aspectRatio v * 1)%R with (IZR 0) by (field; lra).
  rewrite R_to_int_IZR by (unfold Int.fits, Int.INT_MIN, Int.INT_MAX; lia).
  unfold Int.add. rewrite !Z.add_0_r, !wrap_int_fits by assumption.
  reflexivity.
Qed.

(** Ending a shown zoom box on its start corner changes neither centre,
    scale, zoom, viewport, dirty flag, screen size nor aspect ratio; it only
    hides the box. *)
Lemma zoomBoxEnd_degenerate (v : @View R) (x y : Z) :
  m_zoomBoxIsShown v = true ->
  m_zoomBoxStartCorner v = mkVector2 x y ->
  Int.fits x -> Int.fits y ->
  (0 < m_aspectRatio v)%R ->
  let v' := zoomBoxEnd v x y in
  m_centre v' = m_centre v
  /\ m_scale v' = m_scale v
  /\ m_zoom v' = m_zoom v
  /\ m_rect v' = m_rect v
  /\ m_dirty v' = m_dirty v
  /\ m_screenSize v' = m_screenSize v
  /\ m_aspectRatio v' = m_aspectRatio v
  /\ m_zoomBoxIsShown v' = false.
Proof.
  intros Hshown Hstart Hx Hy Ha v'. subst v'. unfold zoomBoxEnd.
  pose proof (zoomBoxContinue_at_start v x y Hshown Hstart Hx Hy Ha) as Eend.
  destruct (zoomBoxContinue_navigation v x y)
    as (Ed & Es & Ez & Ec & Er & Esz & Easp & Est).
  set (v1 := zoomBoxContinue v x y) in *.
  rewrite Eend, Est, Hstart. cbn [vx vy].
  unfold Int.sub. rewrite Z.sub_diag.
  change (Int.abs (Int.wrap_int 0)) with 0.
  replace (ZERO <? of_int 0)%re with false
    by (symmetry; apply R_ltb_false; unfold ZERO; cbn; lra).
  cbn. repeat apply conj; assumption || reflexivity.
Qed.

(** C9 after a cancelled drag, on [View(-0.5, 0, 1, 800, 600)]:
    [zoomBoxBegin(10, 10)], [zoomBoxContinue(110, 85)] and [zoomBoxCancel()]
    leave the box hidden, with the corners [(10, 10)] and [(110, 85)] of the
    drag.  [zoomBoxEnd(10, 10)], whose end point is the start corner, then
    moves the centre from [-0.5 + 0i] to the plane point of pixel [(60, 47)]
    and takes the scale from 2 to 0.25: with the box hidden
    [zoomBoxContinue] does not bring the end corner to the end point, and
    [zoomBoxEnd] goes on with the corners of the cancelled drag. *)
Theorem zoomBoxEnd_after_cancel :
  let v := View_new (-1 / 2)%R 0%R 1%R 800 600 in
  let vc := zoomBoxCancel (zoomBoxContinue (zoomBoxBegin v 10 10) 110 85) in
  m_zoomBoxIsShown vc = false
  /\ m_zoomBoxStartCorner vc = mkVector2 10 10
  /\ m_zoomBoxEndCorner vc = mkVector2 110 85
  /\ m_centre vc = mkVector2 (-1 / 2)%R 0%R
  /\ m_scale vc = 2%R
  /\ m_centre (zoomBoxEnd vc 10 10) = mkVector2 (- 83 / 30)%R (- 253 / 150)%R
  /\ m_scale (zoomBoxEnd vc 10 10) = (1 / 4)%R.
Proof.
  intros v vc.
  assert (Eext : zoomBoxExtent (zoomBoxBegin v 10 10) 110 85 = (100%R, 75%R)).
  { unfold zoomBoxExtent. cbn -[Rabs].
    change (Int.sub 110 10) with 100. change (Int.sub 85 10) with 75.
    rewrite !Rabs_right by lra.
    replace (ExactReal.R_ltb 100 (800 / 600 * 75)) with false
      by (symmetry; apply R_ltb_false; lra).
    replace (ExactReal.R_ltb 75 0) with false
      by (symmetry; apply R_ltb_false; lra).
    f_equal. field. }
  destruct (zoomBoxContinue_navigation (zoomBoxBegin v 10 10) 110 85)
    as (_ & Es & _ & Ec & _ & Esz & _ & Est).
  assert (Eend : m_zoomBoxEndCorner vc = mkVector2 110 85).
  { subst vc. unfold zoomBoxCancel, zoomBoxContinue.
    cbn [m_zoomBoxIsShown zoomBoxBegin set_zoomBoxStartCorner set_zoomBoxIsShown].
    rewrite Eext.
    cbn [m_zoomBoxEndCorner set_zoomBoxIsShown set_zoomBoxShape set_zoomBoxEndCorner
         m_zoomBoxStartCorner zoomBoxBegin set_zoomBoxStartCorner vx vy to_int R_Real].
    rewrite !R_to_int_IZR by (unfold Int.fits, Int.INT_MIN, Int.INT_MAX; lia).
    reflexivity. }
  assert (Estart : m_zoomBoxStartCorner vc = mkVector2 10 10).
  { subst vc. unfold zoomBoxCancel. cbn [m_zoomBoxStartCorner set_zoomBoxIsShown].
    rewrite Est. reflexivity. }
  assert (Esc : m_scale vc = 2%R).
  { subst vc. unfold zoomBoxCancel. cbn [m_scale set_zoomBoxIsShown]. rewrite Es.
    cbn. apply Rpower_1. lra. }
  assert (Ece : m_centre vc = mkVector2 (-1 / 2)%R 0%R).
  { subst vc. unfold zoomBoxCancel. cbn [m_centre set_zoomBoxIsShown]. rewrite Ec.
    reflexivity. }
  assert (Essz : m_screenSize vc = mkVector2 800 600).
  { subst vc. unfold zoomBoxCancel. cbn [m_screenSize set_zoomBoxIsShown].
    rewrite Esz. reflexivity. }
  assert (Enc : zoomBoxContinue vc 10 10 = vc) by reflexivity.
  assert (Eh : @rltb R _ ZERO (of_int 75) = true)
    by (apply R_ltb_true; unfold ZERO; cbn; lra).
  repeat apply conj; try assumption.
  - reflexivity.
  - unfold zoomBoxEnd. rewrite Enc, Eend, Estart. cbn [vx vy].
    change (Int.abs (Int.sub 85 10)) with 75. rewrite Eh.
    cbn [m_centre set_zoomBoxShape set_zoomBoxIsShown setScale moveTo_z updateViewport
         set_rect set_dirty set_zoom set_scale set_centre].
    unfold complexAtPixel_p. rewrite Essz, Esc, Ece. cbn [vx vy].
    change (Int.div (Int.add 10 110) 2) with 60.
    change (Int.div (Int.add 10 85) 2) with 47.
    change (Int.sub (Int.mul 2 60) 800) with (-680).
    change (Int.sub (Int.mul 2 47) 600) with (-506).
    cbn [radd rmul rdiv of_int R_Real]. f_equal; lra.
  - unfold zoomBoxEnd. rewrite Enc, Eend, Estart. cbn [vx vy].
    change (Int.abs (Int.sub 85 10)) with 75. rewrite Eh.
    cbn [m_scale set_zoomBoxShape set_zoomBoxIsShown setScale moveTo_z updateViewport
         set_rect set_dirty set_zoom set_scale set_centre of_int rmul rdiv R_Real
         m_screenSize vy].
    rewrite Esc, Essz. cbn [vy]. lra.
Qed.

(** ** Pixel buffer *)

Lemma length_store (buf : list Z) (i b : Z) : length (store buf i b) = length buf.
Proof. unfold store. destruct (i <? 0); [reflexivity | apply length_insert]. Qed.

Lemma load_store_eq (buf : list Z) (i b : Z) :
  0 <= i < Z.of_nat (length buf) -> load (store buf i b) i = Some b.
Proof.
  intros Hi. unfold load, store.
  destruct (i <? 0) eqn:E; [lia |].
  apply list_lookup_insert_eq. lia.
Qed.

Lemma load_store_ne (buf : list Z) (i j b : Z) :
  i <> j -> load (store buf i b) j = load buf j.
Proof.
  intros Hij. unfold load, store.
  destruct (j <? 0) eqn:Ej; [reflexivity |].
  destruct (i <? 0) eqn:Ei; [reflexivity |].
  apply list_lookup_insert_ne. lia.
Qed.

Lemma pixel_number_bound (W H x y : Z) :
  0 <= x < W -> 0 <= y < H -> 0 <= y * W + x < W * H.
Proof. intros Hx Hy. nia. Qed.

Lemma pixel_number_inj (W x y x' y' : Z) :
  0 <= x < W -> 0 <= x' < W -> y * W + x = y' * W + x' -> x = x' /\ y = y'.
Proof. intros Hx Hx' E. assert (y = y') by nia. subst. lia. Qed.

Lemma currentPixel_offset (W H x y : Z) :
  0 <= x < W -> 0 <= y < H -> 4 * W * H <= Int.INT_MAX ->
  Int.mul 4 (Int.add (Int.mul y W) x) = pixel_offset W x y.
Proof.
  intros Hx Hy Hsz. pose proof (pixel_number_bound W H x y Hx Hy) as Hp.
  assert (HyW : 0 <= y * W <= y * W + x) by nia.
  unfold Int.mul, Int.add, pixel_offset, Int.INT_MAX in *.
  rewrite (wrap_int_fits (y * W)) by (unfold Int.fits, Int.INT_MIN, Int.INT_MAX; lia).
  rewrite (wrap_int_fits (y * W + x)) by (unfold Int.fits, Int.INT_MIN, Int.INT_MAX; lia).
  apply wrap_int_fits. unfold Int.fits, Int.INT_MIN, Int.INT_MAX. lia.
Qed.

Section RenderFacts.

Context {T : Type} `{RM : RealMath T}.

Variables (v : @View T) (Wd Ht : Z).
Hypothesis Hsize : 4 * Wd * Ht <= Int.INT_MAX.

Local Abbreviation rendered := (pixel_rendered v Wd).
Local Abbreviation allocated := (buffer_allocated Wd Ht).

Lemma render_pixel_allocated (buf : list Z) (x y : Z) :
  allocated buf -> allocated (render_pixel v Wd y buf x).
Proof.
  unfold buffer_allocated, render_pixel. intros Hl. now rewrite !length_store.
Qed.

Lemma render_pixel_here (buf : list Z) (x y : Z) :
  0 <= x < Wd -> 0 <= y < Ht -> allocated buf ->
  rendered (render_pixel v Wd y buf x) x y.
Proof.
  intros Hx Hy Hl. unfold buffer_allocated in Hl.
  pose proof (pixel_number_bound Wd Ht x y Hx Hy) as Hp.
  unfold pixel_rendered, pixel_stored, render_pixel.
  rewrite (currentPixel_offset Wd Ht x y Hx Hy Hsize).
  set (off := pixel_offset Wd x y).
  assert (Hoff : 0 <= off /\ off + 3 < 4 * Wd * Ht) by (unfold off, pixel_offset; lia).
  repeat apply conj.
  - rewrite !load_store_ne by lia. apply load_store_eq. lia.
  - rewrite !load_store_ne by lia. apply load_store_eq. rewrite length_store. lia.
  - rewrite !load_store_ne by lia. apply load_store_eq. rewrite !length_store. lia.
  - apply load_store_eq. rewrite !length_store. lia.
Qed.

Lemma render_pixel_keeps (buf : list Z) (x y x' y' : Z) :
  0 <= x < Wd -> 0 <= y < Ht -> 0 <= x' < Wd -> 0 <= y' < Ht -> allocated buf ->
  rendered buf x' y' -> rendered (render_pixel v Wd y buf x) x' y'.
Proof.
  intros Hx Hy Hx' Hy' Hl Hold.
  destruct (Z.eq_dec (y * Wd + x) (y' * Wd + x')) as [E | N].
  - apply pixel_number_inj in E; [| assumption | assumption].
    destruct E as [-> ->]. now apply render_pixel_here.
  - unfold pixel_rendered, pixel_stored, render_pixel in *.
    rewrite (currentPixel_offset Wd Ht x y Hx Hy Hsize).
    unfold pixel_offset in *.
    rewrite !load_store_ne by lia. exact Hold.
Qed.

(** The inner loop over a list of columns. *)
Lemma render_columns (y : Z) (xs : list Z) :
  0 <= y < Ht -> (forall x, x ∈ xs -> 0 <= x < Wd) ->
  forall buf, allocated buf ->
    let buf' := fold_left (render_pixel v Wd y) xs buf in
    allocated buf'
    /\ (forall x' y', 0 <= x' < Wd -> 0 <= y' < Ht ->
                      rendered buf x' y' -> rendered buf' x' y')
    /\ (forall x, x ∈ xs -> rendered buf' x y).
Proof.
  intros Hy. induction xs as [| x xs IH]; intros Hxs buf Hl; cbn [fold_left].
  - repeat apply conj; [assumption | auto | intros x Hx; inversion Hx].
  - assert (Hx : 0 <= x < Wd) by (apply Hxs; left).
    destruct (IH (fun x' Hin => Hxs x' (list_elem_of_further _ _ _ Hin))
                 (render_pixel v Wd y buf x) (render_pixel_allocated _ _ _ Hl))
      as (Hl' & Hkeep & Hnew).
    repeat apply conj.
    + exact Hl'.
    + intros x' y' Hx' Hy' Hold. apply Hkeep; try assumption.
      now apply render_pixel_keeps.
    + intros x0 Hin. apply elem_of_cons in Hin as [-> | Hin].
      * apply Hkeep; try assumption. now apply render_pixel_here.
      * now apply Hnew.
Qed.

Lemma render_row_spec (y : Z) (buf : list Z) :
  0 <= y < Ht -> allocated buf ->
  allocated (render_row v Wd buf y)
  /\ (forall x' y', 0 <= x' < Wd -> 0 <= y' < Ht ->
                    rendered buf x' y' -> rendered (render_row v Wd buf y) x' y')
  /\ (forall x, 0 <= x < Wd -> rendered (render_row v Wd buf y) x y).
Proof.
  intros Hy Hl. unfold render_row.
  destruct (render_columns y (seqZ 0 Wd) Hy
              (fun x Hin => proj1 (elem_of_seqZ 0 Wd x) Hin) buf Hl)
    as (Hl' & Hkeep & Hnew).
  repeat apply conj; [assumption | assumption |].
  intros x Hx. apply Hnew. apply elem_of_seqZ. lia.
Qed.

(** The outer loop, for rows taken in any order and never cancelled. *)
Lemma render_rows_spec (cancelling : Z -> bool) (rows : list Z) :
  (forall y, cancelling y = false) ->
  (forall y, y ∈ rows -> 0 <= y < Ht) ->
  forall buf, allocated buf ->
    let buf' := render_rows v Wd cancelling rows buf in
    allocated buf'
    /\ (forall x' y', 0 <= x' < Wd -> 0 <= y' < Ht ->
                      rendered buf x' y' -> rendered buf' x' y')
    /\ (forall x y, 0 <= x < Wd -> y ∈ rows -> rendered buf' x y).
Proof.
  intros Hnc. induction rows as [| y rows IH]; intros Hrows buf Hl;
    cbn [render_rows].
  - repeat apply conj; [assumption | auto | intros x y _ Hin; inversion Hin].
  - rewrite Hnc.
    assert (Hy : 0 <= y < Ht) by (apply Hrows; left).
    destruct (render_row_spec y buf Hy Hl) as (Hl1 & Hkeep1 & Hnew1).
    destruct (IH (fun y' Hin => Hrows y' (list_elem_of_further _ _ _ Hin))
                 (render_row v Wd buf y) Hl1) as (Hl' & Hkeep & Hnew).
    repeat apply conj.
    + exact Hl'.
    + intros x' y' Hx' Hy' Hold. apply Hkeep; try assumption.
      now apply Hkeep1.
    + intros x y0 Hx Hin. apply elem_of_cons in Hin as [-> | Hin].
      * apply Hkeep; try assumption. now apply Hnew1.
      * now apply Hnew.
Qed.

End RenderFacts.

(** ** A completed render pass *)

(** [hueToRGB(360)] falls in the [default] branch of the switch. *)
Lemma hueToRGB_360 : hueToRGB (360 * 1)%R = mkColor 0 0 0 255.
Proof.
  unfold hueToRGB. cbn [to_int R_Real].
  replace (360 * 1)%R with (IZR 360) by lra.
  rewrite R_to_int_IZR by (unfold Int.fits, Int.INT_MIN, Int.INT_MAX; lia).
  reflexivity.
Qed.

(** The colour [render] stores is [hueToRGB(360 * m)] in both branches of
    its [if (m < 1)]: the evaluator returns at most [1.0], and at [1.0] the
    default black is what the hue ramp gives too. *)
Lemma pixelColour_hue (v : @View R) (x y : Z) :
  pixelColour v x y
  = hueToRGB (360 * mandelbrot v (complexAtPixel v x y))%R.
Proof.
  unfold pixelColour. cbn [rltb rmul of_int R_Real].
  destruct (ExactReal.R_ltb (mandelbrot v (complexAtPixel v x y)) 1) eqn:E.
  - reflexivity.
  - apply R_ltb_false in E.
    destruct (mandelbrot_unit_interval v (complexAtPixel v x y)) as [_ Hle].
    replace (mandelbrot v (complexAtPixel v x y)) with 1%R by lra.
    symmetry. apply hueToRGB_360.
Qed.

(** In [double] as in exact arithmetic, [1.0 < 1.0] is false. *)
Lemma one_not_below_one :
  @rltb Binary64.double _ (of_int 1) (of_int 1) = false
  /\ @rltb R _ (of_int 1) (of_int 1) = false.
Proof. split; [vm_compute; reflexivity | apply R_ltb_false; cbn; lra]. Qed.

Section RenderCompleted.

Context {T : Type} `{RM : RealMath T}.

Local Open Scope real_scope.

(** C6, for any [Real] whose [1.0 < 1.0] is false: after a render pass that
    is never cancelled, whatever the order in which the rows are taken, the
    pass ends in state [Completed] and every pixel [(x, y)] of the buffer
    holds, with [m = mandelbrot(complexAtPixel(x, y))] computed in that
    arithmetic: the red, green and blue of [hueToRGB(360 * m)] where
    [m < 1]; black otherwise, and so where [m] is exactly [1.0]; and the
    alpha byte [0xFF] in either case. *)
Theorem render_completed (rd : @MandelbrotRenderer T) (cancelling : Z -> bool)
  (rows : list Z) :
  (of_int 1 <? of_int 1) = false ->
  4 * m_width rd * m_height rd <= Int.INT_MAX ->
  buffer_allocated (m_width rd) (m_height rd) (m_renderingPixels rd) ->
  (forall y, cancelling y = false) ->
  (forall y, y ∈ rows <-> 0 <= y < m_height rd) ->
  let rd' := render rd cancelling rows in
  m_renderingState rd' = Completed
  /\ forall x y, 0 <= x < m_width rd -> 0 <= y < m_height rd ->
       let m := mandelbrot (m_renderingView rd)
                  (complexAtPixel (m_renderingView rd) x y) in
       ((m <? of_int 1) = true ->
        pixel_stored (m_renderingPixels rd') (m_width rd)
          (hueToRGB (of_int 360 * m)) x y)
       /\ ((m <? of_int 1) = false ->
           pixel_stored (m_renderingPixels rd') (m_width rd) (mkColor 0 0 0 255) x y)
       /\ (m = of_int 1 ->
           pixel_stored (m_renderingPixels rd') (m_width rd) (mkColor 0 0 0 255) x y)
       /\ load (m_renderingPixels rd') (pixel_offset (m_width rd) x y + 3) = Some 255.
Proof.
  intros Hone Hsize Hl Hnc Hrows rd'. split; [reflexivity |].
  intros x y Hx Hy m.
  destruct (render_rows_spec (m_renderingView rd) (m_width rd) (m_height rd)
              Hsize cancelling rows Hnc (fun y' Hin => proj1 (Hrows y') Hin)
              (m_renderingPixels rd) Hl) as (_ & _ & Hnew).
  specialize (Hnew x y Hx (proj2 (Hrows y) Hy)).
  unfold pixel_rendered, pixelColour in Hnew. fold m in Hnew.
  change (m_renderingPixels rd')
    with (render_rows (m_renderingView rd) (m_width rd) cancelling rows
            (m_renderingPixels rd)).
  assert (Hfalse : (m <? of_int 1) = false ->
            pixel_stored
              (render_rows (m_renderingView rd) (m_width rd) cancelling rows
                 (m_renderingPixels rd)) (m_width rd) (mkColor 0 0 0 255) x y).
  { intros E. rewrite E in Hnew. exact Hnew. }
  repeat apply conj.
  - intros E. rewrite E in Hnew. exact Hnew.
  - exact Hfalse.
  - intros E. apply Hfalse. rewrite E. exact Hone.
  - destruct Hnew as (_ & _ & _ & Ha). exact Ha.
Qed.

End RenderCompleted.

Lemma render_completed_witness :
  let rd := mkRenderer 2 2 (repeat 0 16) (View_new (-1 / 2)%R 0%R 1%R 2 2) Rendering in
  let rd' := render rd (fun _ => false) [1; 0] in
  m_renderingState rd' = Completed
  /\ load (m_renderingPixels rd') (pixel_offset 2 1 1 + 3) = Some 255.
Proof.
  intros rd rd'.
  destruct (render_completed rd (fun _ => false) [1; 0]) as (Hst & Hpx).
  - apply R_ltb_false. cbn. lra.
  - cbn. unfold Int.INT_MAX. lia.
  - reflexivity.
  - reflexivity.
  - intros y. cbn [m_height rd]. rewrite !elem_of_cons, elem_of_nil. lia.
  - split; [exact Hst |].
    destruct (Hpx 1 1) as (_ & _ & _ & Ha); [cbn; lia | cbn; lia |].
    exact Ha.
Defined.

(* ================================================================== *)
(** * Further properties of the code *)

(** ** View: how the mutators compose (exact arithmetic) *)

(** The invariant [view_wf] is established by the constructor on a real
    screen and kept by every mutator that ends in [updateViewport];
    [resizeScreen] keeps it when given a real screen. *)
Theorem view_wf_invariant (v : @View R) :
  (forall x y zoom W H, 0 < W <= Int.INT_MAX -> 0 < H <= Int.INT_MAX ->
                        view_wf (View_new x y zoom W H))
  /\ (view_wf v ->
      (forall x y, view_wf (moveTo v x y))
      /\ (forall p, view_wf (moveTo_z v p))
      /\ (forall dx dy, view_wf (moveBy v dx dy))
      /\ (forall d, view_wf (moveBy_z v d))
      /\ (forall z, view_wf (zoomTo v z))
      /\ (forall dz, view_wf (zoomBy v dz))
      /\ (forall s, view_wf (setScale v s))
      /\ (forall x y, view_wf (zoomBoxEnd v x y))
      /\ (forall w h, 0 < w <= Int.INT_MAX -> 0 < h <= Int.INT_MAX ->
                      view_wf (resizeScreen v w h))).
Proof.
  split.
  - intros x y zoom W H HW HH. unfold view_wf. cbn. auto.
  - intros (HW & HH & Ha & Hr).
    repeat apply conj; intros; unfold view_wf;
      try (cbn; refine (conj _ (conj _ (conj _ _))); first [assumption | reflexivity]).
    unfold zoomBoxEnd.
    destruct (zoomBoxContinue_navigation v x y)
      as (Ed & Es & Ez & Ec & Er & Esz & Easp & Est).
    set (v1 := zoomBoxContinue v x y) in *.
    destruct (ZERO <? _)%re; cbn; rewrite ?Esz, ?Easp, ?Er, ?Es, ?Ec;
      refine (conj _ (conj _ (conj _ _))); first [assumption | reflexivity].
Qed.

Lemma view_wf_invariant_witness :
  view_wf (zoomBy (moveBy (View_new (-1 / 2)%R 0%R 1%R 800 600) (1 / 4)%R 0%R) (-1)%R).
Proof.
  destruct (view_wf_invariant (moveBy (View_new (-1 / 2)%R 0%R 1%R 800 600) (1 / 4)%R 0%R))
    as [Hnew Hkeep].
  destruct Hkeep as (_ & _ & _ & _ & _ & Hz & _).
  - destruct (view_wf_invariant (View_new (-1 / 2)%R 0%R 1%R 800 600)) as [_ Hk].
    destruct Hk as (_ & _ & Hm & _).
    + apply Hnew; unfold Int.INT_MAX; lia.
    + apply Hm.
  - apply Hz.
Defined.

(** Pans add up: two [moveBy] in a row are one [moveBy] by the sum, the
    [Complex] overload does what the two-argument one does, and panning
    back by the opposite amount restores the centre. *)
Theorem moveBy_additive (v : @View R) (dx1 dy1 dx2 dy2 : R) :
  moveBy (moveBy v dx1 dy1) dx2 dy2 = moveBy v (dx1 + dx2)%R (dy1 + dy2)%R
  /\ moveBy_z v (mkVector2 dx1 dy1) = moveBy v dx1 dy1
  /\ m_centre (moveBy (moveBy v dx1 dy1) (- dx1)%R (- dy1)%R) = m_centre v.
Proof.
  repeat apply conj.
  - unfold moveBy, updateViewport, Rect_of_position_size. cbn.
    replace (vx (m_centre v) + dx1 * m_scale v + dx2 * m_scale v)%R
      with (vx (m_centre v) + (dx1 + dx2) * m_scale v)%R by ring.
    replace (vy (m_centre v) + dy1 * m_scale v + dy2 * m_scale v)%R
      with (vy (m_centre v) + (dy1 + dy2) * m_scale v)%R by ring.
    reflexivity.
  - reflexivity.
  - cbn. destruct (m_centre v) as [cx cy]. cbn. f_equal; ring.
Qed.

(** [setScale] and [zoomTo] undo each other: setting the scale a zoom level
    gave restores that zoom level, and zooming to the level a positive scale
    gave restores that scale. *)
Theorem setScale_zoomTo_inverse (v : @View R) :
  (forall z, setScale (zoomTo v z) (getScale (zoomTo v z)) = zoomTo v z)
  /\ (forall s, (0 < s)%R ->
                zoomTo (setScale v s) (getZoom (setScale v s)) = setScale v s).
Proof.
  assert (Hln2 : ln 2 <> 0%R) by (apply ln_neq_0; lra).
  split.
  - intros z.
    assert (E : ExactReal.R_log2 (Rpower 2 z) = z).
    { unfold ExactReal.R_log2. rewrite ln_Rpower. field. exact Hln2. }
    unfold setScale, zoomTo, getScale, updateViewport. cbn -[Rpower ExactReal.R_log2].
    rewrite E. reflexivity.
  - intros s Hs.
    assert (E : Rpower 2 (ExactReal.R_log2 s) = s).
    { unfold Rpower, ExactReal.R_log2.
      replace (ln s / ln 2 * ln 2)%R with (ln s) by (field; exact Hln2).
      apply exp_ln. exact Hs. }
    unfold setScale, zoomTo, getZoom, updateViewport. cbn -[Rpower ExactReal.R_log2].
    rewrite E. reflexivity.
Qed.

(** [resizeScreen] keeps the plane size of a pixel, [scale / screenHeight];
    it sets the aspect ratio to that of the new screen; and resizing twice
    is resizing once to the last size. *)
Theorem resizeScreen_pixel_pitch (v : @View R) (w1 h1 w2 h2 : Z) :
  vy (m_screenSize v) <> 0 -> h1 <> 0 ->
  (m_scale (resizeScreen v w1 h1) / IZR h1)%R
  = (m_scale v / IZR (vy (m_screenSize v)))%R
  /\ m_aspectRatio (resizeScreen v w1 h1) = (IZR w1 / IZR h1)%R
  /\ m_centre (resizeScreen v w1 h1) = m_centre v
  /\ resizeScreen (resizeScreen v w1 h1) w2 h2 = resizeScreen v w2 h2.
Proof.
  intros HH Hh1.
  assert (HH' : IZR (vy (m_screenSize v)) <> 0%R) by (now apply not_0_IZR).
  assert (Hh1' : IZR h1 <> 0%R) by (now apply not_0_IZR).
  assert (E : (m_scale v * (IZR h1 / IZR (vy (m_screenSize v))) * (IZR h2 / IZR h1))%R
              = (m_scale v * (IZR h2 / IZR (vy (m_screenSize v))))%R)
    by (field; split; assumption).
  repeat apply conj.
  - cbn. field. split; assumption.
  - reflexivity.
  - reflexivity.
  - unfold resizeScreen, updateViewport. cbn. rewrite E. reflexivity.
Qed.

Lemma resizeScreen_pixel_pitch_witness :
  (m_scale (resizeScreen (View_new (-1 / 2)%R 0%R 1%R 800 600) 400 300) / IZR 300)%R
  = (m_scale (View_new (-1 / 2)%R 0%R 1%R 800 600) / IZR 600)%R.
Proof.
  destruct (resizeScreen_pixel_pitch (View_new (-1 / 2)%R 0%R 1%R 800 600)
              400 300 800 600) as (E & _).
  - cbn. lia.
  - lia.
  - exact E.
Defined.

Lemma Rpower_2_opp (x : R) : (1 / Rpower 2 (- x))%R = Rpower 2 x.
Proof.
  rewrite Rpower_Ropp. field. unfold Rpower. apply Rgt_not_eq, exp_pos.
Qed.

(** On whole zoom levels [zoomBy] is exact: from a view at zoom [k], a whole
    step [d] leaves zoom [k + d] and scale [2^(k + d)]; one notch of the
    mouse wheel ([delta = 1]) then halves the scale. *)
Theorem zoomBy_whole_levels (v : @View R) (k d : Z) :
  m_zoom v = IZR k ->
  Int.fits (- (k + d)) ->
  m_zoom (zoomBy v (IZR d)) = IZR (k + d)
  /\ m_scale (zoomBy v (IZR d)) = Rpower 2 (IZR (k + d))
  /\ scale_is_pow2_zoom (zoomBy v (IZR d))
  /\ (d = -1 -> scale_is_pow2_zoom v ->
      handleMouseWheel v 1%R = zoomBy v (IZR d)
      /\ m_scale (handleMouseWheel v 1%R) = (m_scale v / 2)%R).
Proof.
  intros Hz Hfit.
  assert (Ezoom : m_zoom (zoomBy v (IZR d)) = IZR (k + d)).
  { cbn. rewrite Hz, plus_IZR. reflexivity. }
  assert (Escale : m_scale (zoomBy v (IZR d)) = Rpower 2 (IZR (k + d))).
  { cbn -[Rpower ExactReal.R_to_int]. rewrite Hz, <- plus_IZR, <- opp_IZR.
    rewrite R_to_int_IZR by exact Hfit.
    rewrite opp_IZR. unfold TWO. cbn -[Rpower]. apply Rpower_2_opp. }
  repeat apply conj; try assumption.
  - unfold scale_is_pow2_zoom. now rewrite Escale, Ezoom.
  - intros -> Hpow. unfold handleMouseWheel. cbn [rmul of_int R_Real].
    replace (1 * -1)%R with (IZR (-1)) by (cbn; lra).
    split; [reflexivity |].
    rewrite Escale. unfold scale_is_pow2_zoom in Hpow. rewrite Hpow, Hz.
    rewrite plus_IZR. unfold Rpower.
    replace ((IZR k + IZR (-1)) * ln 2)%R with (IZR k * ln 2 + - ln 2)%R by (cbn; ring).
    rewrite exp_plus, exp_Ropp, exp_ln by lra. field.
Qed.

Lemma zoomBy_whole_levels_witness :
  m_scale (zoomBy (View_new (-1 / 2)%R 0%R 1%R 800 600) (IZR (-3))) = Rpower 2 (IZR (1 + -3)).
Proof.
  destruct (zoomBy_whole_levels (View_new (-1 / 2)%R 0%R 1%R 800 600) 1 (-3))
    as (_ & E & _).
  - reflexivity.
  - unfold Int.fits, Int.INT_MIN, Int.INT_MAX. lia.
  - exact E.
Defined.

(** The two overloads of [complexAtPixel] give the same plane point, and so
    do the two overloads of [pixelAtComplex]. *)
Theorem complexAtPixel_overloads (v : @View R) (x y : Z) (z : Complex) :
  vy (m_screenSize v) <> 0 ->
  complexAtPixel_p v (mkVector2 x y) = complexAtPixel v x y
  /\ pixelAtComplex_z v z = pixelAtComplex v (vx z) (vy z).
Proof.
  intros HH. assert (HH' : IZR (vy (m_screenSize v)) <> 0%R) by (now apply not_0_IZR).
  split; [| reflexivity].
  unfold complexAtPixel_p, complexAtPixel. cbn. f_equal; field; assumption.
Qed.

Lemma complexAtPixel_overloads_witness :
  complexAtPixel_p (View_new (-1 / 2)%R 0%R 1%R 800 600) (mkVector2 10 20)
  = complexAtPixel (View_new (-1 / 2)%R 0%R 1%R 800 600) 10 20.
Proof.
  apply (complexAtPixel_overloads (View_new (-1 / 2)%R 0%R 1%R 800 600) 10 20
           (mkVector2 0%R 0%R)).
  cbn. lia.
Defined.

(** One axis of plane -> pixel -> plane: for a point at most [W] pixels
    right of the left edge, the pixel found is on the screen and its plane
    coordinate is the largest pixel coordinate not past the point. *)
Lemma axis_pixel_cell (c s z : R) (W H : Z) :
  (0 < s)%R -> 0 < H -> 0 < W <= Int.INT_MAX ->
  (c - s * (IZR W / IZR H) <= z < c + s * (IZR W / IZR H))%R ->
  let p := ExactReal.R_to_int (1 / 2 * ((z - c) * (IZR H / s) + IZR W)) in
  0 <= p < W
  /\ (c + s / IZR H * IZR (2 * p - W) <= z
      < c + s / IZR H * IZR (2 * (p + 1) - W))%R.
Proof.
  intros Hs HH HW Hz p.
  assert (HH' : (0 < IZR H)%R) by (apply IZR_lt; lia).
  assert (HW' : (0 < IZR W)%R) by (apply IZR_lt; lia).
  set (u := (1 / 2 * ((z - c) * (IZR H / s) + IZR W))%R) in *.
  assert (Ez : z = (c + s / IZR H * (2 * u - IZR W))%R).
  { unfold u. field. split; lra. }
  assert (Hu : (0 <= u < IZR W)%R).
  { assert (Hq : (0 < s / IZR H)%R) by (apply Rdiv_lt_0_compat; assumption).
    assert (E1 : (s * (IZR W / IZR H) = s / IZR H * IZR W)%R) by (field; lra).
    rewrite E1 in Hz. rewrite Ez in Hz. destruct Hz as [Hl Hr]. split; nra. }
  pose proof (base_Int_part u) as [Hfl1 Hfl2].
  assert (Ht : ExactReal.truncR u = Int_part u).
  { unfold ExactReal.truncR. destruct (Rle_dec 0 u); [reflexivity | lra]. }
  assert (Hp0 : 0 <= Int_part u < W).
  { split.
    - apply le_IZR. apply Rnot_lt_le. intros Hneg.
      assert (IZR (Int_part u) <= -1)%R.
      { replace (-1)%R with (IZR (-1)) by reflexivity. apply IZR_le.
        apply lt_IZR in Hneg. lia. }
      lra.
    - apply lt_IZR. lra. }
  assert (Ep : p = Int_part u).
  { unfold p, ExactReal.R_to_int. rewrite Ht.
    replace (Int.fitsb (Int_part u)) with true; [reflexivity |].
    symmetry. apply fitsb_fits. unfold Int.fits, Int.INT_MIN, Int.INT_MAX in *. lia. }
  rewrite Ep. split; [exact Hp0 |].
  rewrite !minus_IZR, !mult_IZR, plus_IZR.
  assert (Hq : (0 < s / IZR H)%R) by (apply Rdiv_lt_0_compat; assumption).
  clear Ep Ht Hz. clearbody u. subst z.
  set (q := (s / IZR H)%R) in *. clearbody q.
  split.
  - apply Rplus_le_compat_l. apply Rmult_le_compat_l; lra.
  - apply Rplus_lt_compat_l. apply Rmult_lt_compat_l; lra.
Qed.

(** Plane -> pixel -> plane: for a point inside the rectangle the screen
    shows, [pixelAtComplex] finds a pixel of the screen, and
    [complexAtPixel] of that pixel and of its lower-right neighbour bracket
    the point: the pixel found is the one whose cell holds the point. *)
Theorem pixel_cell_holds_point (v : @View R) (z : Complex) :
  0 < vx (m_screenSize v) <= Int.INT_MAX ->
  0 < vy (m_screenSize v) <= Int.INT_MAX ->
  (0 < m_scale v)%R ->
  (vx (m_centre v) - m_scale v * (IZR (vx (m_screenSize v)) / IZR (vy (m_screenSize v)))
   <= vx z
   < vx (m_centre v) + m_scale v * (IZR (vx (m_screenSize v)) / IZR (vy (m_screenSize v))))%R ->
  (vy (m_centre v) - m_scale v <= vy z < vy (m_centre v) + m_scale v)%R ->
  let p := pixelAtComplex_z v z in
  0 <= vx p < vx (m_screenSize v)
  /\ 0 <= vy p < vy (m_screenSize v)
  /\ (vx (complexAtPixel v (vx p) (vy p)) <= vx z
      < vx (complexAtPixel v (vx p + 1) (vy p + 1)))%R
  /\ (vy (complexAtPixel v (vx p) (vy p)) <= vy z
      < vy (complexAtPixel v (vx p + 1) (vy p + 1)))%R.
Proof.
  intros HW HH Hs Hzx Hzy p.
  destruct (axis_pixel_cell (vx (m_centre v)) (m_scale v) (vx z)
              (vx (m_screenSize v)) (vy (m_screenSize v)) Hs ltac:(lia) HW Hzx)
    as (Hpx & Hcx).
  assert (Hzy' : (vy (m_centre v)
                  - m_scale v * (IZR (vy (m_screenSize v)) / IZR (vy (m_screenSize v)))
                  <= vy z
                  < vy (m_centre v)
                    + m_scale v * (IZR (vy (m_screenSize v)) / IZR (vy (m_screenSize v))))%R).
  { assert (IZR (vy (m_screenSize v)) <> 0%R) by (apply not_0_IZR; lia).
    replace (IZR (vy (m_screenSize v)) / IZR (vy (m_screenSize v)))%R with 1%R
      by (field; assumption).
    lra. }
  destruct (axis_pixel_cell (vy (m_centre v)) (m_scale v) (vy z)
              (vy (m_screenSize v)) (vy (m_screenSize v)) Hs ltac:(lia) HH Hzy')
    as (Hpy & Hcy).
  subst p. unfold pixelAtComplex_z, pixelAtComplex, complexAtPixel.
  cbn [vx vy]. unfold HALF, literal. cbn [radd rsub rmul rdiv of_int to_int R_Real].
  set (px := ExactReal.R_to_int _) in *. set (py := ExactReal.R_to_int _) in *.
  assert (Esub : forall q W, 0 <= q <= W -> W <= Int.INT_MAX ->
                             Int.sub (Int.mul 2 q) W = 2 * q - W).
  { intros q W Hq HWm. unfold Int.sub, Int.mul.
    rewrite wrap_int_sub_l. apply wrap_int_fits.
    unfold Int.fits, Int.INT_MIN, Int.INT_MAX in *. lia. }
  rewrite !Esub by lia.
  repeat apply conj; try lia; try apply Hcx; try apply Hcy.
Qed.

Lemma pixel_cell_holds_point_witness :
  0 <= vx (pixelAtComplex_z (View_new (-1 / 2)%R 0%R 1%R 800 600) (mkVector2 0%R 0%R)) < 800.
Proof.
  destruct (pixel_cell_holds_point (View_new (-1 / 2)%R 0%R 1%R 800 600)
              (mkVector2 0%R 0%R)) as (Hx & _).
  - cbn. unfold Int.INT_MAX. lia.
  - cbn. unfold Int.INT_MAX. lia.
  - cbn. apply exp_pos.
  - cbn -[Rpower]. rewrite Rpower_2_1. lra.
  - cbn -[Rpower]. rewrite Rpower_2_1. lra.
  - exact Hx.
Defined.

(** The viewport getter and setter are not inverse to each other:
    [updateViewport] stores the half-extents [scale * aspectRatio] and
    [scale] as width and height, [setViewport] reads the width and height as
    full extents.  Giving a view its own viewport back keeps the stored
    rectangle but halves the scale, moves the centre half way to the stored
    top-left corner, and lowers the zoom by one level. *)
Theorem setViewport_getViewport_halves (v : @View R) :
  view_wf v -> (0 < m_scale v)%R ->
  let v' := setViewport v (getViewport v) in
  m_rect v' = m_rect v
  /\ m_scale v' = (m_scale v / 2)%R
  /\ m_centre v'
     = mkVector2 (vx (m_centre v) - m_scale v * m_aspectRatio v / 2)%R
                 (vy (m_centre v) - m_scale v / 2)%R
  /\ m_dirty v' = true
  /\ (scale_is_pow2_zoom v -> m_zoom v' = (m_zoom v - 1)%R).
Proof.
  intros (_ & _ & _ & Hr) Hs v'. subst v'. unfold getViewport.
  assert (Escale : m_scale (setViewport v (m_rect v)) = (m_scale v / 2)%R).
  { rewrite Hr, updateViewport_rect. cbn. unfold HALF, literal. cbn. lra. }
  repeat apply conj.
  - reflexivity.
  - exact Escale.
  - rewrite Hr, updateViewport_rect. cbn. unfold HALF, literal. cbn.
    f_equal; lra.
  - reflexivity.
  - intros Hp.
    change (m_zoom (setViewport v (m_rect v)))
      with (ExactReal.R_log2 (m_scale (setViewport v (m_rect v)))).
    rewrite Escale. unfold scale_is_pow2_zoom in Hp.
    unfold ExactReal.R_log2, Rdiv at 2. rewrite ln_mult by lra.
    rewrite ln_Rinv by lra. rewrite Hp at 1. unfold Rpower. rewrite ln_exp.
    assert (Hln : (0 < ln 2)%R) by (rewrite <- ln_1; apply ln_increasing; lra).
    field. lra.
Qed.

Lemma setViewport_getViewport_halves_witness :
  let v := View_new (-1 / 2)%R 0%R 1%R 800 600 in
  m_scale (setViewport v (getViewport v)) = (m_scale v / 2)%R.
Proof.
  intros v.
  destruct (setViewport_getViewport_halves v) as (_ & E & _).
  - unfold view_wf, Int.INT_MAX. cbn. repeat split; lia.
  - cbn. apply exp_pos.
  - exact E.
Defined.

(** ** Event handlers *)

(** Keyboard: the pan keys move the centre by a quarter of the scale along
    one axis and leave scale and zoom alone, so opposite keys undo each
    other; [R] brings any view back to centre [-0.5 + 0i], zoom [1],
    scale [2]; any other key leaves the view as it is. *)
Theorem handleKeys_pan_reset (v : @View R) :
  m_centre (handleKeys v Key_Left)
  = mkVector2 (vx (m_centre v) - m_scale v / 4)%R (vy (m_centre v))
  /\ m_centre (handleKeys v Key_Right)
     = mkVector2 (vx (m_centre v) + m_scale v / 4)%R (vy (m_centre v))
  /\ m_centre (handleKeys v Key_Up)
     = mkVector2 (vx (m_centre v)) (vy (m_centre v) - m_scale v / 4)%R
  /\ m_centre (handleKeys v Key_Down)
     = mkVector2 (vx (m_centre v)) (vy (m_centre v) + m_scale v / 4)%R
  /\ (forall k, k <> Key_R ->
                m_scale (handleKeys v k) = m_scale v
                /\ m_zoom (handleKeys v k) = m_zoom v)
  /\ m_centre (handleKeys (handleKeys v Key_Left) Key_Right) = m_centre v
  /\ m_centre (handleKeys (handleKeys v Key_Up) Key_Down) = m_centre v
  /\ handleKeys v Key_A = handleKeys v Key_Left
  /\ handleKeys v Key_D = handleKeys v Key_Right
  /\ handleKeys v Key_W = handleKeys v Key_Up
  /\ handleKeys v Key_S = handleKeys v Key_Down
  /\ m_centre (handleKeys v Key_R) = mkVector2 (-1 / 2)%R 0%R
  /\ m_zoom (handleKeys v Key_R) = 1%R
  /\ m_scale (handleKeys v Key_R) = 2%R
  /\ m_dirty (handleKeys v Key_R) = true
  /\ handleKeys v Key_other = v.
Proof.
  destruct (m_centre v) as [cx cy] eqn:Ec.
  repeat apply conj; try reflexivity.
  - cbn. rewrite Ec. unfold MOVEMENT_AMOUNT, literal. cbn. f_equal; field.
  - cbn. rewrite Ec. unfold MOVEMENT_AMOUNT, literal. cbn. f_equal; field.
  - cbn. rewrite Ec. unfold MOVEMENT_AMOUNT, literal. cbn. f_equal; field.
  - cbn. rewrite Ec. unfold MOVEMENT_AMOUNT, literal. cbn. f_equal; field.
  - intros k Hk. destruct k; try (split; reflexivity). now elim Hk.
  - cbn. rewrite Ec. unfold MOVEMENT_AMOUNT, literal. cbn. f_equal; field.
  - cbn. rewrite Ec. unfold MOVEMENT_AMOUNT, literal. cbn. f_equal; field.
  - cbn. unfold literal. cbn. f_equal; field.
  - cbn -[Rpower]. apply Rpower_2_1.
Qed.

Section HandlerFacts.

Context {T : Type} `{RM : RealMath T}.

(** Dragging on to the point the box is already at changes nothing. *)
Lemma zoomBoxContinue_idempotent (v : @View T) (x y : Z) :
  zoomBoxContinue (zoomBoxContinue v x y) x y = zoomBoxContinue v x y.
Proof.
  destruct (m_zoomBoxIsShown v) eqn:Hshown.
  - assert (Hext : zoomBoxExtent (zoomBoxContinue v x y) x y = zoomBoxExtent v x y).
    { unfold zoomBoxExtent.
      destruct (zoomBoxContinue_navigation v x y)
        as (_ & _ & _ & _ & _ & _ & Easp & Est).
      rewrite Est, Easp. reflexivity. }
    assert (Hshown' : m_zoomBoxIsShown (zoomBoxContinue v x y) = true).
    { unfold zoomBoxContinue. rewrite Hshown.
      destruct (zoomBoxExtent v x y); exact Hshown. }
    unfold zoomBoxContinue at 1. rewrite Hshown', Hext.
    unfold zoomBoxContinue. rewrite Hshown.
    destruct (zoomBoxExtent v x y) as [w h]. reflexivity.
  - unfold zoomBoxContinue. rewrite Hshown. cbn. rewrite Hshown. reflexivity.
Qed.

(** Mouse: a right click during a drag hides the box but does not call the
    zoom off.  After a left press at [p] and a move to [q], a right press
    (anywhere), further moves and a left release (anywhere) leave exactly
    the view that a left release at [q] without the right press leaves. *)
Theorem right_click_does_not_cancel_zoom (v : @View T)
  (px py qx qy ax ay mx my rx ry : Z) :
  let dragged :=
    handleMouseMoved (handleMousePressed v Mouse_Left px py) qx qy in
  handleMouseReleased
    (handleMouseMoved (handleMousePressed dragged Mouse_Right ax ay) mx my)
    Mouse_Left rx ry
  = handleMouseReleased dragged Mouse_Left qx qy.
Proof.
  intros dragged. unfold handleMouseReleased, handleMouseMoved at 1, handleMousePressed at 1.
  assert (Hd : zoomBoxContinue dragged qx qy = dragged)
    by apply zoomBoxContinue_idempotent.
  assert (Hc : zoomBoxContinue (zoomBoxCancel dragged) mx my = zoomBoxCancel dragged)
    by reflexivity.
  rewrite Hc.
  unfold zoomBoxEnd. rewrite Hd.
  assert (Hc2 : zoomBoxContinue (zoomBoxCancel dragged) rx ry = zoomBoxCancel dragged)
    by reflexivity.
  rewrite Hc2. cbn [zoomBoxCancel m_zoomBoxEndCorner m_zoomBoxStartCorner
                     set_zoomBoxIsShown].
  destruct (rltb _ _); reflexivity.
Qed.

End HandlerFacts.

(** ** Completing a zoom box (exact arithmetic) *)

(** When the box [zoomBoxContinue] leaves has a height of [hpx > 0] pixels,
    [zoomBoxEnd] centres the view on the plane point of the middle pixel of
    the box and multiplies the scale by [hpx / screenHeight], so the height
    of the box becomes the height of the screen; zoom follows as
    [log2(scale)], the view is dirty and the box hidden.  The view zooms in
    exactly when the box is lower than the screen. *)
Theorem zoomBoxEnd_zooms (v : @View R) (x y : Z) :
  let v1 := zoomBoxContinue v x y in
  let hpx := Int.abs (Int.sub (vy (m_zoomBoxEndCorner v1))
                              (vy (m_zoomBoxStartCorner v1))) in
  let mid : Pixel :=
    mkVector2
      (Int.div (Int.add (vx (m_zoomBoxStartCorner v1)) (vx (m_zoomBoxEndCorner v1))) 2)
      (Int.div (Int.add (vy (m_zoomBoxStartCorner v1)) (vy (m_zoomBoxEndCorner v1))) 2) in
  0 < hpx -> 0 < vy (m_screenSize v) -> (0 < m_scale v)%R ->
  let v' := zoomBoxEnd v x y in
  m_centre v' = complexAtPixel_p v mid
  /\ m_scale v' = (m_scale v * IZR hpx / IZR (vy (m_screenSize v)))%R
  /\ (0 < m_scale v')%R
  /\ scale_is_pow2_zoom v'
  /\ m_dirty v' = true
  /\ m_zoomBoxIsShown v' = false
  /\ (hpx < vy (m_screenSize v) <-> (m_scale v' < m_scale v)%R).
Proof.
  intros v1 hpx mid Hh HH Hs v'.
  destruct (zoomBoxContinue_navigation v x y)
    as (Ed & Es & Ez & Ec & Er & Esz & Easp & Est).
  fold v1 in Ed, Es, Ez, Ec, Er, Esz, Easp, Est.
  assert (Hh' : (0 < IZR hpx)%R) by (apply IZR_lt; lia).
  assert (HH' : (0 < IZR (vy (m_screenSize v)))%R) by (apply IZR_lt; lia).
  assert (Hnew : (0 < m_scale v * IZR hpx / IZR (vy (m_screenSize v)))%R).
  { apply Rdiv_lt_0_compat; [apply Rmult_lt_0_compat |]; assumption. }
  assert (Ev' : v' = set_zoomBoxShape
                       (set_zoomBoxIsShown
                          (setScale (moveTo_z v1 (complexAtPixel_p v1 mid))
                             (m_scale v * IZR hpx / IZR (vy (m_screenSize v)))%R) false)
                       (mkShape (shape_position (m_zoomBoxShape v1)) (mkVector2 ZERO ZERO))).
  { subst v'. unfold zoomBoxEnd. fold v1. fold hpx. fold mid.
    replace (ZERO <? of_int hpx)%re with true
      by (symmetry; apply R_ltb_true; unfold ZERO; cbn; lra).
    cbn [m_scale moveTo_z updateViewport set_rect set_dirty set_centre
         m_screenSize of_int rmul rdiv R_Real].
    rewrite Es, Esz. reflexivity. }
  rewrite Ev'. repeat apply conj.
  - cbn. unfold complexAtPixel_p. rewrite Ec, Es, Esz. reflexivity.
  - reflexivity.
  - exact Hnew.
  - unfold scale_is_pow2_zoom. cbn -[Rpower ExactReal.R_log2].
    unfold Rpower, ExactReal.R_log2.
    replace (ln (m_scale v * IZR hpx / IZR (vy (m_screenSize v))) / ln 2 * ln 2)%R
      with (ln (m_scale v * IZR hpx / IZR (vy (m_screenSize v))))
      by (field; apply ln_neq_0; lra).
    symmetry. apply exp_ln. exact Hnew.
  - reflexivity.
  - reflexivity.
  - cbn [m_scale set_zoomBoxShape set_zoomBoxIsShown setScale updateViewport
         set_rect set_dirty set_zoom set_scale].
    intros Hlt. apply IZR_lt in Hlt.
    apply Rmult_lt_reg_r with (IZR (vy (m_screenSize v))); [exact HH' |].
    unfold Rdiv. rewrite Rmult_assoc, Rinv_l, Rmult_1_r by lra. nra.
  - cbn [m_scale set_zoomBoxShape set_zoomBoxIsShown setScale updateViewport
         set_rect set_dirty set_zoom set_scale].
    intros Hlt. apply lt_IZR.
    apply Rmult_lt_compat_r with (r := IZR (vy (m_screenSize v))) in Hlt; [| exact HH'].
    unfold Rdiv in Hlt. rewrite Rmult_assoc, Rinv_l, Rmult_1_r in Hlt by lra. nra.
Qed.

Lemma zoomBoxEnd_zooms_witness :
  let v := zoomBoxBegin (View_new (-1 / 2)%R 0%R 1%R 800 600) 10 10 in
  m_zoomBoxIsShown (zoomBoxEnd v 110 85) = false.
Proof.
  intros v.
  assert (Eext : zoomBoxExtent v 110 85 = (100%R, 75%R)).
  { unfold zoomBoxExtent. cbn -[Rabs].
    change (Int.sub 110 10) with 100. change (Int.sub 85 10) with 75.
    rewrite !Rabs_right by lra.
    replace (ExactReal.R_ltb 100 (800 / 600 * 75)) with false
      by (symmetry; apply R_ltb_false; lra).
    replace (ExactReal.R_ltb 75 0) with false
      by (symmetry; apply R_ltb_false; lra).
    f_equal. field. }
  assert (Eend : m_zoomBoxEndCorner (zoomBoxContinue v 110 85) = mkVector2 110 85).
  { unfold zoomBoxContinue. cbn [m_zoomBoxIsShown v zoomBoxBegin
      set_zoomBoxStartCorner set_zoomBoxIsShown]. rewrite Eext.
    cbn [m_zoomBoxEndCorner set_zoomBoxShape set_zoomBoxEndCorner
         m_zoomBoxStartCorner zoomBoxBegin set_zoomBoxStartCorner vx vy to_int R_Real].
    rewrite !R_to_int_IZR by (unfold Int.fits, Int.INT_MIN, Int.INT_MAX; lia).
    reflexivity. }
  destruct (zoomBoxEnd_zooms v 110 85) as (_ & _ & _ & _ & _ & Hshown & _).
  - rewrite Eend.
    destruct (zoomBoxContinue_navigation v 110 85) as (_ & _ & _ & _ & _ & _ & _ & Est).
    rewrite Est. cbn. change (Int.abs (Int.sub 85 10)) with 75. lia.
  - cbn. lia.
  - cbn. apply exp_pos.
  - exact Hshown.
Defined.

(** ** Escape-time evaluator: what it returns *)

Section EscapeFacts.

Context {T : Type} `{RO : RealOps T}.

Local Open Scope real_scope.

(** The loop, entered after [j] passes with the counter at [n], returns
    [n + i - 1] over the budget when the orbit is first past the threshold
    [i] passes later. *)
Lemma mandelbrot_loop_first_escape (remaining : nat) :
  forall (j i : nat) (n MAX : Z) (z0 z : @Complex T),
    z = orbit z0 j ->
    (1 <= i <= remaining)%nat ->
    (forall k, (j + 1 <= k < j + i)%nat -> escaped (orbit z0 k) = false) ->
    escaped (orbit z0 (j + i)) = true ->
    (0 <= n)%Z -> (n + Z.of_nat remaining <= Int.INT_MAX)%Z ->
    mandelbrot_loop remaining n MAX z0 z
    = of_int (n + Z.of_nat i - 1) / of_int MAX.
Proof.
  induction remaining as [| r IH]; intros j i n MAX z0 z Hz Hi Hbefore Hesc Hn Hmax.
  - lia.
  - cbn [mandelbrot_loop].
    assert (Hstep : mandelbrot_step z0 z = orbit z0 (S j)) by (cbn; now rewrite Hz).
    rewrite Hstep.
    destruct (Nat.eq_dec i 1%nat) as [-> | Hi1].
    + replace (j + 1)%nat with (S j) in Hesc by lia. rewrite Hesc.
      do 2 f_equal. lia.
    + rewrite (Hbefore (S j) ltac:(lia)).
      assert (Eadd : Int.add n 1 = (n + 1)%Z).
      { unfold Int.add. apply wrap_int_fits.
        unfold Int.fits, Int.INT_MIN, Int.INT_MAX in *. lia. }
      rewrite Eadd.
      rewrite (IH (S j) (i - 1)%nat (n + 1)%Z MAX z0 (orbit z0 (S j)));
        try reflexivity; try lia.
      * do 2 f_equal. lia.
      * intros k Hk. apply Hbefore. lia.
      * replace (S j + (i - 1))%nat with (j + i)%nat by lia. exact Hesc.
Qed.

(** The evaluator returns [(i - 1) / MAX_ITERATIONS] when the orbit of [z0]
    is first past the threshold at its [i]-th point, [i] within the budget:
    the escape ratio counts the passes made before the one that escapes.
    This holds for [double] as well as for exact arithmetic. *)
Theorem mandelbrot_first_escape (v : @View T) (z0 : Complex) (i : nat) :
  (1 <= i <= Z.to_nat (MAX_ITERATIONS v))%nat ->
  (forall k, (1 <= k < i)%nat -> escaped (orbit z0 k) = false) ->
  escaped (orbit z0 i) = true ->
  mandelbrot v z0 = of_int (Z.of_nat i - 1) / of_int (MAX_ITERATIONS v).
Proof.
  intros Hi Hbefore Hesc. unfold mandelbrot.
  assert (Hf : Int.fits (MAX_ITERATIONS v))
    by (unfold MAX_ITERATIONS, Int.sub; apply wrap_int_is_int).
  rewrite (mandelbrot_loop_first_escape (Z.to_nat (MAX_ITERATIONS v)) 0 i 0
             (MAX_ITERATIONS v) z0 z0 eq_refl Hi).
  - reflexivity.
  - intros k Hk. apply Hbefore. lia.
  - exact Hesc.
  - lia.
  - unfold Int.fits in Hf. lia.
Qed.

End EscapeFacts.

Lemma mandelbrot_first_escape_witness :
  mandelbrot initial_view_b64 (mkVector2 (of_int 1) (of_int 0))
  = (of_int (Z.of_nat 2 - 1) / of_int (MAX_ITERATIONS initial_view_b64))%re.
Proof.
  apply (mandelbrot_first_escape initial_view_b64 (mkVector2 (of_int 1) (of_int 0)) 2).
  - vm_compute. lia.
  - intros k Hk. assert (k = 1%nat) as -> by lia. vm_compute. reflexivity.
  - vm_compute. reflexivity.
Defined.

(** The loop returns [1.0] only if nothing escaped (exact arithmetic). *)
Lemma mandelbrot_loop_one_only_bounded (remaining : nat) :
  forall (j : nat) (n MAX : Z) (z0 z : @Complex R),
    z = orbit z0 j -> 0 <= n -> n + Z.of_nat remaining = MAX -> Int.fits MAX ->
    mandelbrot_loop remaining n MAX z0 z = 1%R ->
    forall k, (j + 1 <= k <= j + remaining)%nat -> escaped (orbit z0 k) = false.
Proof.
  induction remaining as [| r IH]; intros j n MAX z0 z Hz Hn Hsum HM Hone k Hk.
  - lia.
  - cbn [mandelbrot_loop] in Hone.
    assert (Hstep : mandelbrot_step z0 z = orbit z0 (S j)) by (cbn; now rewrite Hz).
    rewrite Hstep in Hone.
    destruct (escaped (orbit z0 (S j))) eqn:Eesc.
    + exfalso. cbn [of_int rdiv R_Real] in Hone.
      assert (HnM : (0 <= IZR n < IZR MAX)%R).
      { split; [apply IZR_le | apply IZR_lt]; lia. }
      assert (IZR n = IZR MAX)%R; [| lra].
      apply Rmult_eq_reg_r with (/ IZR MAX)%R.
      * unfold Rdiv in Hone. rewrite Hone, Rinv_r; lra.
      * apply Rinv_neq_0_compat. lra.
    + destruct (Nat.eq_dec k (S j)) as [-> | Hne]; [exact Eesc |].
      rewrite (int_add_1 n MAX) in Hone by (assumption || lia).
      apply (IH (S j) (n + 1) MAX z0 (orbit z0 (S j))); try reflexivity;
        try assumption; lia.
Qed.

(** In exact arithmetic the evaluator returns [1.0] exactly for the points
    whose orbit is never past the threshold within the budget; every other
    point gets a ratio below [1.0]. *)
Theorem mandelbrot_one_iff_bounded (v : @View R) (z0 : Complex) :
  (mandelbrot v z0 = 1%R
   <-> forall k, (1 <= k <= Z.to_nat (MAX_ITERATIONS v))%nat ->
                 escaped (orbit z0 k) = false)
  /\ (mandelbrot v z0 <> 1%R -> (mandelbrot v z0 < 1)%R).
Proof.
  split; [split |].
  - intros Hone k Hk. unfold mandelbrot in Hone.
    destruct (Z_le_gt_dec (MAX_ITERATIONS v) 0) as [Hle | Hgt]; [lia |].
    apply (mandelbrot_loop_one_only_bounded (Z.to_nat (MAX_ITERATIONS v)) 0 0
             (MAX_ITERATIONS v) z0 z0 eq_refl); try assumption; try lia.
    unfold MAX_ITERATIONS, Int.sub. apply wrap_int_is_int.
  - intros Hb. unfold mandelbrot.
    apply (mandelbrot_loop_bounded _ 0); [reflexivity |].
    intros k Hk. apply Hb. lia.
  - intros Hne. pose proof (mandelbrot_unit_interval v z0). lra.
Qed.

(** ** Escape-time evaluator: symmetry and the quarter disc *)

Lemma orbit_conj (z0 : @Complex R) (k : nat) :
  orbit (mkVector2 (vx z0) (- vy z0)%R) k
  = mkVector2 (vx (orbit z0 k)) (- vy (orbit z0 k))%R.
Proof.
  induction k as [| k IH]; [reflexivity |].
  cbn [orbit]. rewrite IH. unfold mandelbrot_step, TWO. cbn. f_equal; ring.
Qed.

Lemma escaped_conj (z : @Complex R) :
  escaped (mkVector2 (vx z) (- vy z)%R) = escaped z.
Proof.
  unfold escaped. cbn.
  replace (vx z * vx z + - vy z * - vy z)%R with (vx z * vx z + vy z * vy z)%R by ring.
  reflexivity.
Qed.

Lemma mandelbrot_loop_conj (remaining : nat) :
  forall (n MAX : Z) (z0 z : @Complex R),
    mandelbrot_loop remaining n MAX (mkVector2 (vx z0) (- vy z0)%R)
      (mkVector2 (vx z) (- vy z)%R)
    = mandelbrot_loop remaining n MAX z0 z.
Proof.
  induction remaining as [| r IH]; intros n MAX z0 z; [reflexivity |].
  cbn [mandelbrot_loop].
  assert (E : mandelbrot_step (mkVector2 (vx z0) (- vy z0)%R) (mkVector2 (vx z) (- vy z)%R)
              = mkVector2 (vx (mandelbrot_step z0 z)) (- vy (mandelbrot_step z0 z))%R).
  { unfold mandelbrot_step, TWO. cbn. f_equal; ring. }
  rewrite E, escaped_conj, IH. reflexivity.
Qed.

(** The evaluator gives a point and its complex conjugate the same ratio:
    the picture is symmetric about the real axis (exact arithmetic). *)
Theorem mandelbrot_conjugate (v : @View R) (z0 : Complex) :
  mandelbrot v (mkVector2 (vx z0) (- vy z0)%R) = mandelbrot v z0.
Proof. unfold mandelbrot. apply mandelbrot_loop_conj. Qed.

(** One pass keeps a point of the disc of radius 1/2 inside it when [z0] is
    in the disc of radius 1/4. *)
Lemma step_stays_in_half_disc (a b x y : R) :
  (a * a + b * b <= 1 / 16)%R -> (x * x + y * y <= 1 / 4)%R ->
  ((x * x - y * y + a) * (x * x - y * y + a)
   + (2 * x * y + b) * (2 * x * y + b) <= 1 / 4)%R.
Proof.
  intros Ha Hz.
  set (u := (x * x - y * y)%R). set (w := (2 * x * y)%R).
  assert (Huw : (u * u + w * w <= 1 / 16)%R).
  { replace (u * u + w * w)%R with ((x * x + y * y) * (x * x + y * y))%R
      by (unfold u, w; ring).
    assert (0 <= x * x + y * y)%R by nra. nra. }
  clearbody u w. clear Hz.
  assert (Hcs : ((u * a + w * b) * (u * a + w * b) <= 1 / 256)%R).
  { assert (E : ((u * a + w * b) * (u * a + w * b) + (u * b - w * a) * (u * b - w * a)
                 = (u * u + w * w) * (a * a + b * b))%R) by ring.
    assert (0 <= (u * b - w * a) * (u * b - w * a))%R by apply Rle_0_sqr.
    assert (0 <= u * u + w * w)%R
      by (pose proof (Rle_0_sqr u); pose proof (Rle_0_sqr w); unfold Rsqr in *; lra).
    assert (0 <= a * a + b * b)%R
      by (pose proof (Rle_0_sqr a); pose proof (Rle_0_sqr b); unfold Rsqr in *; lra).
    assert ((u * u + w * w) * (a * a + b * b) <= 1 / 16 * (1 / 16))%R
      by (apply Rmult_le_compat; lra).
    lra. }
  assert (Hdot : (u * a + w * b <= 1 / 16)%R).
  { destruct (Rle_dec (u * a + w * b) (1 / 16)) as [? | Hgt]; [assumption |].
    exfalso. assert (1 / 16 < u * a + w * b)%R by lra. nra. }
  replace ((u + a) * (u + a) + (w + b) * (w + b))%R
    with (u * u + w * w + (a * a + b * b) + 2 * (u * a + w * b))%R by ring.
  lra.
Qed.

(** Every point of the disc [|z0| <= 1/4] gets the ratio [1.0], whatever
    the zoom: its orbit never leaves the disc of radius 1/2 (exact
    arithmetic). *)
Theorem mandelbrot_quarter_disc (v : @View R) (z0 : Complex) :
  (vx z0 * vx z0 + vy z0 * vy z0 <= 1 / 16)%R ->
  mandelbrot v z0 = 1%R.
Proof.
  intros Hz0.
  assert (Horb : forall k, (vx (orbit z0 k) * vx (orbit z0 k)
                            + vy (orbit z0 k) * vy (orbit z0 k) <= 1 / 4)%R).
  { induction k as [| k IH]; [cbn; lra |].
    cbn [orbit]. unfold mandelbrot_step, TWO. cbn [vx vy radd rsub rmul of_int R_Real].
    now apply step_stays_in_half_disc. }
  unfold mandelbrot. apply (mandelbrot_loop_bounded _ 0); [reflexivity |].
  intros k _. unfold escaped, THRESHOLD. cbn [rltb radd rmul of_int R_Real].
  apply R_ltb_false. specialize (Horb k). lra.
Qed.

Lemma mandelbrot_quarter_disc_witness :
  mandelbrot (View_new (-1 / 2)%R 0%R 1%R 800 600) (mkVector2 (1 / 8)%R (1 / 8)%R) = 1%R.
Proof.
  apply mandelbrot_quarter_disc. cbn. lra.
Defined.

(** ** The two versions of the hue ramp *)

Lemma switch_default {A : Type} (q : Z) (c0 c1 c2 c3 c4 c5 d : A) :
  q < 0 \/ 6 <= q ->
  match q with
  | 0 => c0 | 1 => c1 | 2 => c2 | 3 => c3 | 4 => c4 | 5 => c5 | _ => d
  end = d.
Proof.
  intros Hq. destruct q as [| p | p]; [lia | | reflexivity].
  destruct p as [[[p | p |] | [p | p |] |] | [[p | p |] | [p | p |] |] |];
    try reflexivity; lia.
Qed.

(** A real below an integer bound has its integer part below it. *)
Lemma Int_part_lt (h : R) (c : Z) : (h < IZR c)%R <-> Int_part h < c.
Proof.
  destruct (base_Int_part h) as [H1 H2]. split.
  - intros Hlt. apply lt_IZR. lra.
  - intros Hlt. assert (IZR (Int_part h) + 1 <= IZR c)%R.
    { rewrite <- plus_IZR. apply IZR_le. lia. }
    lra.
Qed.

Lemma hueToRGB_switch_chain (h : R) :
  (-60 < h)%R -> hueToRGB h = hueToRGB_chain h.
Proof.
  intros Hh. unfold hueToRGB, hueToRGB_chain.
  cbn [rltb of_int to_int R_Real].
  set (x := to_uint8 _).
  destruct (Rlt_dec h 0) as [Hneg | Hpos].
  - (* -60 < h < 0: both take the first segment *)
    assert (Et : Int.div (ExactReal.R_to_int h) 60 = 0).
    { unfold ExactReal.R_to_int, ExactReal.truncR.
      destruct (Rle_dec 0 h) as [? | _]; [lra |].
      assert (Hp : 0 <= Int_part (- h) < 60).
      { split.
        - apply le_IZR. destruct (base_Int_part (- h)) as [H1 H2].
          apply Rnot_lt_le. intros Hlt.
          assert (IZR (Int_part (- h)) <= -1)%R.
          { replace (-1)%R with (IZR (-1)) by reflexivity. apply IZR_le.
            apply lt_IZR in Hlt. lia. }
          lra.
        - apply Int_part_lt. cbn. lra. }
      replace (Int.fitsb (- Int_part (- h))) with true
        by (symmetry; apply fitsb_fits; unfold Int.fits, Int.INT_MIN, Int.INT_MAX; lia).
      unfold Int.div.
      assert (Eq : Z.quot (- Int_part (- h)) 60 = 0).
      { rewrite Z.quot_opp_l by lia. rewrite Z.quot_small by lia. reflexivity. }
      rewrite Eq. reflexivity. }
    rewrite Et.
    replace (ExactReal.R_ltb h 60) with true by (symmetry; apply R_ltb_true; lra).
    reflexivity.
  - assert (H0 : (0 <= h)%R) by lra.
    assert (Etr : ExactReal.truncR h = Int_part h).
    { unfold ExactReal.truncR. destruct (Rle_dec 0 h); [reflexivity | lra]. }
    assert (Hnn : 0 <= Int_part h).
    { apply le_IZR. destruct (base_Int_part h) as [H1 H2].
      apply Rnot_lt_le. intros Hlt.
      assert (IZR (Int_part h) <= -1)%R.
      { replace (-1)%R with (IZR (-1)) by reflexivity. apply IZR_le.
        apply lt_IZR in Hlt. lia. }
      lra. }
    assert (Hcmp : forall c : Z,
               ExactReal.R_ltb h (IZR c) = (Int_part h <? c)).
    { intros c. destruct (Int_part h <? c) eqn:E.
      - apply R_ltb_true, Int_part_lt. lia.
      - apply R_ltb_false. apply Rnot_lt_le. intros Hlt.
        apply Int_part_lt in Hlt. lia. }
    rewrite !Hcmp.
    unfold ExactReal.R_to_int. rewrite Etr.
    destruct (Int.fitsb (Int_part h)) eqn:Efit.
    + apply fitsb_fits in Efit.
      assert (Ediv : Int.div (Int_part h) 60 = Int_part h / 60).
      { unfold Int.div. rewrite Z.quot_div_nonneg by lia.
        apply wrap_int_fits.
        unfold Int.fits, Int.INT_MIN, Int.INT_MAX in *.
        pose proof (Z.div_pos (Int_part h) 60 Hnn ltac:(lia)).
        pose proof (Z.div_le_upper_bound (Int_part h) 60 (Int_part h) ltac:(lia) ltac:(lia)).
        lia. }
      rewrite Ediv.
      destruct (Int_part h <? 60) eqn:E1;
        [replace (Int_part h / 60) with 0 by (symmetry; apply Z.div_small; lia);
         reflexivity |].
      destruct (Int_part h <? 120) eqn:E2;
        [replace (Int_part h / 60) with 1
           by (apply (Z.div_unique _ _ _ (Int_part h - 60)); lia);
         reflexivity |].
      destruct (Int_part h <? 180) eqn:E3;
        [replace (Int_part h / 60) with 2
           by (apply (Z.div_unique _ _ _ (Int_part h - 120)); lia);
         reflexivity |].
      destruct (Int_part h <? 240) eqn:E4;
        [replace (Int_part h / 60) with 3
           by (apply (Z.div_unique _ _ _ (Int_part h - 180)); lia);
         reflexivity |].
      destruct (Int_part h <? 300) eqn:E5;
        [replace (Int_part h / 60) with 4
           by (apply (Z.div_unique _ _ _ (Int_part h - 240)); lia);
         reflexivity |].
      destruct (Int_part h <? 360) eqn:E6;
        [replace (Int_part h / 60) with 5
           by (apply (Z.div_unique _ _ _ (Int_part h - 300)); lia);
         reflexivity |].
      apply switch_default. right.
      apply Z.div_le_lower_bound; lia.
    + assert (Hbig : Int.INT_MAX < Int_part h).
      { destruct (Z_le_gt_dec (Int_part h) Int.INT_MAX) as [Hle | Hgt]; [| lia].
        exfalso. assert (Int.fitsb (Int_part h) = true); [| congruence].
        apply fitsb_fits. unfold Int.fits, Int.INT_MIN, Int.INT_MAX in *. lia. }
      unfold Int.INT_MAX in Hbig.
      replace (Int_part h <? 60) with false by (symmetry; apply Z.ltb_ge; lia).
      replace (Int_part h <? 120) with false by (symmetry; apply Z.ltb_ge; lia).
      replace (Int_part h <? 180) with false by (symmetry; apply Z.ltb_ge; lia).
      replace (Int_part h <? 240) with false by (symmetry; apply Z.ltb_ge; lia).
      replace (Int_part h <? 300) with false by (symmetry; apply Z.ltb_ge; lia).
      replace (Int_part h <? 360) with false by (symmetry; apply Z.ltb_ge; lia).
      reflexivity.
Qed.

(** The [switch] hue ramp of the renderer and the [if]-chain hue ramp it
    replaced return the same colour for every hue above [-60], in
    particular for every hue [360 * m] the renderer asks for; they differ
    at [-60] and below, where the chain still answers with its first
    segment and the switch with black. *)
Theorem hueToRGB_versions_agree (h : R) :
  (-60 < h)%R -> hueToRGB h = hueToRGB_chain h.
Proof. apply hueToRGB_switch_chain. Qed.

Lemma hueToRGB_versions_agree_witness :
  hueToRGB (IZR 200) = hueToRGB_chain (IZR 200).
Proof. apply hueToRGB_versions_agree. lra. Defined.

(** At [-60] the two versions part: the chain gives its first segment (with
    the alpha of a colour), the switch gives black. *)
Lemma hueToRGB_versions_differ :
  hueToRGB (IZR (-60)) = mkColor 0 0 0 255
  /\ col_r (hueToRGB_chain (IZR (-60))) = 255.
Proof.
  split.
  - unfold hueToRGB. cbn [to_int R_Real].
    rewrite R_to_int_IZR by (unfold Int.fits, Int.INT_MIN, Int.INT_MAX; lia).
    reflexivity.
  - unfold hueToRGB_chain. cbn [rltb of_int R_Real].
    replace (ExactReal.R_ltb (-60) 60) with true by (symmetry; apply R_ltb_true; lra).
    reflexivity.
Qed.

(** ** Whole-buffer loops *)

Lemma load_lookup (buf : list Z) (i : nat) : load buf (Z.of_nat i) = buf !! i.
Proof.
  unfold load. destruct (Z.of_nat i <? 0) eqn:E; [apply Z.ltb_lt in E; lia |].
  now rewrite Nat2Z.id.
Qed.

Lemma clear_indices (idx : list Z) :
  forall (buf : list Z) (j : Z),
    0 <= j < Z.of_nat (length buf) ->
    load (fold_left (fun b i => store b i 0) idx buf) j
    = if decide (j ∈ idx) then Some 0 else load buf j.
Proof.
  induction idx as [| i idx IH]; intros buf j Hj; cbn [fold_left].
  - destruct (decide (j ∈ [])) as [Hin | _]; [inversion Hin | reflexivity].
  - rewrite IH by (now rewrite length_store).
    destruct (decide (j ∈ idx)) as [Hin | Hnin].
    + destruct (decide (j ∈ i :: idx)) as [_ | Hn]; [reflexivity |].
      exfalso. apply Hn. now right.
    + destruct (decide (j ∈ i :: idx)) as [Hin | Hn].
      * apply elem_of_cons in Hin as [-> | Hin]; [| contradiction].
        now apply load_store_eq.
      * apply load_store_ne. intros ->. apply Hn. left.
Qed.

Lemma clear_indices_length (idx : list Z) :
  forall buf : list Z,
    length (fold_left (fun b i => store b i 0) idx buf) = length buf.
Proof.
  induction idx as [| i idx IH]; intros buf; cbn [fold_left]; [reflexivity |].
  rewrite IH. apply length_store.
Qed.

(** The loop that makes the rendering buffer transparent leaves
    [m_bufferSizeBytes] zero bytes. *)
Lemma clear_pixels_zero (n : Z) (buf : list Z) :
  Z.of_nat (length buf) = n ->
  clear_pixels n buf = replicate (length buf) 0.
Proof.
  intros Hn. apply list_eq. intros i.
  destruct (decide (i < length buf)%nat) as [Hi | Hi].
  - rewrite lookup_replicate_2 by exact Hi.
    rewrite <- load_lookup. unfold clear_pixels.
    rewrite clear_indices by lia.
    destruct (decide (Z.of_nat i ∈ seqZ 0 n)) as [_ | Hn']; [reflexivity |].
    exfalso. apply Hn'. apply elem_of_seqZ. lia.
  - rewrite (lookup_ge_None_2 (replicate _ _)) by (rewrite length_replicate; lia).
    apply lookup_ge_None_2. unfold clear_pixels. rewrite clear_indices_length. lia.
Qed.

Lemma copy_indices (src : list Z) (idx : list Z) :
  forall (dst : list Z) (j : Z),
    length dst = length src ->
    0 <= j < Z.of_nat (length dst) ->
    load (fold_left (fun d i => match load src i with
                                | Some b => store d i b
                                | None => d
                                end) idx dst) j
    = if decide (j ∈ idx) then load src j else load dst j.
Proof.
  induction idx as [| i idx IH]; intros dst j Hlen Hj; cbn [fold_left].
  - destruct (decide (j ∈ [])) as [Hin | _]; [inversion Hin | reflexivity].
  - assert (Hlen' : length (match load src i with
                            | Some b => store dst i b
                            | None => dst
                            end) = length src).
    { destruct (load src i); [rewrite length_store |]; exact Hlen. }
    rewrite IH; [| exact Hlen' | rewrite Hlen', <- Hlen; exact Hj].
    destruct (decide (j ∈ idx)) as [Hin | Hnin].
    + destruct (decide (j ∈ i :: idx)) as [_ | Hn]; [reflexivity |].
      exfalso. apply Hn. now right.
    + destruct (decide (j ∈ i :: idx)) as [Hin | Hn].
      * apply elem_of_cons in Hin as [<- | Hin]; [| contradiction].
        destruct (load src j) as [b |] eqn:Eb.
        -- now apply load_store_eq.
        -- exfalso. unfold load in Eb.
           destruct (j <? 0) eqn:E; [apply Z.ltb_lt in E; lia |].
           apply lookup_ge_None_1 in Eb. lia.
      * destruct (load src i); [| reflexivity].
        apply load_store_ne. intros ->. apply Hn. left.
Qed.

Lemma copy_indices_length (src : list Z) (idx : list Z) :
  forall dst : list Z,
    length (fold_left (fun d i => match load src i with
                                  | Some b => store d i b
                                  | None => d
                                  end) idx dst) = length dst.
Proof.
  induction idx as [| i idx IH]; intros dst; cbn [fold_left]; [reflexivity |].
  rewrite IH. destruct (load src i); [apply length_store | reflexivity].
Qed.

(** The loop that keeps a copy of the completed render copies it byte for
    byte. *)
Lemma copy_pixels_all (n : Z) (src dst : list Z) :
  Z.of_nat (length src) = n -> length dst = length src ->
  copy_pixels n src dst = src.
Proof.
  intros Hn Hlen. apply list_eq. intros i.
  destruct (decide (i < length src)%nat) as [Hi | Hi].
  - rewrite <- !load_lookup. unfold copy_pixels.
    rewrite copy_indices by (assumption || lia).
    destruct (decide (Z.of_nat i ∈ seqZ 0 n)) as [_ | Hn']; [reflexivity |].
    exfalso. apply Hn'. apply elem_of_seqZ. lia.
  - rewrite (lookup_ge_None_2 src) by lia.
    apply lookup_ge_None_2. unfold copy_pixels. rewrite copy_indices_length. lia.
Qed.

(** ** A cancelled render pass *)

Lemma write_pixel_length (buf : list Z) (p : Z) (c : Color) :
  length (write_pixel buf p c) = length buf.
Proof. unfold write_pixel. now rewrite !length_store. Qed.

Lemma write_pixel_other (buf : list Z) (p j : Z) (c : Color) :
  j < p \/ p + 3 < j -> load (write_pixel buf p c) j = load buf j.
Proof. intros Hj. unfold write_pixel. rewrite !load_store_ne by lia. reflexivity. Qed.

Lemma write_pixel_here (buf : list Z) (p : Z) (c : Color) :
  0 <= p -> p + 3 < Z.of_nat (length buf) ->
  load (write_pixel buf p c) p = Some (col_r c)
  /\ load (write_pixel buf p c) (p + 1) = Some (col_g c)
  /\ load (write_pixel buf p c) (p + 2) = Some (col_b c)
  /\ load (write_pixel buf p c) (p + 3) = Some 255.
Proof.
  intros Hp Hlen. unfold write_pixel. repeat apply conj.
  - rewrite !load_store_ne by lia. apply load_store_eq. lia.
  - rewrite !load_store_ne by lia. apply load_store_eq. rewrite length_store. lia.
  - rewrite !load_store_ne by lia. apply load_store_eq. rewrite !length_store. lia.
  - apply load_store_eq. rewrite !length_store. lia.
Qed.

Section CancelFacts.

Context {T : Type} `{RM : RealMath T}.

Variables (v : @View T) (Wd Ht : Z).
Hypothesis Hsize : 4 * Wd * Ht <= Int.INT_MAX.

(** The bytes of pixel [(x', y')] are the same in both buffers. *)
Local Abbreviation same_pixel buf buf' x' y' :=
  (forall k, 0 <= k < 4 ->
             load buf' (pixel_offset Wd x' y' + k) = load buf (pixel_offset Wd x' y' + k)).

Lemma render_pixel_other (buf : list Z) (x y x' y' : Z) :
  0 <= x < Wd -> 0 <= y < Ht -> 0 <= x' < Wd -> 0 <= y' < Ht ->
  (x', y') <> (x, y) ->
  same_pixel buf (render_pixel v Wd y buf x) x' y'.
Proof.
  intros Hx Hy Hx' Hy' Hne k Hk. unfold render_pixel.
  rewrite (currentPixel_offset Wd Ht x y Hx Hy Hsize).
  assert (Hp : y * Wd + x <> y' * Wd + x').
  { intros E. apply pixel_number_inj in E; [| assumption | assumption].
    destruct E as [-> ->]. now apply Hne. }
  unfold pixel_offset. rewrite !load_store_ne by lia. reflexivity.
Qed.

Lemma render_row_other (y : Z) (xs : list Z) :
  0 <= y < Ht -> (forall x, x ∈ xs -> 0 <= x < Wd) ->
  forall buf x' y', 0 <= x' < Wd -> 0 <= y' < Ht -> y' <> y ->
    same_pixel buf (fold_left (render_pixel v Wd y) xs buf) x' y'.
Proof.
  intros Hy. induction xs as [| x xs IH]; intros Hxs buf x' y' Hx' Hy' Hne k Hk;
    cbn [fold_left]; [reflexivity |].
  rewrite (IH (fun x0 Hin => Hxs x0 (list_elem_of_further _ _ _ Hin))
              _ x' y' Hx' Hy' Hne k Hk).
  apply render_pixel_other; try assumption.
  - apply Hxs. left.
  - congruence.
Qed.

Lemma render_rows_other (rows : list Z) :
  (forall y, y ∈ rows -> 0 <= y < Ht) ->
  forall cancelling buf x' y', 0 <= x' < Wd -> 0 <= y' < Ht -> y' ∉ rows ->
    same_pixel buf (render_rows v Wd cancelling rows buf) x' y'.
Proof.
  induction rows as [| y rows IH]; intros Hrows cancelling buf x' y' Hx' Hy' Hnin k Hk;
    cbn [render_rows]; [reflexivity |].
  destruct (cancelling y); [reflexivity |].
  apply not_elem_of_cons in Hnin as [Hne Hnin].
  rewrite (IH (fun y0 Hin => Hrows y0 (list_elem_of_further _ _ _ Hin))
              cancelling _ x' y' Hx' Hy' Hnin k Hk).
  unfold render_row.
  apply (render_row_other y (seqZ 0 Wd)); try assumption.
  - apply Hrows. left.
  - intros x Hin. apply elem_of_seqZ in Hin. lia.
Qed.

Lemma render_rows_cut (cancelling : Z -> bool) (pre : list Z) (y : Z) (post : list Z) :
  (forall y', y' ∈ pre -> cancelling y' = false) -> cancelling y = true ->
  forall buf,
    render_rows v Wd cancelling (pre ++ y :: post) buf
    = render_rows v Wd (fun _ => false) pre buf.
Proof.
  intros Hpre Hy. induction pre as [| y0 pre IH]; intros buf; cbn [render_rows app].
  - now rewrite Hy.
  - rewrite (Hpre y0) by left.
    apply IH. intros y' Hin. apply Hpre. now right.
Qed.

End CancelFacts.

(** A render pass that finds [m_cancelling] set when it comes to row [y]
    stops there: the buffer is what the rows taken before [y] made of it,
    every pixel of a row not taken before [y] keeps the bytes it had, and
    the pass still ends in state [Completed]. *)
Theorem render_cancelled {T : Type} `{RM : RealMath T}
  (rd : @MandelbrotRenderer T) (cancelling : Z -> bool)
  (pre : list Z) (y : Z) (post : list Z) :
  4 * m_width rd * m_height rd <= Int.INT_MAX ->
  (forall y', y' ∈ pre -> 0 <= y' < m_height rd /\ cancelling y' = false) ->
  cancelling y = true ->
  let rd' := render rd cancelling (pre ++ y :: post) in
  m_renderingState rd' = Completed
  /\ m_renderingPixels rd'
     = render_rows (m_renderingView rd) (m_width rd) (fun _ => false) pre
         (m_renderingPixels rd)
  /\ (forall x' y' k,
        0 <= x' < m_width rd -> 0 <= y' < m_height rd -> y' ∉ pre -> 0 <= k < 4 ->
        load (m_renderingPixels rd') (pixel_offset (m_width rd) x' y' + k)
        = load (m_renderingPixels rd) (pixel_offset (m_width rd) x' y' + k))
  /\ (pre = [] -> m_renderingPixels rd' = m_renderingPixels rd).
Proof.
  intros Hsize Hpre Hy rd'.
  assert (Ecut : m_renderingPixels rd'
                 = render_rows (m_renderingView rd) (m_width rd) (fun _ => false) pre
                     (m_renderingPixels rd)).
  { cbn. apply render_rows_cut; [| exact Hy]. intros y' Hin. now apply Hpre. }
  repeat apply conj.
  - reflexivity.
  - exact Ecut.
  - intros x' y' k Hx' Hy' Hnin Hk. rewrite Ecut.
    apply (render_rows_other (m_renderingView rd) (m_width rd) (m_height rd) Hsize pre);
      try assumption.
    intros y0 Hin. now apply Hpre.
  - intros ->. rewrite Ecut. reflexivity.
Qed.

Lemma render_cancelled_witness :
  let rd := mkRenderer 2 2 (replicate 16 7) (View_new (-1 / 2)%R 0%R 1%R 2 2) Rendering in
  m_renderingPixels (render rd (fun y => Z.eqb y 0) [1; 0])
  = render_rows (View_new (-1 / 2)%R 0%R 1%R 2 2) 2 (fun _ => false) [1] (replicate 16 7)
  /\ load (m_renderingPixels (render rd (fun y => Z.eqb y 0) [1; 0]))
          (pixel_offset 2 1 0 + 3) = Some 7.
Proof.
  intros rd.
  destruct (render_cancelled rd (fun y => Z.eqb y 0) [1] 0 []) as (_ & E & Hkeep & _).
  - cbn. unfold Int.INT_MAX. lia.
  - intros y' Hin. apply list_elem_of_singleton in Hin as ->. cbn. split; [lia | reflexivity].
  - reflexivity.
  - split; [exact E |].
    etransitivity; [apply (Hkeep 1 0 3) | reflexivity]; try (cbn; lia).
    intros Hin. apply list_elem_of_singleton in Hin. lia.
Defined.

(** ** The drawing loop *)

Section DrawFacts.

Context {T : Type} `{RM : RealMath T}.

Lemma draw_pass_dirty (s : @DrawState T) :
  isDirty (m_renderingView (ds_renderer s)) = true ->
  Z.of_nat (length (m_renderingPixels (ds_renderer s))) = m_bufferSizeBytes s ->
  let s' := fst (draw_pass s) in
  m_renderingView (ds_renderer s') = set_dirty (m_renderingView (ds_renderer s)) false
  /\ m_renderingState (ds_renderer s') = Rendering
  /\ m_renderingPixels (ds_renderer s')
     = replicate (length (m_renderingPixels (ds_renderer s))) 0
  /\ m_completedPixels s' = m_completedPixels s
  /\ m_completedView s' = m_completedView s
  /\ snd (draw_pass s)
     = [CancelRendering] ++ roughDraw s'
       ++ [Display; ClearWindow; DrawSprite; Display; LaunchRendering]
       ++ roughDraw s' ++ detailedDraw s'
       ++ (if getZoomBoxIsShown (m_renderingView (ds_renderer s))
           then [DrawShape
                   (shape_position (getZoomBoxShape (m_renderingView (ds_renderer s))))
                   (shape_size (getZoomBoxShape (m_renderingView (ds_renderer s))))]
           else [])
       ++ [Display].
Proof.
  intros Hdirty Hlen s'.
  assert (Es : draw_restart s
               = (mkDrawState
                    (mkRenderer (m_width (ds_renderer s)) (m_height (ds_renderer s))
                       (replicate (length (m_renderingPixels (ds_renderer s))) 0)
                       (set_dirty (m_renderingView (ds_renderer s)) false) Rendering)
                    (m_bufferSizeBytes s) (m_completedPixels s) (m_completedView s),
                  [CancelRendering]
                  ++ roughDraw (mkDrawState
                                  (set_renderingView (ds_renderer s)
                                     (set_dirty (m_renderingView (ds_renderer s)) false))
                                  (m_bufferSizeBytes s) (m_completedPixels s)
                                  (m_completedView s))
                  ++ [Display; ClearWindow; DrawSprite; Display] ++ [LaunchRendering])).
  { unfold draw_restart. rewrite Hdirty.
    cbn [m_bufferSizeBytes m_renderingPixels set_renderingView set_renderingPixels
         set_renderingState m_width m_height m_renderingView m_renderingState
         m_completedPixels m_completedView].
    rewrite clear_pixels_zero by exact Hlen. reflexivity. }
  subst s'. unfold draw_pass. rewrite Es. unfold draw_present.
  cbn [ds_renderer m_renderingState m_renderingView RenderingState_eqb orb negb
       fst snd getZoomBoxIsShown m_zoomBoxIsShown set_dirty getZoomBoxShape
       m_zoomBoxShape m_completedPixels m_completedView m_renderingPixels].
  repeat apply conj; reflexivity.
Qed.

(** A pass that finds the view dirty clears the flag, leaves the rendering
    buffer fully transparent and the state [Rendering], does not touch the
    completed buffer and view, and asks for: the cancellation of the running
    render, the rough image shown twice, the launch of a new render, and then
    the rough image again under the (empty) detailed one. *)
Theorem draw_pass_restart (s : @DrawState T) :
  isDirty (m_renderingView (ds_renderer s)) = true ->
  Z.of_nat (length (m_renderingPixels (ds_renderer s))) = m_bufferSizeBytes s ->
  let s' := fst (draw_pass s) in
  m_renderingView (ds_renderer s') = set_dirty (m_renderingView (ds_renderer s)) false
  /\ m_renderingState (ds_renderer s') = Rendering
  /\ m_renderingPixels (ds_renderer s')
     = replicate (length (m_renderingPixels (ds_renderer s))) 0
  /\ m_completedPixels s' = m_completedPixels s
  /\ m_completedView s' = m_completedView s
  /\ snd (draw_pass s)
     = [CancelRendering] ++ roughDraw s'
       ++ [Display; ClearWindow; DrawSprite; Display; LaunchRendering]
       ++ roughDraw s' ++ detailedDraw s'
       ++ (if getZoomBoxIsShown (m_renderingView (ds_renderer s))
           then [DrawShape
                   (shape_position (getZoomBoxShape (m_renderingView (ds_renderer s))))
                   (shape_size (getZoomBoxShape (m_renderingView (ds_renderer s))))]
           else [])
       ++ [Display].
Proof. apply draw_pass_dirty. Qed.

(** One full cycle.  A pass finds the view dirty (no zoom box shown); the
    render it launches runs to its end without being cancelled; the next
    pass then shows the detailed image once, copies the rendering buffer
    byte for byte into the completed buffer, takes the rendering view as the
    completed view and moves to [Displayed]; the completed buffer holds the
    colour of every pixel; and the pass after that draws nothing and changes
    nothing. *)
Theorem draw_cycle (s0 : @DrawState T) (cancelling : Z -> bool) (rows : list Z) :
  let W := m_width (ds_renderer s0) in
  let H' := m_height (ds_renderer s0) in
  isDirty (m_renderingView (ds_renderer s0)) = true ->
  getZoomBoxIsShown (m_renderingView (ds_renderer s0)) = false ->
  m_bufferSizeBytes s0 = 4 * W * H' ->
  4 * W * H' <= Int.INT_MAX ->
  Z.of_nat (length (m_renderingPixels (ds_renderer s0))) = 4 * W * H' ->
  length (m_completedPixels s0) = length (m_renderingPixels (ds_renderer s0)) ->
  (forall y, cancelling y = false) ->
  (forall y, y ∈ rows <-> 0 <= y < H') ->
  let s1 := fst (draw_pass s0) in
  let s2 := render_thread s1 cancelling rows in
  let s3 := fst (draw_pass s2) in
  m_renderingState (ds_renderer s1) = Rendering
  /\ m_renderingState (ds_renderer s2) = Completed
  /\ m_renderingState (ds_renderer s3) = Displayed
  /\ m_completedPixels s3 = m_renderingPixels (ds_renderer s2)
  /\ m_renderingPixels (ds_renderer s3) = m_renderingPixels (ds_renderer s2)
  /\ m_completedView s3 = m_renderingView (ds_renderer s3)
  /\ (forall x y, 0 <= x < W -> 0 <= y < H' ->
                  pixel_rendered (m_completedView s3) W (m_completedPixels s3) x y)
  /\ snd (draw_pass s2) = detailedDraw s2 ++ [Display]
  /\ draw_pass s3 = (s3, []).
Proof.
  intros W H' Hdirty Hbox Hbytes Hsize Hlen Hlenc Hnc Hrows s1 s2 s3.
  destruct (draw_pass_dirty s0 Hdirty ltac:(lia))
    as (Ev1 & Est1 & Epx1 & Ecp1 & Ecv1 & _).
  fold s1 in Ev1, Est1, Epx1, Ecp1, Ecv1.
  assert (Ew1 : m_width (ds_renderer s1) = W /\ m_height (ds_renderer s1) = H'
                /\ m_bufferSizeBytes s1 = 4 * W * H').
  { subst s1. unfold draw_pass, draw_restart. rewrite Hdirty.
    unfold draw_present. cbn. repeat split; assumption || reflexivity. }
  destruct Ew1 as (Ew1 & Eh1 & Eb1).
  assert (Hal1 : buffer_allocated W H' (m_renderingPixels (ds_renderer s1))).
  { unfold buffer_allocated. rewrite Epx1, length_replicate. exact Hlen. }
  destruct (render_rows_spec (m_renderingView (ds_renderer s1)) W H' Hsize
              cancelling rows Hnc (fun y Hin => proj1 (Hrows y) Hin)
              (m_renderingPixels (ds_renderer s1)) Hal1) as (Hal2 & _ & Hnew).
  assert (Epx2 : m_renderingPixels (ds_renderer s2)
                 = render_rows (m_renderingView (ds_renderer s1)) W cancelling rows
                     (m_renderingPixels (ds_renderer s1))).
  { subst s2. cbn. rewrite Ew1. reflexivity. }
  assert (Edirty2 : isDirty (m_renderingView (ds_renderer s2)) = false).
  { subst s2. cbn. rewrite Ev1. reflexivity. }
  assert (Ebox2 : getZoomBoxIsShown (m_renderingView (ds_renderer s2)) = false).
  { subst s2. cbn. rewrite Ev1. exact Hbox. }
  assert (Ecopy : copy_pixels (m_bufferSizeBytes s2) (m_renderingPixels (ds_renderer s2))
                    (m_completedPixels s2) = m_renderingPixels (ds_renderer s2)).
  { apply copy_pixels_all.
    - rewrite Epx2. unfold buffer_allocated in Hal2. rewrite Hal2.
      subst s2. cbn. now rewrite Eb1.
    - rewrite Epx2.
      assert (length (render_rows (m_renderingView (ds_renderer s1)) W cancelling rows
                        (m_renderingPixels (ds_renderer s1)))
              = length (m_renderingPixels (ds_renderer s1))) as ->.
      { unfold buffer_allocated in Hal1, Hal2. lia. }
      subst s2. cbn. rewrite Ecp1, Epx1, length_replicate. exact Hlenc. }
  assert (Es3 : draw_pass s2
                = (mkDrawState (set_renderingState (ds_renderer s2) Displayed)
                     (m_bufferSizeBytes s2) (m_renderingPixels (ds_renderer s2))
                     (m_renderingView (ds_renderer s2)),
                   detailedDraw s2 ++ [Display])).
  { unfold draw_pass, draw_restart. rewrite Edirty2. unfold draw_present.
    rewrite Ebox2, Ecopy.
    replace (m_renderingState (ds_renderer s2)) with Completed by reflexivity.
    cbn [RenderingState_eqb orb negb app]. reflexivity. }
  assert (Es3' : s3 = mkDrawState (set_renderingState (ds_renderer s2) Displayed)
                        (m_bufferSizeBytes s2) (m_renderingPixels (ds_renderer s2))
                        (m_renderingView (ds_renderer s2)))
    by (subst s3; now rewrite Es3).
  repeat apply conj.
  - exact Est1.
  - reflexivity.
  - now rewrite Es3'.
  - now rewrite Es3'.
  - now rewrite Es3'.
  - now rewrite Es3'.
  - intros x y Hx Hy. rewrite Es3'.
    cbn [m_completedView m_completedPixels]. rewrite Epx2.
    replace (m_renderingView (ds_renderer s2)) with (m_renderingView (ds_renderer s1))
      by reflexivity.
    apply Hnew; [exact Hx | apply Hrows; exact Hy].
  - now rewrite Es3.
  - rewrite Es3'. unfold draw_pass, draw_restart.
    cbn [ds_renderer set_renderingState m_renderingView]. rewrite Edirty2.
    unfold draw_present.
    cbn [ds_renderer set_renderingState m_renderingView m_renderingState
         RenderingState_eqb orb negb]. rewrite Ebox2. reflexivity.
Qed.

End DrawFacts.

Lemma draw_pass_restart_witness :
  let s := mkDrawState
             (mkRenderer 2 2 (replicate 16 7) (View_new (-1 / 2)%R 0%R 1%R 2 2) Completed)
             16 (replicate 16 9) (View_new (-1 / 2)%R 0%R 1%R 2 2) in
  m_renderingState (ds_renderer (fst (draw_pass s))) = Rendering
  /\ m_renderingPixels (ds_renderer (fst (draw_pass s))) = replicate 16 0.
Proof.
  intros s.
  destruct (draw_pass_restart s) as (_ & Hst & Hpx & _).
  - reflexivity.
  - reflexivity.
  - split; [exact Hst | exact Hpx].
Defined.

Lemma draw_cycle_witness :
  let s0 := mkDrawState
              (mkRenderer 2 2 (replicate 16 7) (View_new (-1 / 2)%R 0%R 1%R 2 2) Completed)
              16 (replicate 16 9) (View_new (-1 / 2)%R 0%R 1%R 2 2) in
  let s2 := render_thread (fst (draw_pass s0)) (fun _ => false) [1; 0] in
  m_renderingState (ds_renderer (fst (draw_pass s2))) = Displayed
  /\ m_completedPixels (fst (draw_pass s2)) = m_renderingPixels (ds_renderer s2).
Proof.
  intros s0 s2.
  destruct (draw_cycle s0 (fun _ => false) [1; 0]) as (_ & _ & Hst & Hcp & _).
  - reflexivity.
  - reflexivity.
  - reflexivity.
  - cbn. unfold Int.INT_MAX. lia.
  - reflexivity.
  - reflexivity.
  - reflexivity.
  - intros y. cbn [m_height ds_renderer s0]. rewrite !elem_of_cons, elem_of_nil. lia.
  - split; [exact Hst | exact Hcp].
Defined.

(** ** Where the rough image goes (exact arithmetic) *)

(** With the completed view [c] as the mutators leave it and a rendering
    view [r] on the same screen: if [r] is [c] panned by [moveBy(dx, dy)],
    [roughDraw] puts the completed image [dx * H / 2] pixels left and
    [dy * H / 2] pixels up, at scale 1 (so at the origin when nothing
    moved); if [r] has the centre of [c] and another scale, it draws the
    image scaled by [scale_c / scale_r] about the middle of the screen. *)
Theorem roughDraw_geometry (s : @DrawState R) :
  let c := m_completedView s in
  let r := m_renderingView (ds_renderer s) in
  view_wf c -> (0 < m_scale c)%R -> (0 < m_scale r)%R ->
  m_screenSize r = m_screenSize c ->
  let W := IZR (vx (m_screenSize c)) in
  let H' := IZR (vy (m_screenSize c)) in
  (forall dx dy,
     m_centre r = m_centre (moveBy c dx dy) -> m_scale r = m_scale c ->
     roughPosition s = mkVector2 (to_int (- (dx * H') / 2)%R) (to_int (- (dy * H') / 2)%R)
     /\ roughScale s = 1%R)
  /\ (m_centre r = m_centre c -> m_scale r = m_scale c ->
      roughPosition s = mkVector2 0 0 /\ roughScale s = 1%R)
  /\ (m_centre r = m_centre c ->
      roughPosition s
      = mkVector2 (to_int (W / 2 * (1 - m_scale c / m_scale r))%R)
                  (to_int (H' / 2 * (1 - m_scale c / m_scale r))%R)
      /\ roughScale s = (m_scale c / m_scale r)%R).
Proof.
  intros c r (HW & HH & Ha & Hr) Hsc Hsr Hsz W H'.
  assert (HW' : (0 < W)%R) by (apply IZR_lt; lia).
  assert (HH' : (0 < H')%R) by (apply IZR_lt; lia).
  assert (Eleft : rect_left (getViewport c)
                  = (vx (m_centre c) - m_scale c * (W / H'))%R).
  { unfold getViewport. rewrite Hr, updateViewport_rect. cbn. rewrite Ha. reflexivity. }
  assert (Etop : rect_top (getViewport c) = (vy (m_centre c) - m_scale c)%R).
  { unfold getViewport. rewrite Hr, updateViewport_rect. reflexivity. }
  assert (Epos : roughPosition s
                 = mkVector2
                     (to_int (1 / 2 * ((vx (m_centre c) - m_scale c * (W / H')
                                        - vx (m_centre r)) * (H' / m_scale r) + W))%R)
                     (to_int (1 / 2 * ((vy (m_centre c) - m_scale c
                                        - vy (m_centre r)) * (H' / m_scale r) + H'))%R)).
  { unfold roughPosition, pixelAtComplex. fold c. fold r.
    rewrite Eleft, Etop, Hsz. unfold HALF, literal. reflexivity. }
  assert (Epan : forall dx dy,
             m_centre r = m_centre (moveBy c dx dy) -> m_scale r = m_scale c ->
             roughPosition s
             = mkVector2 (to_int (- (dx * H') / 2)%R) (to_int (- (dy * H') / 2)%R)
             /\ roughScale s = 1%R).
  { intros dx dy Ec Es. split.
    - rewrite Epos, Ec, Es. cbn [m_centre moveBy updateViewport set_rect set_dirty
        set_centre vx vy m_scale radd rmul R_Real].
      f_equal; apply (f_equal ExactReal.R_to_int); field; lra.
    - unfold roughScale, getScale. fold c. fold r. rewrite Es. cbn. field. lra. }
  repeat apply conj.
  - exact Epan.
  - intros Ec Es.
    destruct (Epan 0%R 0%R) as [Ep Esc1]; [| exact Es |].
    + rewrite Ec. cbn. destruct (m_centre c) as [cx cy]. cbn. f_equal; ring.
    + split; [| exact Esc1]. rewrite Ep.
      replace (- (0 * H') / 2)%R with (IZR 0) by (cbn; lra).
      cbn [to_int R_Real].
      rewrite R_to_int_IZR by (unfold Int.fits, Int.INT_MIN, Int.INT_MAX; lia).
      reflexivity.
  - intros Ec. split; [| reflexivity].
    rewrite Epos, Ec. f_equal; apply (f_equal ExactReal.R_to_int); field; lra.
Qed.

Lemma roughDraw_geometry_witness :
  let v := View_new (-1 / 2)%R 0%R 1%R 800 600 in
  let s := mkDrawState (mkRenderer 800 600 [] (moveBy v (1 / 4)%R 0%R) Rendering)
             0 [] v in
  roughScale s = 1%R.
Proof.
  intros v s.
  destruct (roughDraw_geometry s) as (Hpan & _).
  - unfold view_wf, Int.INT_MAX. cbn. repeat split; lia.
  - cbn. apply exp_pos.
  - cbn. apply exp_pos.
  - reflexivity.
  - destruct (Hpan (1 / 4)%R 0%R) as [_ E]; [reflexivity | reflexivity | exact E].
Defined.

(** ** The two versions of the drawing loop *)

Section DrawVersions.

Context {T : Type} `{RM : RealMath T}.

(** One pass of the first drawing loop against one pass of the later one, on
    the same buffers and views with the counter standing for the state: the
    passes leave the same buffers and views, the counter still standing for
    the state.  While the view is dirty, a render is running or the zoom box
    is shown, both ask the window for the same things.  Otherwise the later
    loop leaves out what the first one repeats: the rough image under a
    completed render, and the whole frame once the render is displayed. *)
Theorem draw_pass_versions (o : @Renderer0 T) (s : @DrawState T) :
  same_frame o s ->
  let dirty := isDirty (m_renderingView (ds_renderer s)) in
  let box := getZoomBoxIsShown (m_renderingView (ds_renderer s)) in
  let st := m_renderingState (ds_renderer s) in
  same_frame (fst (draw_pass0 o)) (fst (draw_pass s))
  /\ (dirty = true \/ st = Rendering \/ box = true ->
      snd (draw_pass0 o) = snd (draw_pass s))
  /\ (dirty = false -> box = false -> st = Completed ->
      snd (draw_pass0 o) = roughDraw s ++ snd (draw_pass s))
  /\ (dirty = false -> box = false -> st = Displayed ->
      snd (draw_pass s) = [] /\ snd (draw_pass0 o) = roughDraw s ++ [Display]).
Proof.
  intros (Hw & Hh & Hb & Hp & Hc & Hv & Hcv & Hst).
  destruct o as [w0 h0 bs0 px0 cpx0 v0 cv0 c0].
  destruct s as [[w h px view st] bs cpx cv].
  cbn [m_width0 m_height0 m_bufferSizeBytes0 m_renderingPixels0 m_completedPixels0
       m_renderingView0 m_completedView0 m_completedThreads
       ds_renderer m_bufferSizeBytes m_completedPixels m_completedView
       m_width m_height m_renderingPixels m_renderingView m_renderingState] in *.
  subst w0 h0 bs0 px0 cpx0 v0 cv0.
  cbv zeta.
  unfold draw_pass0, draw_pass, draw_restart0, draw_restart, draw_present0, draw_present,
    same_frame, roughDraw0, roughDraw, detailedDraw0, detailedDraw, roughPosition, roughScale,
    RENDER_CONTINUOUSLY, ALREADY_DISPLAYED, set_renderingView, set_renderingPixels,
    set_renderingState, isDirty, getZoomBoxIsShown, getZoomBoxShape, getViewport, getScale.
  cbn [m_width0 m_height0 m_bufferSizeBytes0 m_renderingPixels0 m_completedPixels0
       m_renderingView0 m_completedView0 m_completedThreads
       ds_renderer m_bufferSizeBytes m_completedPixels m_completedView
       m_width m_height m_renderingPixels m_renderingView m_renderingState].
  destruct view as [d sc zm ce re ss ar shown c1 c2 shp].
  cbn [m_dirty m_zoomBoxIsShown m_zoomBoxShape set_dirty].
  destruct d, st, shown; cbn in Hst; subst c0;
    cbn -[clear_pixels copy_pixels pixelAtComplex];
    (repeat apply conj); try reflexivity;
    try (intros; discriminate);
    try (intros [? | [? | ?]]; discriminate);
    try (intros _ _ _; split; reflexivity).
Qed.

End DrawVersions.

Lemma draw_pass_versions_witness :
  let v := View_new (-1 / 2)%R 0%R 1%R 800 600 in
  snd (draw_pass0 (mkRenderer0 2 2 16 (replicate 16 7) (replicate 16 0) v v 1))
  = snd (draw_pass (mkDrawState (mkRenderer 2 2 (replicate 16 7) v Completed)
                      16 (replicate 16 0) v)).
Proof.
  intros v.
  destruct (draw_pass_versions
              (mkRenderer0 2 2 16 (replicate 16 7) (replicate 16 0) v v 1)
              (mkDrawState (mkRenderer 2 2 (replicate 16 7) v Completed)
                 16 (replicate 16 0) v)) as (_ & E & _).
  - unfold same_frame. cbn. repeat split; reflexivity.
  - apply E. left. reflexivity.
Defined.

(** In exact arithmetic the colour of a pixel is the same with either hue
    ramp: the hue [360 * m] is never negative. *)
Lemma pixelColour_chain_eq (v : @View R) (x y : Z) :
  pixelColour_chain v x y = pixelColour v x y.
Proof.
  unfold pixelColour_chain, pixelColour. cbn [rltb rmul of_int R_Real].
  destruct (ExactReal.R_ltb (mandelbrot v (complexAtPixel v x y)) 1); [| reflexivity].
  symmetry. apply hueToRGB_switch_chain.
  destruct (mandelbrot_unit_interval v (complexAtPixel v x y)) as [Hge _]. lra.
Qed.

Lemma fold_left_pointwise {A B : Type} (f g : A -> B -> A) (l : list B) :
  (forall a b, f a b = g a b) -> forall a, fold_left f l a = fold_left g l a.
Proof.
  intros E. induction l as [| b l IH]; intros a; [reflexivity |].
  cbn [fold_left]. now rewrite E, IH.
Qed.

Lemma render_rows0_eq (v : @View R) (width : Z) (cancelling : Z -> bool)
  (rows : list Z) :
  forall buf, render_rows0 v width cancelling rows buf
              = render_rows v width cancelling rows buf.
Proof.
  induction rows as [| y rows IH]; intros buf; [reflexivity |].
  cbn [render_rows0 render_rows]. destruct (cancelling y); [reflexivity |].
  rewrite IH. f_equal. unfold render_row0, render_row.
  apply fold_left_pointwise. intros b x.
  unfold render_pixel0, render_pixel. now rewrite pixelColour_chain_eq.
Qed.

(** The first [render()] against the later one (exact arithmetic): started
    on the same buffers and views, with the counter at 0 where the state is
    [Rendering], they write the same bytes, cancelled or not, and the
    counter they leave, 1, stands for the state [Completed]. *)
Theorem render_versions (o : @Renderer0 R) (s : @DrawState R)
  (cancelling : Z -> bool) (rows : list Z) :
  same_frame o s ->
  m_renderingState (ds_renderer s) = Rendering ->
  same_frame (render0 o cancelling rows) (render_thread s cancelling rows)
  /\ m_completedThreads (render0 o cancelling rows) = 1
  /\ m_renderingPixels0 (render0 o cancelling rows)
     = render_rows (m_renderingView (ds_renderer s)) (m_width (ds_renderer s))
         cancelling rows (m_renderingPixels (ds_renderer s)).
Proof.
  intros (Hw & Hh & Hb & Hp & Hc & Hv & Hcv & Hst) Est.
  rewrite Est in Hst. cbn in Hst.
  assert (Epx : m_renderingPixels0 (render0 o cancelling rows)
                = render_rows (m_renderingView (ds_renderer s)) (m_width (ds_renderer s))
                    cancelling rows (m_renderingPixels (ds_renderer s))).
  { unfold render0. cbn [m_renderingPixels0]. rewrite render_rows0_eq.
    now rewrite Hw, Hp, Hv. }
  repeat apply conj; try assumption.
  - unfold render0. cbn [m_completedThreads]. rewrite Hst. reflexivity.
  - unfold render0. cbn [m_completedThreads]. rewrite Hst. reflexivity.
Qed.

Lemma render_versions_witness :
  let v := View_new (-1 / 2)%R 0%R 1%R 2 2 in
  m_completedThreads
    (render0 (mkRenderer0 2 2 16 (replicate 16 0) (replicate 16 0) v v 0)
       (fun _ => false) [0; 1]) = 1.
Proof.
  intros v.
  destruct (render_versions
              (mkRenderer0 2 2 16 (replicate 16 0) (replicate 16 0) v v 0)
              (mkDrawState (mkRenderer 2 2 (replicate 16 0) v Rendering)
                 16 (replicate 16 0) v)
              (fun _ => false) [0; 1]) as (_ & E & _).
  - unfold same_frame. cbn. repeat split; reflexivity.
  - reflexivity.
  - exact E.
Defined.

(** ** The tiled renderer of Main.cpp *)

Lemma wrap_uint_small (z : Z) : 0 <= z < 2 ^ 32 -> UInt.wrap_uint z = z.
Proof. intros Hz. unfold UInt.wrap_uint. now apply Z.mod_small. Qed.

Section TileFacts.

Context {T : Type} `{RM : RealMath T}.

Variable v : @View T.

Local Abbreviation allocated buf :=
  (Z.of_nat (length buf) = 4 * SCREEN_W * SCREEN_H).
Local Abbreviation on_screen x y := (0 <= x < SCREEN_W /\ 0 <= y < SCREEN_H).
Local Abbreviation same_bytes buf buf' x y :=
  (forall k, 0 <= k < 4 ->
             load buf' (pixel_offset SCREEN_W x y + k)
             = load buf (pixel_offset SCREEN_W x y + k)).

Lemma write_chain_here (buf : list Z) (x y : Z) :
  on_screen x y -> allocated buf ->
  chain_rendered v
    (write_pixel buf (pixel_offset SCREEN_W x y) (pixelColour_chain v x y)) x y.
Proof.
  intros [Hx Hy] Hl. unfold chain_rendered, pixel_stored.
  apply write_pixel_here; unfold pixel_offset, SCREEN_W, SCREEN_H in *; lia.
Qed.

Lemma write_chain_other (buf : list Z) (c : Color) (x y x' y' : Z) :
  on_screen x y -> on_screen x' y' -> (x', y') <> (x, y) ->
  same_bytes buf (write_pixel buf (pixel_offset SCREEN_W x y) c) x' y'.
Proof.
  intros [Hx Hy] [Hx' Hy'] Hne k Hk.
  assert (Hp : y * SCREEN_W + x <> y' * SCREEN_W + x').
  { intros E. apply Hne. unfold SCREEN_W in *. f_equal; lia. }
  apply write_pixel_other. unfold pixel_offset, SCREEN_W in *. lia.
Qed.

Lemma write_chain_keeps (buf : list Z) (x y x' y' : Z) :
  on_screen x y -> on_screen x' y' -> allocated buf ->
  chain_rendered v buf x' y' ->
  chain_rendered v
    (write_pixel buf (pixel_offset SCREEN_W x y) (pixelColour_chain v x y)) x' y'.
Proof.
  intros Hxy Hxy' Hl Hold.
  destruct (decide ((x', y') = (x, y))) as [E | Hne].
  - injection E as -> ->. now apply write_chain_here.
  - pose proof (write_chain_other buf (pixelColour_chain v x y) x y x' y' Hxy Hxy' Hne) as Hs.
    unfold chain_rendered, pixel_stored in *.
    destruct Hold as (H0 & H1 & H2 & H3).
    pose proof (Hs 0 ltac:(lia)) as S0. rewrite Z.add_0_r in S0.
    rewrite S0, (Hs 1), (Hs 2), (Hs 3) by lia. auto.
Qed.

(** The inner loop: the pointer stays on the pixel being coloured. *)
Lemma renderPixels_row_spec (y : Z) (n : nat) :
  0 <= y < SCREEN_H ->
  forall (x : Z) (buf : list Z),
    0 <= x -> x + Z.of_nat n <= SCREEN_W -> allocated buf ->
    let res := renderPixels_row v y n x (pixel_offset SCREEN_W x y) buf in
    fst res = pixel_offset SCREEN_W (x + Z.of_nat n) y
    /\ allocated (snd res)
    /\ (forall x' y', on_screen x' y' ->
                      chain_rendered v buf x' y' -> chain_rendered v (snd res) x' y')
    /\ (forall x', x <= x' < x + Z.of_nat n -> chain_rendered v (snd res) x' y)
    /\ (forall x' y', on_screen x' y' -> ~ (y' = y /\ x <= x' < x + Z.of_nat n) ->
                      same_bytes buf (snd res) x' y').
Proof.
  intros Hy. induction n as [| n IH]; intros x buf Hx Hn Hl res.
  - subst res. cbn [renderPixels_row fst snd]. rewrite Z.add_0_r.
    repeat apply conj; auto; intros; lia.
  - subst res. cbn [renderPixels_row].
    assert (Hxy : on_screen x y) by (split; [lia | exact Hy]).
    assert (Eadd : Int.add x 1 = x + 1).
    { unfold Int.add. apply wrap_int_fits.
      unfold Int.fits, Int.INT_MIN, Int.INT_MAX, SCREEN_W in *. lia. }
    assert (Eptr : pixel_offset SCREEN_W x y + 4 = pixel_offset SCREEN_W (x + 1) y)
      by (unfold pixel_offset; lia).
    rewrite Eadd, Eptr.
    set (buf1 := write_pixel buf (pixel_offset SCREEN_W x y) (pixelColour_chain v x y)).
    assert (Hl1 : allocated buf1) by (unfold buf1; now rewrite write_pixel_length).
    destruct (IH (x + 1) buf1 ltac:(lia) ltac:(lia) Hl1) as (Ep & Hl' & Hkeep & Hnew & Hsame).
    repeat apply conj.
    + rewrite Ep. f_equal. lia.
    + exact Hl'.
    + intros x' y' Hon Hold. apply Hkeep; [exact Hon |].
      now apply write_chain_keeps.
    + intros x' Hx'. destruct (Z.eq_dec x' x) as [-> | Hne].
      * apply Hkeep; [exact Hxy |]. now apply write_chain_here.
      * apply Hnew. lia.
    + intros x' y' Hon Hout k Hk.
      rewrite (Hsame x' y' Hon ltac:(lia) k Hk).
      apply write_chain_other; try assumption.
      intros E. injection E as -> ->. lia.
Qed.

(** The outer loop: the row stride brings the pointer to the start of the
    tile's next row. *)
Lemma renderPixels_rows_spec (rect : Rect Z) (n : nat) :
  0 <= rect_left rect -> 0 <= rect_width rect ->
  rect_left rect + rect_width rect <= SCREEN_W ->
  forall (y : Z) (buf : list Z),
    0 <= y -> y + Z.of_nat n <= SCREEN_H -> allocated buf ->
    let res := renderPixels_rows v rect (4 * (SCREEN_W - rect_width rect)) n y
                 (pixel_offset SCREEN_W (rect_left rect) y) buf in
    allocated res
    /\ (forall x' y', on_screen x' y' ->
                      chain_rendered v buf x' y' -> chain_rendered v res x' y')
    /\ (forall x' y', rect_left rect <= x' < rect_left rect + rect_width rect ->
                      y <= y' < y + Z.of_nat n -> chain_rendered v res x' y')
    /\ (forall x' y', on_screen x' y' ->
                      ~ (rect_left rect <= x' < rect_left rect + rect_width rect
                         /\ y <= y' < y + Z.of_nat n) ->
                      same_bytes buf res x' y').
Proof.
  intros Hleft Hwidth Hright. induction n as [| n IH]; intros y buf Hy Hn Hl res.
  - subst res. cbn [renderPixels_rows].
    repeat apply conj; auto; intros; lia.
  - subst res. cbn [renderPixels_rows].
    assert (Hy' : 0 <= y < SCREEN_H) by lia.
    destruct (renderPixels_row_spec y (Z.to_nat (rect_width rect)) Hy'
                (rect_left rect) buf Hleft ltac:(lia) Hl)
      as (Ep & Hl1 & Hkeep1 & Hnew1 & Hsame1).
    destruct (renderPixels_row v y (Z.to_nat (rect_width rect)) (rect_left rect)
                (pixel_offset SCREEN_W (rect_left rect) y) buf) as [p buf1].
    cbn [fst snd] in *.
    assert (Eadd : Int.add y 1 = y + 1).
    { unfold Int.add. apply wrap_int_fits.
      unfold Int.fits, Int.INT_MIN, Int.INT_MAX, SCREEN_H in *. lia. }
    assert (Eptr : p + 4 * (SCREEN_W - rect_width rect)
                   = pixel_offset SCREEN_W (rect_left rect) (y + 1)).
    { rewrite Ep. unfold pixel_offset. lia. }
    rewrite Eadd, Eptr.
    destruct (IH (y + 1) buf1 ltac:(lia) ltac:(lia) Hl1) as (Hl' & Hkeep & Hnew & Hsame).
    repeat apply conj.
    + exact Hl'.
    + intros x' y' Hon Hold. apply Hkeep; [exact Hon |]. now apply Hkeep1.
    + intros x' y' Hx' Hyr. destruct (Z.eq_dec y' y) as [-> | Hne].
      * apply Hkeep; [unfold SCREEN_W, SCREEN_H in *; lia |].
        apply Hnew1. lia.
      * apply Hnew; [exact Hx' | lia].
    + intros x' y' Hon Hout k Hk.
      rewrite (Hsame x' y' Hon ltac:(lia) k Hk).
      apply Hsame1; [exact Hon | lia | exact Hk].
Qed.

Lemma renderPixels_spec (buf : list Z) (rect : Rect Z) (completed : Z) :
  rect_on_screen rect -> allocated buf -> Int.fits (completed + 1) ->
  let res := renderPixels v buf rect (Some completed) in
  snd res = Some (completed + 1)
  /\ allocated (fst res)
  /\ (forall x y, in_rect rect x y -> chain_rendered v (fst res) x y)
  /\ (forall x y, on_screen x y -> ~ in_rect rect x y -> same_bytes buf (fst res) x y)
  /\ (forall x y, on_screen x y -> chain_rendered v buf x y ->
                  chain_rendered v (fst res) x y).
Proof.
  intros (Hl0 & Ht0 & Hw0 & Hh0 & Hr0 & Hb0) Hl Hc res.
  assert (Estride : Int.wrap_int (UInt.mul 4 (UInt.sub SCREEN_W (UInt.wrap_uint (rect_width rect))))
                    = 4 * (SCREEN_W - rect_width rect)).
  { unfold UInt.mul, UInt.sub, SCREEN_W in *.
    rewrite (wrap_uint_small (rect_width rect)) by lia.
    rewrite (wrap_uint_small (800 - _)) by lia.
    rewrite wrap_uint_small by lia.
    apply wrap_int_fits. unfold Int.fits, Int.INT_MIN, Int.INT_MAX. lia. }
  assert (Estart : UInt.mul 4 (UInt.add (UInt.mul (UInt.wrap_uint (rect_top rect)) SCREEN_W)
                                        (UInt.wrap_uint (rect_left rect)))
                   = pixel_offset SCREEN_W (rect_left rect) (rect_top rect)).
  { unfold UInt.mul, UInt.add, pixel_offset, SCREEN_W, SCREEN_H in *.
    rewrite (wrap_uint_small (rect_top rect)) by lia.
    rewrite (wrap_uint_small (rect_left rect)) by lia.
    rewrite (wrap_uint_small (_ * 800)) by lia.
    rewrite (wrap_uint_small (_ + _)) by lia.
    apply wrap_uint_small. lia. }
  subst res. unfold renderPixels. cbn [fst snd]. rewrite Estride, Estart.
  destruct (renderPixels_rows_spec rect (Z.to_nat (rect_height rect)) Hl0 Hw0 Hr0
              (rect_top rect) buf Ht0 ltac:(lia) Hl) as (Hl' & Hkeep & Hnew & Hsame).
  repeat apply conj.
  - f_equal. unfold Int.add. now apply wrap_int_fits.
  - exact Hl'.
  - intros x y [Hx Hy]. apply Hnew; [exact Hx | lia].
  - intros x y Hon Hout. apply Hsame; [exact Hon |].
    unfold in_rect in Hout. lia.
  - exact Hkeep.
Qed.

(** [renderPixels] on a tile of the screen colours exactly the pixels of the
    tile: each of them holds its colour afterwards, every other pixel of the
    screen keeps its four bytes, pixels coloured before stay coloured, and
    the counter of finished threads goes up by one. *)
Theorem renderPixels_tile (buf : list Z) (rect : Rect Z) (completed : Z) :
  rect_on_screen rect -> allocated buf -> Int.fits (completed + 1) ->
  let res := renderPixels v buf rect (Some completed) in
  snd res = Some (completed + 1)
  /\ allocated (fst res)
  /\ (forall x y, in_rect rect x y -> chain_rendered v (fst res) x y)
  /\ (forall x y, on_screen x y -> ~ in_rect rect x y -> same_bytes buf (fst res) x y)
  /\ (forall x y, on_screen x y -> chain_rendered v buf x y ->
                  chain_rendered v (fst res) x y).
Proof. apply renderPixels_spec. Qed.

End TileFacts.

(** The sixteen tiles, for any window size: a pixel belongs to a tile
    exactly when it lies left of column [4 * (width / 4)] and above row
    [4 * (height / 4)], and then to one tile only.  When the width or the
    height is not a multiple of 4, the last [width mod 4] columns and
    [height mod 4] rows belong to no tile. *)
Theorem tiles_partition (SCREEN_SIZE : Vector2 Z) (x y : Z) :
  0 <= vx SCREEN_SIZE <= Int.INT_MAX -> 0 <= vy SCREEN_SIZE <= Int.INT_MAX ->
  ((exists i j, 0 <= i < 4 /\ 0 <= j < 4 /\ in_rect (tile_rect SCREEN_SIZE i j) x y)
   <-> 0 <= x < 4 * (vx SCREEN_SIZE / 4) /\ 0 <= y < 4 * (vy SCREEN_SIZE / 4))
  /\ (forall i j i' j',
        0 <= i < 4 -> 0 <= j < 4 -> 0 <= i' < 4 -> 0 <= j' < 4 ->
        in_rect (tile_rect SCREEN_SIZE i j) x y ->
        in_rect (tile_rect SCREEN_SIZE i' j') x y ->
        i = i' /\ j = j').
Proof.
  intros Hw Hh. destruct SCREEN_SIZE as [sw sh]. cbn [vx vy] in *.
  unfold Int.INT_MAX in *.
  set (q := sw / 4). set (r := sh / 4).
  assert (Hq : 0 <= q /\ 4 * q <= sw).
  { unfold q. split; [apply Z.div_pos; lia | apply Z.mul_div_le; lia]. }
  assert (Hr : 0 <= r /\ 4 * r <= sh).
  { unfold r. split; [apply Z.div_pos; lia | apply Z.mul_div_le; lia]. }
  assert (Etile : forall i j, 0 <= i < 4 -> 0 <= j < 4 ->
             tile_rect (mkVector2 sw sh) i j = mkRect (q * i) (r * j) q r).
  { intros i j Hi Hj. unfold tile_rect, PIXEL_DIVISION, UInt.div. cbn [vx vy].
    fold q. fold r.
    rewrite !wrap_uint_small by lia.
    rewrite !(wrap_int_fits q), !(wrap_int_fits r)
      by (unfold Int.fits, Int.INT_MIN, Int.INT_MAX; lia).
    unfold Int.mul.
    rewrite !wrap_int_fits by (unfold Int.fits, Int.INT_MIN, Int.INT_MAX; nia).
    reflexivity. }
  assert (Hcases : forall i, 0 <= i < 4 -> i = 0 \/ i = 1 \/ i = 2 \/ i = 3) by (intros; lia).
  split; [split |].
  - intros (i & j & Hi & Hj & Hin). rewrite (Etile i j Hi Hj) in Hin.
    unfold in_rect in Hin. cbn in Hin.
    destruct (Hcases i Hi) as [-> | [-> | [-> | ->]]];
      destruct (Hcases j Hj) as [-> | [-> | [-> | ->]]]; lia.
  - intros [Hx Hy].
    assert (Hi : exists i, 0 <= i < 4 /\ q * i <= x < q * i + q).
    { destruct (Z_lt_dec x q); [exists 0; lia |].
      destruct (Z_lt_dec x (2 * q)); [exists 1; lia |].
      destruct (Z_lt_dec x (3 * q)); [exists 2; lia | exists 3; lia]. }
    assert (Hj : exists j, 0 <= j < 4 /\ r * j <= y < r * j + r).
    { destruct (Z_lt_dec y r); [exists 0; lia |].
      destruct (Z_lt_dec y (2 * r)); [exists 1; lia |].
      destruct (Z_lt_dec y (3 * r)); [exists 2; lia | exists 3; lia]. }
    destruct Hi as (i & Hi & Hxi). destruct Hj as (j & Hj & Hyj).
    exists i, j. rewrite (Etile i j Hi Hj). unfold in_rect. cbn. auto.
  - intros i j i' j' Hi Hj Hi' Hj' Hin Hin'.
    rewrite (Etile i j Hi Hj) in Hin. rewrite (Etile i' j' Hi' Hj') in Hin'.
    unfold in_rect in Hin, Hin'. cbn in Hin, Hin'.
    destruct (Hcases i Hi) as [-> | [-> | [-> | ->]]];
      destruct (Hcases i' Hi') as [-> | [-> | [-> | ->]]];
      destruct (Hcases j Hj) as [-> | [-> | [-> | ->]]];
      destruct (Hcases j' Hj') as [-> | [-> | [-> | ->]]]; lia.
Qed.

Lemma tiles_partition_witness :
  ~ (exists i j, 0 <= i < 4 /\ 0 <= j < 4
                 /\ in_rect (tile_rect (mkVector2 802 600) i j) 800 0).
Proof.
  destruct (tiles_partition (mkVector2 802 600) 800 0) as [[Hin _] _].
  - cbn. unfold Int.INT_MAX. lia.
  - cbn. unfold Int.INT_MAX. lia.
  - intros Hex. apply Hin in Hex. cbn [vx vy] in Hex.
    change (802 / 4) with 200 in Hex. lia.
Defined.

Lemma tile_rects_screen :
  tile_rects (mkVector2 SCREEN_W SCREEN_H)
  = [mkRect 0 0 200 150; mkRect 0 150 200 150; mkRect 0 300 200 150;
     mkRect 0 450 200 150;
     mkRect 200 0 200 150; mkRect 200 150 200 150; mkRect 200 300 200 150;
     mkRect 200 450 200 150;
     mkRect 400 0 200 150; mkRect 400 150 200 150; mkRect 400 300 200 150;
     mkRect 400 450 200 150;
     mkRect 600 0 200 150; mkRect 600 150 200 150; mkRect 600 300 200 150;
     mkRect 600 450 200 150].
Proof. vm_compute. reflexivity. Qed.

Section TileRun.

Context {T : Type} `{RM : RealMath T}.

Variable v : @View T.

Lemma run_tiles_spec (rects : list (Rect Z)) :
  (forall rect, rect ∈ rects -> rect_on_screen rect) ->
  forall (buf : list Z) (completed : Z),
    Z.of_nat (length buf) = 4 * SCREEN_W * SCREEN_H ->
    0 <= completed -> completed + Z.of_nat (length rects) <= Int.INT_MAX ->
    let res := run_tiles v rects (buf, Some completed) in
    snd res = Some (completed + Z.of_nat (length rects))
    /\ Z.of_nat (length (fst res)) = 4 * SCREEN_W * SCREEN_H
    /\ (forall x y, 0 <= x < SCREEN_W /\ 0 <= y < SCREEN_H ->
                    chain_rendered v buf x y -> chain_rendered v (fst res) x y)
    /\ (forall rect x y, rect ∈ rects -> in_rect rect x y ->
                         chain_rendered v (fst res) x y).
Proof.
  induction rects as [| rect rects IH]; intros Hon buf completed Hl Hc Hmax res.
  - subst res. cbn. repeat apply conj; auto.
    + f_equal. lia.
    + intros rect x y Hin. inversion Hin.
  - subst res. unfold run_tiles. cbn [fold_left fst snd].
    assert (Hrect : rect_on_screen rect) by (apply Hon; left).
    destruct (renderPixels_spec v buf rect completed Hrect Hl)
      as (Ec & Hl1 & Hnew1 & _ & Hkeep1).
    { cbn [length] in Hmax. unfold Int.fits, Int.INT_MIN, Int.INT_MAX in *. lia. }
    destruct (renderPixels v buf rect (Some completed)) as [buf1 c1].
    cbn [fst snd] in *. subst c1.
    cbn [length] in Hmax.
    destruct (IH (fun r Hin => Hon r (list_elem_of_further _ _ _ Hin))
                 buf1 (completed + 1) Hl1 ltac:(lia) ltac:(lia))
      as (Ec' & Hl' & Hkeep & Hnew).
    unfold run_tiles in *.
    repeat apply conj.
    + rewrite Ec'. f_equal. cbn [length]. lia.
    + exact Hl'.
    + intros x y Hxy Hold. apply Hkeep; [exact Hxy |]. now apply Hkeep1.
    + intros r x y Hin Hr. apply elem_of_cons in Hin as [-> | Hin].
      * apply Hkeep; [| now apply Hnew1].
        destruct Hrect as (? & ? & ? & ? & ? & ?). unfold in_rect in Hr. lia.
      * now apply (Hnew r).
Qed.

(** Main.cpp as it is, its sixteen rendering threads taken one after
    another in whatever order: once all have run to their end, the counter of
    finished threads reads 16, the value the drawing loop waits for, and
    every pixel of the 800x600 array holds its colour. *)
Theorem run_tiles_complete (rects : list (Rect Z)) (buf : list Z) :
  rects ≡ₚ tile_rects (mkVector2 SCREEN_W SCREEN_H) ->
  Z.of_nat (length buf) = 4 * SCREEN_W * SCREEN_H ->
  let res := run_tiles v rects (buf, Some 0) in
  snd res = Some 16
  /\ forall x y, 0 <= x < SCREEN_W -> 0 <= y < SCREEN_H ->
                 chain_rendered v (fst res) x y.
Proof.
  intros Hperm Hl res.
  assert (Hlen : length rects = 16%nat).
  { rewrite (Permutation_length Hperm), tile_rects_screen. reflexivity. }
  assert (Hin : forall rect, rect ∈ rects
                             <-> rect ∈ tile_rects (mkVector2 SCREEN_W SCREEN_H)).
  { intros rect. now rewrite Hperm. }
  destruct (run_tiles_spec rects) with (buf := buf) (completed := 0)
    as (Ec & _ & _ & Hnew).
  - intros rect Hr. apply Hin in Hr. rewrite tile_rects_screen in Hr.
    unfold rect_on_screen, SCREEN_W, SCREEN_H.
    repeat (apply elem_of_cons in Hr as [-> | Hr]; [cbn; lia |]).
    inversion Hr.
  - exact Hl.
  - lia.
  - rewrite Hlen. unfold Int.INT_MAX. lia.
  - subst res. split; [rewrite Ec, Hlen; reflexivity |].
    intros x y Hx Hy. unfold SCREEN_W, SCREEN_H in Hx, Hy.
    assert (Hi : exists l, (l = 0 \/ l = 200 \/ l = 400 \/ l = 600) /\ l <= x < l + 200).
    { destruct (Z_lt_dec x 200); [exists 0; lia |].
      destruct (Z_lt_dec x 400); [exists 200; lia |].
      destruct (Z_lt_dec x 600); [exists 400; lia | exists 600; lia]. }
    assert (Hj : exists t, (t = 0 \/ t = 150 \/ t = 300 \/ t = 450) /\ t <= y < t + 150).
    { destruct (Z_lt_dec y 150); [exists 0; lia |].
      destruct (Z_lt_dec y 300); [exists 150; lia |].
      destruct (Z_lt_dec y 450); [exists 300; lia | exists 450; lia]. }
    destruct Hi as (l & Hl4 & Hxl). destruct Hj as (t & Ht4 & Hyt).
    apply (Hnew (mkRect l t 200 150)).
    + apply Hin. rewrite tile_rects_screen.
      destruct Hl4 as [-> | [-> | [-> | ->]]];
        destruct Ht4 as [-> | [-> | [-> | ->]]];
        repeat (first [left | right]).
    + unfold in_rect. cbn. lia.
Qed.

End TileRun.

(** ** The stores of the tiles, in any order *)

Section TileStores.

Context {T : Type} `{RM : RealMath T}.

Variable v : @View T.

Local Abbreviation allocated buf :=
  (Z.of_nat (length buf) = 4 * SCREEN_W * SCREEN_H).
Local Abbreviation on_screen x y := (0 <= x < SCREEN_W /\ 0 <= y < SCREEN_H).

Lemma apply_stores_app (ws ws' : list (Z * Z)) (buf : list Z) :
  apply_stores (ws ++ ws') buf = apply_stores ws' (apply_stores ws buf).
Proof. unfold apply_stores. apply fold_left_app. Qed.

Lemma apply_stores_length (ws : list (Z * Z)) :
  forall buf, length (apply_stores ws buf) = length buf.
Proof.
  induction ws as [| w ws IH]; intros buf; [reflexivity |].
  unfold apply_stores in *. cbn [fold_left]. now rewrite IH, length_store.
Qed.

Lemma apply_pixel_stores (p : Z) (c : Color) (buf : list Z) :
  apply_stores (pixel_stores p c) buf = write_pixel buf p c.
Proof. reflexivity. Qed.

(** A thread run alone leaves what its stores, in program order, leave. *)
Lemma renderPixels_row_run (y : Z) (n : nat) :
  forall (x p : Z) (buf : list Z),
    renderPixels_row v y n x p buf
    = (fst (renderPixels_row_stores v y n x p),
       apply_stores (snd (renderPixels_row_stores v y n x p)) buf).
Proof.
  induction n as [| n IH]; intros x p buf; [reflexivity |].
  cbn [renderPixels_row renderPixels_row_stores]. rewrite IH.
  destruct (renderPixels_row_stores v y n (Int.add x 1) (p + 4)) as [q ws].
  cbn [fst snd]. now rewrite apply_stores_app, apply_pixel_stores.
Qed.

Lemma renderPixels_rows_run (rect : Rect Z) (toNextRow : Z) (n : nat) :
  forall (y p : Z) (buf : list Z),
    renderPixels_rows v rect toNextRow n y p buf
    = apply_stores (renderPixels_rows_stores v rect toNextRow n y p) buf.
Proof.
  induction n as [| n IH]; intros y p buf; [reflexivity |].
  cbn [renderPixels_rows renderPixels_rows_stores]. rewrite renderPixels_row_run.
  destruct (renderPixels_row_stores v y (Z.to_nat (rect_width rect)) (rect_left rect) p)
    as [q ws].
  cbn [fst snd]. now rewrite IH, apply_stores_app.
Qed.

Lemma renderPixels_run (buf : list Z) (rect : Rect Z) (completedPtr : option Z) :
  fst (renderPixels v buf rect completedPtr)
  = apply_stores (renderPixels_stores v rect) buf.
Proof. unfold renderPixels, renderPixels_stores. cbn [fst]. apply renderPixels_rows_run. Qed.

Lemma pixel_stores_spec (x y : Z) :
  on_screen x y ->
  (forall w, w ∈ pixel_stores (pixel_offset SCREEN_W x y) (pixelColour_chain v x y) ->
             tile_store v w)
  /\ (forall k, 0 <= k < 4 ->
        (pixel_offset SCREEN_W x y + k, channel (pixelColour_chain v x y) k)
        ∈ pixel_stores (pixel_offset SCREEN_W x y) (pixelColour_chain v x y)).
Proof.
  intros Hxy. split.
  - intros w Hw. unfold pixel_stores in Hw.
    repeat (apply elem_of_cons in Hw as [-> | Hw]);
      [exists x, y, 0 | exists x, y, 1 | exists x, y, 2 | exists x, y, 3 | inversion Hw];
      (split; [exact Hxy |]); (split; [lia |]); (split; [cbn [fst]; lia | reflexivity]).
  - intros k Hk. unfold pixel_stores.
    assert (Hc : k = 0 \/ k = 1 \/ k = 2 \/ k = 3) by lia.
    destruct Hc as [-> | [-> | [-> | ->]]]; cbn [channel Z.eqb]; rewrite ?Z.add_0_r.
    + apply elem_of_cons. now left.
    + do 1 apply list_elem_of_further. apply elem_of_cons. now left.
    + do 2 apply list_elem_of_further. apply elem_of_cons. now left.
    + do 3 apply list_elem_of_further. apply elem_of_cons. now left.
Qed.

(** The stores of a row of a tile: each is the store of the right value into
    a byte of the screen, and each byte of the row's pixels gets one. *)
Lemma renderPixels_row_stores_spec (y : Z) (n : nat) :
  0 <= y < SCREEN_H ->
  forall x : Z,
    0 <= x -> x + Z.of_nat n <= SCREEN_W ->
    let res := renderPixels_row_stores v y n x (pixel_offset SCREEN_W x y) in
    fst res = pixel_offset SCREEN_W (x + Z.of_nat n) y
    /\ (forall w, w ∈ snd res -> tile_store v w)
    /\ (forall x' k, x <= x' < x + Z.of_nat n -> 0 <= k < 4 ->
          (pixel_offset SCREEN_W x' y + k, channel (pixelColour_chain v x' y) k)
          ∈ snd res).
Proof.
  intros Hy. induction n as [| n IH]; intros x Hx Hn res.
  - subst res. cbn [renderPixels_row_stores fst snd]. rewrite Z.add_0_r.
    repeat apply conj; [reflexivity | intros w Hw; inversion Hw | intros; lia].
  - subst res. cbn [renderPixels_row_stores].
    assert (Hxy : on_screen x y) by (split; [lia | exact Hy]).
    assert (Eadd : Int.add x 1 = x + 1).
    { unfold Int.add. apply wrap_int_fits.
      unfold Int.fits, Int.INT_MIN, Int.INT_MAX, SCREEN_W in *. lia. }
    assert (Eptr : pixel_offset SCREEN_W x y + 4 = pixel_offset SCREEN_W (x + 1) y)
      by (unfold pixel_offset; lia).
    rewrite Eadd, Eptr.
    destruct (IH (x + 1) ltac:(lia) ltac:(lia)) as (Ep & Hall & Hnew).
    destruct (renderPixels_row_stores v y n (x + 1) (pixel_offset SCREEN_W (x + 1) y))
      as [q ws].
    cbn [fst snd] in *.
    destruct (pixel_stores_spec x y Hxy) as [Hall0 Hnew0].
    repeat apply conj.
    + rewrite Ep. f_equal. lia.
    + intros w Hw. apply elem_of_app in Hw as [Hw | Hw]; [now apply Hall0 | now apply Hall].
    + intros x' k Hx' Hk. apply elem_of_app.
      destruct (Z.eq_dec x' x) as [-> | Hne].
      * left. now apply Hnew0.
      * right. apply Hnew; lia.
Qed.

Lemma renderPixels_rows_stores_spec (rect : Rect Z) (n : nat) :
  0 <= rect_left rect -> 0 <= rect_width rect ->
  rect_left rect + rect_width rect <= SCREEN_W ->
  forall y : Z,
    0 <= y -> y + Z.of_nat n <= SCREEN_H ->
    let res := renderPixels_rows_stores v rect (4 * (SCREEN_W - rect_width rect)) n y
                 (pixel_offset SCREEN_W (rect_left rect) y) in
    (forall w, w ∈ res -> tile_store v w)
    /\ (forall x' y' k,
          rect_left rect <= x' < rect_left rect + rect_width rect ->
          y <= y' < y + Z.of_nat n -> 0 <= k < 4 ->
          (pixel_offset SCREEN_W x' y' + k, channel (pixelColour_chain v x' y') k) ∈ res).
Proof.
  intros Hleft Hwidth Hright. induction n as [| n IH]; intros y Hy Hn res.
  - subst res. cbn [renderPixels_rows_stores].
    split; [intros w Hw; inversion Hw | intros; lia].
  - subst res. cbn [renderPixels_rows_stores].
    assert (Hy' : 0 <= y < SCREEN_H) by lia.
    destruct (renderPixels_row_stores_spec y (Z.to_nat (rect_width rect)) Hy'
                (rect_left rect) Hleft ltac:(lia)) as (Ep & Hall1 & Hnew1).
    destruct (renderPixels_row_stores v y (Z.to_nat (rect_width rect)) (rect_left rect)
                (pixel_offset SCREEN_W (rect_left rect) y)) as [p ws].
    cbn [fst snd] in *.
    assert (Eadd : Int.add y 1 = y + 1).
    { unfold Int.add. apply wrap_int_fits.
      unfold Int.fits, Int.INT_MIN, Int.INT_MAX, SCREEN_H in *. lia. }
    assert (Eptr : p + 4 * (SCREEN_W - rect_width rect)
                   = pixel_offset SCREEN_W (rect_left rect) (y + 1)).
    { rewrite Ep. unfold pixel_offset. lia. }
    rewrite Eadd, Eptr.
    destruct (IH (y + 1) ltac:(lia) ltac:(lia)) as (Hall & Hnew).
    split.
    + intros w Hw. apply elem_of_app in Hw as [Hw | Hw]; [now apply Hall1 | now apply Hall].
    + intros x' y' k Hx' Hyr Hk. apply elem_of_app.
      destruct (Z.eq_dec y' y) as [-> | Hne].
      * left. apply Hnew1; lia.
      * right. apply Hnew; lia.
Qed.

Lemma renderPixels_stores_spec (rect : Rect Z) :
  rect_on_screen rect ->
  (forall w, w ∈ renderPixels_stores v rect -> tile_store v w)
  /\ (forall x y k, in_rect rect x y -> 0 <= k < 4 ->
        (pixel_offset SCREEN_W x y + k, channel (pixelColour_chain v x y) k)
        ∈ renderPixels_stores v rect).
Proof.
  intros (Hl0 & Ht0 & Hw0 & Hh0 & Hr0 & Hb0).
  assert (Estride : Int.wrap_int (UInt.mul 4 (UInt.sub SCREEN_W (UInt.wrap_uint (rect_width rect))))
                    = 4 * (SCREEN_W - rect_width rect)).
  { unfold UInt.mul, UInt.sub, SCREEN_W in *.
    rewrite (wrap_uint_small (rect_width rect)) by lia.
    rewrite (wrap_uint_small (800 - _)) by lia.
    rewrite wrap_uint_small by lia.
    apply wrap_int_fits. unfold Int.fits, Int.INT_MIN, Int.INT_MAX. lia. }
  assert (Estart : UInt.mul 4 (UInt.add (UInt.mul (UInt.wrap_uint (rect_top rect)) SCREEN_W)
                                        (UInt.wrap_uint (rect_left rect)))
                   = pixel_offset SCREEN_W (rect_left rect) (rect_top rect)).
  { unfold UInt.mul, UInt.add, pixel_offset, SCREEN_W, SCREEN_H in *.
    rewrite (wrap_uint_small (rect_top rect)) by lia.
    rewrite (wrap_uint_small (rect_left rect)) by lia.
    rewrite (wrap_uint_small (_ * 800)) by lia.
    rewrite (wrap_uint_small (_ + _)) by lia.
    apply wrap_uint_small. lia. }
  unfold renderPixels_stores. rewrite Estride, Estart.
  destruct (renderPixels_rows_stores_spec rect (Z.to_nat (rect_height rect)) Hl0 Hw0 Hr0
              (rect_top rect) Ht0 ltac:(lia)) as (Hall & Hnew).
  split; [exact Hall |].
  intros x y k [Hx Hy] Hk. apply Hnew; [exact Hx | lia | exact Hk].
Qed.

(** A byte of the screen determines its pixel and its channel. *)
Lemma byte_address_inj (x y k x' y' k' : Z) :
  on_screen x y -> on_screen x' y' -> 0 <= k < 4 -> 0 <= k' < 4 ->
  pixel_offset SCREEN_W x y + k = pixel_offset SCREEN_W x' y' + k' ->
  x = x' /\ y = y' /\ k = k'.
Proof. unfold pixel_offset, SCREEN_W, SCREEN_H. lia. Qed.

(** Stores of the right values, in whatever order: every byte that gets a
    store ends with the right value. *)
Lemma apply_tile_stores (tr : list (Z * Z)) :
  (forall w, w ∈ tr -> tile_store v w) ->
  forall buf, allocated buf ->
    forall x y k, on_screen x y -> 0 <= k < 4 ->
      (exists b, (pixel_offset SCREEN_W x y + k, b) ∈ tr) ->
      load (apply_stores tr buf) (pixel_offset SCREEN_W x y + k)
      = Some (channel (pixelColour_chain v x y) k).
Proof.
  induction tr as [| w tr IH] using rev_ind; intros Hall buf Hl x y k Hxy Hk [b Hb].
  - inversion Hb.
  - rewrite apply_stores_app. unfold apply_stores at 1. cbn [fold_left].
    destruct (Z.eq_dec (fst w) (pixel_offset SCREEN_W x y + k)) as [E | Hne].
    + destruct (Hall w) as (x1 & y1 & k1 & Hxy1 & Hk1 & Ea & Ev).
      { apply elem_of_app. right. apply elem_of_cons. now left. }
      rewrite Ea in E.
      destruct (byte_address_inj x1 y1 k1 x y k Hxy1 Hxy Hk1 Hk E) as (-> & -> & ->).
      rewrite Ea, Ev. apply load_store_eq.
      rewrite apply_stores_length.
      unfold pixel_offset, SCREEN_W, SCREEN_H in *. lia.
    + rewrite load_store_ne by exact Hne.
      apply IH; try assumption.
      * intros w' Hw'. apply Hall. apply elem_of_app. now left.
      * exists b. apply elem_of_app in Hb as [Hb | Hb]; [exact Hb |].
        apply elem_of_cons in Hb as [Hb | Hb]; [| inversion Hb].
        subst w. cbn [fst] in Hne. congruence.
Qed.

(** Main.cpp, threads running at once: a thread run alone leaves what its
    stores in program order leave; and in whatever order the stores of the
    sixteen threads reach the 800x600 array (any way of interleaving them
    is one), every pixel ends up holding its colour. *)
Theorem tiles_any_interleaving (tr : list (Z * Z)) (buf : list Z) :
  tr ≡ₚ concat (map (renderPixels_stores v) (tile_rects (mkVector2 SCREEN_W SCREEN_H))) ->
  allocated buf ->
  (forall rect completedPtr,
     fst (renderPixels v buf rect completedPtr)
     = apply_stores (renderPixels_stores v rect) buf)
  /\ (forall x y, 0 <= x < SCREEN_W -> 0 <= y < SCREEN_H ->
                  chain_rendered v (apply_stores tr buf) x y).
Proof.
  intros Hperm Hl. split; [intros rect c; apply renderPixels_run |].
  assert (Hon : forall rect, rect ∈ tile_rects (mkVector2 SCREEN_W SCREEN_H) ->
                             rect_on_screen rect).
  { intros rect Hr. rewrite tile_rects_screen in Hr.
    unfold rect_on_screen, SCREEN_W, SCREEN_H.
    repeat (apply elem_of_cons in Hr as [-> | Hr]; [cbn; lia |]).
    inversion Hr. }
  assert (Hall : forall w, w ∈ tr -> tile_store v w).
  { intros w Hw. rewrite Hperm in Hw.
    apply list_elem_of_In, in_concat in Hw as (ws & Hws & Hw).
    apply in_map_iff in Hws as (rect & <- & Hr).
    apply list_elem_of_In in Hr, Hw.
    apply (renderPixels_stores_spec rect (Hon rect Hr)). exact Hw. }
  assert (Hcover : forall x y k, on_screen x y -> 0 <= k < 4 ->
            (pixel_offset SCREEN_W x y + k, channel (pixelColour_chain v x y) k) ∈ tr).
  { intros x y k [Hx Hy] Hk. rewrite Hperm. unfold SCREEN_W, SCREEN_H in Hx, Hy.
    assert (Hi : exists l, (l = 0 \/ l = 200 \/ l = 400 \/ l = 600) /\ l <= x < l + 200).
    { destruct (Z_lt_dec x 200); [exists 0; lia |].
      destruct (Z_lt_dec x 400); [exists 200; lia |].
      destruct (Z_lt_dec x 600); [exists 400; lia | exists 600; lia]. }
    assert (Hj : exists t, (t = 0 \/ t = 150 \/ t = 300 \/ t = 450) /\ t <= y < t + 150).
    { destruct (Z_lt_dec y 150); [exists 0; lia |].
      destruct (Z_lt_dec y 300); [exists 150; lia |].
      destruct (Z_lt_dec y 450); [exists 300; lia | exists 450; lia]. }
    destruct Hi as (l & Hl4 & Hxl). destruct Hj as (t & Ht4 & Hyt).
    assert (Hr : mkRect l t 200 150 ∈ tile_rects (mkVector2 SCREEN_W SCREEN_H)).
    { rewrite tile_rects_screen.
      destruct Hl4 as [-> | [-> | [-> | ->]]];
        destruct Ht4 as [-> | [-> | [-> | ->]]];
        repeat (first [left | right]). }
    apply list_elem_of_In, in_concat.
    exists (renderPixels_stores v (mkRect l t 200 150)). split.
    - apply in_map. now apply list_elem_of_In.
    - apply list_elem_of_In.
      apply (renderPixels_stores_spec _ (Hon _ Hr)); [| exact Hk].
      unfold in_rect. cbn. lia. }
  intros x y Hx Hy.
  assert (Hxy : on_screen x y) by (split; assumption).
  assert (Hb : forall k, 0 <= k < 4 ->
            load (apply_stores tr buf) (pixel_offset SCREEN_W x y + k)
            = Some (channel (pixelColour_chain v x y) k)).
  { intros k Hk. apply apply_tile_stores; try assumption.
    eexists. now apply Hcover. }
  unfold chain_rendered, pixel_stored.
  pose proof (Hb 0 ltac:(lia)) as B0. rewrite Z.add_0_r in B0.
  repeat apply conj; [exact B0 | apply (Hb 1) | apply (Hb 2) | apply (Hb 3)]; lia.
Qed.

End TileStores.

Lemma renderPixels_tile_witness :
  snd (renderPixels (View_new (-1 / 2)%R 0%R 1%R 800 600)
         (replicate (Z.to_nat 1920000) 0) (mkRect 0 0 200 150) (Some 0))
  = Some (0 + 1).
Proof.
  destruct (renderPixels_tile (View_new (-1 / 2)%R 0%R 1%R 800 600)
              (replicate (Z.to_nat 1920000) 0) (mkRect 0 0 200 150) 0)
    as (E & _).
  - unfold rect_on_screen, SCREEN_W, SCREEN_H. cbn [rect_left rect_top rect_width rect_height].
    lia.
  - rewrite length_replicate, Z2Nat.id by lia. reflexivity.
  - unfold Int.fits, Int.INT_MIN, Int.INT_MAX. lia.
  - exact E.
Defined.

Lemma run_tiles_complete_witness :
  snd (run_tiles (View_new (-1 / 2)%R 0%R 1%R 800 600)
         (reverse (tile_rects (mkVector2 SCREEN_W SCREEN_H)))
         (replicate (Z.to_nat 1920000) 0, Some 0))
  = Some 16.
Proof.
  destruct (run_tiles_complete (View_new (-1 / 2)%R 0%R 1%R 800 600)
              (reverse (tile_rects (mkVector2 SCREEN_W SCREEN_H)))
              (replicate (Z.to_nat 1920000) 0)) as (E & _).
  - apply reverse_Permutation.
  - rewrite length_replicate, Z2Nat.id by lia. reflexivity.
  - exact E.
Defined.

Lemma tiles_any_interleaving_witness :
  chain_rendered (View_new (-1 / 2)%R 0%R 1%R 800 600)
    (apply_stores
       (reverse (concat (map (renderPixels_stores (View_new (-1 / 2)%R 0%R 1%R 800 600))
                             (tile_rects (mkVector2 SCREEN_W SCREEN_H)))))
       (replicate (Z.to_nat 1920000) 0)) 799 599.
Proof.
  destruct (tiles_any_interleaving (View_new (-1 / 2)%R 0%R 1%R 800 600)
              (reverse (concat (map (renderPixels_stores (View_new (-1 / 2)%R 0%R 1%R 800 600))
                                    (tile_rects (mkVector2 SCREEN_W SCREEN_H)))))
              (replicate (Z.to_nat 1920000) 0)) as (_ & E).
  - apply reverse_Permutation.
  - rewrite length_replicate, Z2Nat.id by lia. reflexivity.
  - apply E; unfold SCREEN_W, SCREEN_H; lia.
Defined.
